(** * Hypothesis-space management of the clustering agents (model/agents.py)

    A shallow embedding of the assignment enumerator, of the population
    management of the four agent variants and of the orchestrator loop of
    [MultiStepAgent.generate], followed by the properties checked on them.

    Conventions of the embedding.
    - Python integers (contexts, cluster indices, trial numbers) are [Z].
    - A cluster assignment, a Python [dict] from context to cluster, is a
      [gmap Z Z]; lists of them keep their order.
    - Log-beliefs are [float64] in the source; they are idealised here as
      real numbers ([R]), so rounding, infinities and NaN inside the belief
      vectors are outside the model. The one place where the source can
      produce a non-finite number from a finite one, [np.log], is modelled by
      [np_log].
    - A raised Python exception is the [Raise] branch of [result]. *)

From Stdlib Require Import Reals Lra.
From stdpp Require Import base gmap list numbers.

Local Open Scope Z_scope.

(** ** Exceptions *)

Inductive exn := IndexError | ValueError | KeyError | OverflowError.

Inductive result (A : Type) : Type :=
  | Ok (a : A)
  | Raise (e : exn).
Arguments Ok {A} a.
Arguments Raise {A} e.

Definition bind {A B} (r : result A) (k : A → result B) : result B :=
  match r with
  | Ok a => k a
  | Raise e => Raise e
  end.

Notation "'let*' x := r 'in' k" := (bind r (fun x => k))
  (at level 10, x strict pattern, r at level 100, k at level 200).

(** ** Python and numpy primitives *)

(** [range(lo, hi)] *)
Definition py_range (lo hi : Z) : list Z := seqZ lo (hi - lo).

(** [max(xs)] on integers: [ValueError] on an empty sequence. *)
Definition py_max (xs : list Z) : result Z :=
  match xs with
  | [] => Raise ValueError
  | x :: xs' => Ok (foldl Z.max x xs')
  end.

(** [xs[i]] on a Python list or a one-dimensional numpy array: negative
    indices count from the end, anything else out of range raises. *)
Definition py_index (len : nat) (i : Z) : result nat :=
  if decide (0 ≤ i < Z.of_nat len) then Ok (Z.to_nat i)
  else if decide (- Z.of_nat len ≤ i < 0) then Ok (Z.to_nat (Z.of_nat len + i))
  else Raise IndexError.

Definition py_getitem {A} (xs : list A) (i : Z) : result A :=
  let* j := py_index (length xs) i in
  match xs !! j with
  | Some x => Ok x
  | None => Raise IndexError
  end.

(** ** The assignment enumerator *)

Abbreviation assignment := (gmap Z Z).

(** [assignment.values()] *)
Definition values (a : assignment) : list Z := (map_to_list a).*2.

(** The body of the inner [for k in range(0, max(assignment.values()) + 2)]
    loop: one copy of the assignment per [k], with [new_context] set to [k]. *)
Definition augment_one (a : assignment) (new_context : Z) : result (list assignment) :=
  let* m := py_max (values a) in
  Ok ((λ k, <[new_context := k]> a) <$> py_range 0 (m + 2)).

(** The outer [for assignment in cluster_assignments] loop. *)
Fixpoint augment_loop (cluster_assignments : list assignment) (new_context : Z)
  : result (list assignment) :=
  match cluster_assignments with
  | [] => Ok []
  | a :: rest =>
      let* new_list := augment_one a new_context in
      let* others := augment_loop rest new_context in
      Ok (new_list ++ others)
  end.

(** [augment_assignments(cluster_assignments, new_context)]. The guard is
    written with [|], which evaluates both operands: [cluster_assignments[0]]
    is indexed even when the list is empty. *)
Definition augment_assignments (cluster_assignments : list assignment) (new_context : Z)
  : result (list assignment) :=
  let len_is_0 := bool_decide (length cluster_assignments = 0%nat) in
  let* first := py_getitem cluster_assignments 0 in
  let first_is_empty := bool_decide (size first = 0%nat) in
  if len_is_0 || first_is_empty then Ok [ {[ new_context := 0 ]} ]
  else augment_loop cluster_assignments new_context.

(** The [for contextNumber in range(0, max_context_number)] loop. *)
Fixpoint enumerate_loop (contexts : list Z) (cluster_assignments : list assignment)
  : result (list assignment) :=
  match contexts with
  | [] => Ok cluster_assignments
  | c :: cs =>
      let* next := augment_assignments cluster_assignments c in
      enumerate_loop cs next
  end.

Definition enumerate_assignments (max_context_number : Z) : result (list assignment) :=
  enumerate_loop (py_range 0 max_context_number) [ ∅ ].

(** ** Canonical assignments and their count *)

(** The number of clusters an assignment uses when its cluster indices are
    [0 .. m-1]: one more than the largest index, and [0] for the empty
    assignment. *)
Definition n_clusters (a : assignment) : Z :=
  match py_max (values a) with
  | Ok m => m + 1
  | Raise _ => 0
  end.

(** A canonical assignment of [n] contexts: it is defined exactly on the
    contexts [0 .. n-1], its cluster indices are non-negative, and a cluster
    index [k > 0] is used by a context only after [k - 1] has been used by an
    earlier one. Context 0 is therefore in cluster 0 and the indices in use
    form a range starting at 0. *)
Definition canonical (n : nat) (a : assignment) : Prop :=
  (∀ i, is_Some (a !! i) ↔ 0 ≤ i < Z.of_nat n) ∧
  (∀ i k, a !! i = Some k →
     0 ≤ k ∧ (0 < k → ∃ j, j < i ∧ a !! j = Some (k - 1))).

(** The cluster indices in use are exactly [0 .. m-1]. *)
Definition contiguous_from_0 (a : assignment) : Prop :=
  ∃ m, ∀ k, (∃ i, a !! i = Some k) ↔ 0 ≤ k < m.

(** Stirling numbers of the second kind: the number of partitions of an
    [n]-element set into [k] non-empty blocks. *)
Fixpoint stirling2 (n k : nat) : nat :=
  match n with
  | O => match k with O => 1 | S _ => 0 end
  | S n' =>
      match k with
      | O => 0
      | S k' => (k * stirling2 n' k + stirling2 n' k')%nat
      end
  end.

(** Bell numbers: the number of partitions of an [n]-element set. *)
Definition Bell (n : nat) : nat := sum_list (stirling2 n <$> seq 0 (S n)).


(** ** numpy on the belief vectors *)

#[global] Instance Rlt_decision : RelDecision Rlt := Rlt_dec.
#[global] Instance Rle_decision : RelDecision Rle := Rle_dec.
#[global] Instance Req_decision : EqDecision R := Req_dec_T.

(** [np.max(xs)]: [ValueError] on an empty vector. *)
Definition np_max (xs : list R) : result R :=
  match xs with
  | [] => Raise ValueError
  | x :: xs' => Ok (foldl Rmax x xs')
  end.

(** What [np.log] returns on a finite argument: a finite number above 0,
    [-inf] at 0 and [nan] below. *)
Inductive np_float :=
  | Finite (x : R)
  | NegInf
  | NaN.

Definition np_log (x : R) : np_float :=
  if decide (0 < x)%R then Finite (ln x)
  else if decide (x = 0)%R then NegInf
  else NaN.

(** [x < y] for a finite [x]: nothing finite is below [-inf], and every
    comparison with [nan] is false. *)
Definition np_lt (x : R) (y : np_float) : bool :=
  match y with
  | Finite y' => bool_decide (x < y')%R
  | NegInf | NaN => false
  end.

(** [for ii, h in enumerate(hs): log_belief[ii] = op(log_belief[ii], f(h))],
    starting at index [ii]; [op] is the second projection for [=] and [Rplus]
    for [+=]. Storing past the end of the vector raises. *)
Fixpoint store_each {H} (f : H → R) (op : R → R → R) (hs : list H) (ii : nat)
    (log_belief : list R) : result (list R) :=
  match hs with
  | [] => Ok log_belief
  | h :: hs' =>
      match log_belief !! ii with
      | None => Raise IndexError
      | Some old => store_each f op hs' (S ii) (<[ii := op old (f h)]> log_belief)
      end
  end.

Definition assign (old new : R) : R := new.

(** The pruning loop shared by the agents,
    [for ii, log_b in enumerate(log_belief):
         if max_belief - log_b < log_threshold: (append log_b and the hypotheses at ii)],
    where [fetch ii] reads the hypotheses stored at index [ii]. *)
Fixpoint prune_loop {X} (fetch : nat → result X) (max_belief : R) (log_threshold : np_float)
    (ii : nat) (log_belief : list R) : result (list (R * X)) :=
  match log_belief with
  | [] => Ok []
  | log_b :: rest =>
      if np_lt (max_belief - log_b) log_threshold then
        let* x := fetch ii in
        let* kept := prune_loop fetch max_belief log_threshold (S ii) rest in
        Ok ((log_b, x) :: kept)
      else prune_loop fetch max_belief log_threshold (S ii) rest
  end.

(** ** The hypothesis objects

    [RewardHypothesis] and [MappingHypothesis] come from the compiled
    extension module, which the agents only use through the methods below. *)

(** Modelled from the spec: the methods of [RewardHypothesis]
    (construction with an optional pre-set assignment, [update],
    [get_log_prior], [get_log_likelihood], [get_log_posterior],
    [get_assignments], [deep_copy], [add_new_context_assignment]). *)
Class RewardHypothesis (RH : Type) := {
  rh_new : option assignment → RH;
  rh_update : Z → Z → R → RH → RH;
  rh_get_log_prior : RH → R;
  rh_get_log_likelihood : RH → R;
  rh_get_log_posterior : RH → R;
  rh_get_assignments : RH → assignment;
  rh_deep_copy : RH → RH;
  rh_add_new_context_assignment : Z → Z → RH → RH;
}.

(** Modelled from the spec: the methods of [MappingHypothesis], parallel to
    those of [RewardHypothesis], with [updating_mapping] for the counts. *)
Class MappingHypothesis (MH : Type) := {
  mh_new : option assignment → MH;
  mh_updating_mapping : Z → Z → Z → MH → MH;
  mh_get_log_prior : MH → R;
  mh_get_log_likelihood : MH → R;
  mh_get_log_posterior : MH → R;
  mh_get_assignments : MH → assignment;
  mh_deep_copy : MH → MH;
  mh_add_new_context_assignment : Z → Z → MH → MH;
}.

(** Modelled from the spec: what the spec states about these methods. The
    log-posterior is the log-prior plus the log-likelihood; a hypothesis is
    created with the assignment it is given (none: no context assigned yet);
    [add_new_context_assignment] extends the assignment with one mapping;
    a deep copy scores and is assigned like its original; recording an
    observation leaves the assignment alone. *)
Class RewardHypothesisLaws (RH : Type) `{RewardHypothesis RH} := {
  rh_log_posterior h :
    rh_get_log_posterior h = (rh_get_log_prior h + rh_get_log_likelihood h)%R;
  rh_assignments_new o : rh_get_assignments (rh_new o) = default ∅ o;
  rh_assignments_add c k h :
    rh_get_assignments (rh_add_new_context_assignment c k h) = <[c := k]> (rh_get_assignments h);
  rh_deep_copy_eq h : rh_deep_copy h = h;
  rh_assignments_update c sp r h :
    rh_get_assignments (rh_update c sp r h) = rh_get_assignments h;
}.

Class MappingHypothesisLaws (MH : Type) `{MappingHypothesis MH} := {
  mh_log_posterior h :
    mh_get_log_posterior h = (mh_get_log_prior h + mh_get_log_likelihood h)%R;
  mh_assignments_new o : mh_get_assignments (mh_new o) = default ∅ o;
  mh_assignments_add c k h :
    mh_get_assignments (mh_add_new_context_assignment c k h) = <[c := k]> (mh_get_assignments h);
  mh_deep_copy_eq h : mh_deep_copy h = h;
  mh_assignments_update c a aa h :
    mh_get_assignments (mh_updating_mapping c a aa h) = mh_get_assignments h;
}.

(** ** The task, as far as the agents read it *)

Definition location : Type := Z * Z.
Definition state : Type := location * Z.
(** [(state, a, aa, r, state')] *)
Definition experience_tuple : Type := state * Z * Z * R * state.

(** [d[k]] on a dictionary *)
Definition dict_getitem `{Countable K} {V} (d : gmap K V) (k : K) : result V :=
  match d !! k with
  | Some v => Ok v
  | None => Raise KeyError
  end.

Class Task (T : Type) := {
  n_trials : T → Z;
  n_ctx : T → Z;
  state_location_key : T → gmap location Z;
  get_state : T → option state;
  current_trial_number : T → Z;
  move : Z → T → result (experience_tuple * T);
}.

(** [[f(x) for x in xs]] where [f] may raise. *)
Fixpoint for_each {A B} (f : A → result B) (xs : list A) : result (list B) :=
  match xs with
  | [] => Ok []
  | x :: xs' =>
      let* y := f x in
      let* ys := for_each f xs' in
      Ok (y :: ys)
  end.

(** ** The agents' population management *)

Section Agents.
Context {T RH MH : Type} `{Task T} `{RewardHypothesis RH} `{MappingHypothesis MH}.

(** *** JointClustering *)

Record JointClustering := {
  jc_reward_hypotheses : list RH;
  jc_mapping_hypotheses : list MH;
  jc_log_belief : list R;
}.

Definition JointClustering_init : JointClustering :=
  {| jc_reward_hypotheses := [rh_new None];
     jc_mapping_hypotheses := [mh_new None];
     jc_log_belief := [1%R] |}.

Definition JointClustering_update (task : T) (experience : experience_tuple)
    (self : JointClustering) : result JointClustering :=
  let '(_, a, aa, r, (loc_prime, c)) := experience in
  (* self.updating_mapping(c, a, aa) *)
  let mapping_hypotheses := mh_updating_mapping c a aa <$> jc_mapping_hypotheses self in
  let* sp := dict_getitem (state_location_key task) loc_prime in
  (* self.update_rewards(c, sp, r) *)
  let reward_hypotheses := rh_update c sp r <$> jc_reward_hypotheses self in
  let log_belief := replicate (length mapping_hypotheses) 0%R in
  let* log_belief := store_each mh_get_log_prior assign mapping_hypotheses 0 log_belief in
  let* log_belief := store_each rh_get_log_likelihood assign reward_hypotheses 0 log_belief in
  let* log_belief := store_each mh_get_log_likelihood Rplus mapping_hypotheses 0 log_belief in
  Ok {| jc_reward_hypotheses := reward_hypotheses;
        jc_mapping_hypotheses := mapping_hypotheses;
        jc_log_belief := log_belief |}.

(** The body of the loop over [zip(reward_hypotheses, mapping_hypotheses)]
    in [augment_assignments]: the children of one pair, each with the
    belief appended for it. *)
Definition JointClustering_children (context : Z) (pair : RH * MH)
    : result (list (RH * MH * R)) :=
  let '(h_r, h_m) := pair in
  let old_assignments := rh_get_assignments h_r in
  let* new_assignments := augment_assignments [old_assignments] context in
  for_each (λ assignment : assignment,
    let* k := dict_getitem assignment context in
    let h_r0 := rh_add_new_context_assignment context k (rh_deep_copy h_r) in
    let h_m0 := mh_add_new_context_assignment context k (mh_deep_copy h_m) in
    Ok (h_r0, h_m0, (rh_get_log_posterior h_r0 + mh_get_log_likelihood h_m0)%R))
    new_assignments.

Definition JointClustering_augment_assignments (context : Z) (self : JointClustering)
    : result JointClustering :=
  let* new :=
    for_each (JointClustering_children context)
      (zip (jc_reward_hypotheses self) (jc_mapping_hypotheses self)) in
  let new := concat new in
  Ok {| jc_reward_hypotheses := (λ x, x.1.1) <$> new;
        jc_mapping_hypotheses := (λ x, x.1.2) <$> new;
        jc_log_belief := (λ x, x.2) <$> new |}.

Definition JointClustering_prune_hypothesis_space (threshold : R) (self : JointClustering)
    : result JointClustering :=
  let* max_belief := np_max (jc_log_belief self) in
  let log_threshold := np_log threshold in
  let fetch ii :=
    let* h_r := py_getitem (jc_reward_hypotheses self) (Z.of_nat ii) in
    let* h_m := py_getitem (jc_mapping_hypotheses self) (Z.of_nat ii) in
    Ok (h_r, h_m) in
  let* kept := prune_loop fetch max_belief log_threshold 0 (jc_log_belief self) in
  Ok {| jc_reward_hypotheses := (λ x, x.2.1) <$> kept;
        jc_mapping_hypotheses := (λ x, x.2.2) <$> kept;
        jc_log_belief := (λ x, x.1) <$> kept |}.

(** *** IndependentClusterAgent *)

Record IndependentClusterAgent := {
  ic_reward_hypotheses : list RH;
  ic_mapping_hypotheses : list MH;
  ic_log_belief_rew : list R;
  ic_log_belief_map : list R;
}.

Definition IndependentClusterAgent_init : IndependentClusterAgent :=
  {| ic_reward_hypotheses := [rh_new None];
     ic_mapping_hypotheses := [mh_new None];
     ic_log_belief_rew := [1%R];
     ic_log_belief_map := [1%R] |}.

Definition IndependentClusterAgent_prune_hypothesis_space (threshold : R)
    (self : IndependentClusterAgent) : result IndependentClusterAgent :=
  let* max_belief := np_max (ic_log_belief_rew self) in
  let log_threshold := np_log threshold in
  let* kept_rew :=
    prune_loop (λ ii, py_getitem (ic_reward_hypotheses self) (Z.of_nat ii))
      max_belief log_threshold 0 (ic_log_belief_rew self) in
  let* max_belief := np_max (ic_log_belief_map self) in
  let* kept_map :=
    prune_loop (λ ii, py_getitem (ic_mapping_hypotheses self) (Z.of_nat ii))
      max_belief log_threshold 0 (ic_log_belief_map self) in
  Ok {| ic_reward_hypotheses := snd <$> kept_rew;
        ic_mapping_hypotheses := snd <$> kept_map;
        ic_log_belief_rew := fst <$> kept_rew;
        ic_log_belief_map := fst <$> kept_map |}.

(** *** FlatControlAgent *)

(** A task set is the dictionary
    [{'Reward Hypothesis': h_r, 'Mapping Hypothesis': h_m}]. *)
Record task_set := {
  Reward_Hypothesis : RH;
  Mapping_Hypothesis : MH;
}.

Record FlatControlAgent := {
  fc_task_sets : list task_set;
  fc_log_belief : list R;
}.

Definition FlatControlAgent_init : FlatControlAgent :=
  {| fc_task_sets :=
       [ {| Reward_Hypothesis := rh_new None; Mapping_Hypothesis := mh_new None |} ];
     fc_log_belief := [1%R] |}.

Definition FlatControlAgent_update (task : T) (experience : experience_tuple)
    (self : FlatControlAgent) : result FlatControlAgent :=
  let '(_, a, aa, r, (loc_prime, c)) := experience in
  let task_sets :=
    (λ ts, {| Reward_Hypothesis := Reward_Hypothesis ts;
              Mapping_Hypothesis := mh_updating_mapping c a aa (Mapping_Hypothesis ts) |})
      <$> fc_task_sets self in
  let* sp := dict_getitem (state_location_key task) loc_prime in
  let task_sets :=
    (λ ts, {| Reward_Hypothesis := rh_update c sp r (Reward_Hypothesis ts);
              Mapping_Hypothesis := Mapping_Hypothesis ts |})
      <$> task_sets in
  let* log_belief :=
    store_each
      (λ ts, (mh_get_log_prior (Mapping_Hypothesis ts)
              + mh_get_log_likelihood (Mapping_Hypothesis ts)
              + rh_get_log_likelihood (Reward_Hypothesis ts))%R)
      assign task_sets 0 (fc_log_belief self) in
  Ok {| fc_task_sets := task_sets; fc_log_belief := log_belief |}.

(** Inherited from [MultiStepAgent]: [pass]. *)
Definition FlatControlAgent_prune_hypothesis_space (threshold : R)
    (self : FlatControlAgent) : result FlatControlAgent :=
  Ok self.

Definition FlatControlAgent_augment_assignments (context : Z) (self : FlatControlAgent)
    : result FlatControlAgent :=
  let* ts := py_getitem (fc_task_sets self) 0 in
  let h_m := mh_add_new_context_assignment context context (Mapping_Hypothesis ts) in
  let h_r := rh_add_new_context_assignment context context (Reward_Hypothesis ts) in
  Ok {| fc_task_sets := [ {| Reward_Hypothesis := h_r; Mapping_Hypothesis := h_m |} ];
        fc_log_belief := [1%R] |}.

(** *** MapClusteringAgent *)

Record MapClusteringAgent := {
  mc_reward_hypotheses : list RH;
  mc_mapping_hypotheses : list MH;
  mc_belief_rew : list R;
  mc_belief_map : list R;
}.

(** [np.ones(n) / float(n)] *)
Definition uniform (n : nat) : list R := replicate n (1 / INR n)%R.

Definition MapClusteringAgent_init (task : T) : result MapClusteringAgent :=
  let* map_set_assignments := enumerate_assignments (n_ctx task) in
  let set_assignments : list assignment :=
    [ list_to_map ((λ ii, (ii, ii)) <$> py_range 0 (n_ctx task)) ] in
  let reward_hypotheses := (λ a, rh_new (Some a)) <$> set_assignments in
  let mapping_hypotheses := (λ a, mh_new (Some a)) <$> map_set_assignments in
  Ok {| mc_reward_hypotheses := reward_hypotheses;
        mc_mapping_hypotheses := mapping_hypotheses;
        mc_belief_rew := uniform (length reward_hypotheses);
        mc_belief_map := uniform (length mapping_hypotheses) |}.

End Agents.

Arguments JointClustering : clear implicits.
Arguments IndependentClusterAgent : clear implicits.
Arguments task_set : clear implicits.
Arguments FlatControlAgent : clear implicits.
Arguments MapClusteringAgent : clear implicits.

(** ** The orchestrator: [MultiStepAgent.generate] *)

(** The methods [generate] calls on [self]; each agent class overrides
    them. *)
Class Agent (T A : Type) := {
  agent_select_action : T → state → A → result (Z * A);
  agent_update : T → experience_tuple → A → result A;
  agent_prune_hypothesis_space : R → A → result A;
  agent_augment_assignments : Z → A → result A;
}.

(** What a run does, in order: the calls on the agent and on the task's
    [move], and a mark [Step t c n] at every iteration of the loop, placed
    after [step_counter[t] += 1]: the trial number [t], the context [c] of
    the current state and the new value [n] of [step_counter[t]]. The first
    step of a visit of [c] is a mark [Step t c 1]. *)
Inductive call :=
  | Step (t c : Z) (n : nat)
  | CallPrune (threshold : R)
  | CallAugment (c : Z)
  | CallSelect (s : state)
  | CallMove (action : Z)
  | CallUpdate (e : experience_tuple).

(** A computation that may raise and that records its calls, also those made
    before it raises. *)
Definition logged (X : Type) : Type := list call * result X.

Definition lret {X} (x : X) : logged X := ([], Ok x).

Definition lbind {X Y} (m : logged X) (k : X → logged Y) : logged Y :=
  match m with
  | (l, Ok x) => let '(l', r) := k x in (l ++ l', r)
  | (l, Raise e) => (l, Raise e)
  end.

Definition lift {X} (r : result X) : logged X := ([], r).
Definition recorded {X} (c : call) (r : result X) : logged X := ([c], r).

Notation "'let**' x := m 'in' k" := (lbind m (fun x => k))
  (at level 10, x strict pattern, m at level 100, k at level 200).

(** [np.zeros(n)]; the counters only ever hold small whole numbers. *)
Definition np_zeros (n : Z) : result (list nat) :=
  if decide (n < 0) then Raise ValueError else Ok (replicate (Z.to_nat n) 0%nat).

(** One row of the output, without the trial's static fields. *)
Record row := {
  Start_Location : location;
  End_Location : location;
  context : Z;
  key_press : Z;
  Reward_Collected : R;
  n_actions_taken : nat;
  TrialNumber : Z;
  In_goal : bool;
  Times_Seen_Context : nat;
}.

Section Generate.
Context {T A : Type} `{Task T} `{Agent T A}.

Record loop_state := {
  ls_task : T;
  ls_agent : A;
  ls_step_counter : list nat;
  ls_times_seen_ctx : list nat;
  ls_results : list row;
}.

(** The block under [if step_counter[t] == 1]. *)
Definition generate_enter (pruning_threshold : R) (c : Z) (agent : A)
    (times_seen_ctx : list nat) : logged (A * list nat) :=
  let** j := lift (py_index (length times_seen_ctx) c) in
  let times_seen_ctx := alter S j times_seen_ctx in
  if decide (times_seen_ctx !! j = Some 1%nat) then
    let** agent :=
      recorded (CallPrune pruning_threshold)
        (agent_prune_hypothesis_space pruning_threshold agent) in
    let** agent := recorded (CallAugment c) (agent_augment_assignments c agent) in
    lret (agent, times_seen_ctx)
  else lret (agent, times_seen_ctx).

(** The rest of the body of [while True]: select an action, take it,
    update the learner and append the row. *)
Definition generate_act (task : T) (t : Z) (s : state) (agent : A)
    (step_counter times_seen_ctx : list nat) (results : list row) : logged loop_state :=
  let** (action, agent) := recorded (CallSelect s) (agent_select_action task s agent) in
  let** (experience, task) := recorded (CallMove action) (move action task) in
  let '((xy, c), a, aa, r, (xyp, _)) := experience in
  let** agent := recorded (CallUpdate experience) (agent_update task experience agent) in
  let** n_actions := lift (py_getitem step_counter t) in
  let** seen := lift (py_getitem times_seen_ctx c) in
  lret {| ls_task := task;
          ls_agent := agent;
          ls_step_counter := step_counter;
          ls_times_seen_ctx := times_seen_ctx;
          ls_results :=
            results ++
            [ {| Start_Location := xy; End_Location := xyp; context := c;
                 key_press := action; Reward_Collected := r;
                 n_actions_taken := n_actions; TrialNumber := t;
                 In_goal := negb (bool_decide (current_trial_number task = t));
                 Times_Seen_Context := seen |} ] |}.

(** The body of [while True], once the state is known not to be [None]. *)
Definition generate_step (pruning_threshold : R) (ls : loop_state) (s : state)
    : logged loop_state :=
  let task := ls_task ls in
  let t := current_trial_number task in
  let** ti := lift (py_index (length (ls_step_counter ls)) t) in
  let step_counter := alter S ti (ls_step_counter ls) in
  let '(_, c) := s in
  let n := default 0%nat (step_counter !! ti) in
  let** _ := ([Step t c n], Ok tt) in
  let** (agent, times_seen_ctx) :=
    if decide (n = 1%nat)
    then generate_enter pruning_threshold c (ls_agent ls) (ls_times_seen_ctx ls)
    else lret (ls_agent ls, ls_times_seen_ctx ls) in
  generate_act task t s agent step_counter times_seen_ctx (ls_results ls).

(** [while True]: at most [fuel] iterations; [None] when the task still
    has a state after them. [pd.concat] raises on an empty list. *)
Fixpoint generate_loop (fuel : nat) (pruning_threshold : R) (ls : loop_state)
    : logged (option (list row)) :=
  match fuel with
  | O => lret None
  | S fuel' =>
      match get_state (ls_task ls) with
      | None =>
          match ls_results ls with
          | [] => lift (Raise ValueError)
          | rows => lret (Some rows)
          end
      | Some s =>
          let** ls' := generate_step pruning_threshold ls s in
          generate_loop fuel' pruning_threshold ls'
      end
  end.

Definition generate (fuel : nat) (pruning_threshold : R) (task : T) (self : A)
    : logged (option (list row)) :=
  let** step_counter := lift (np_zeros (n_trials task)) in
  let** times_seen_ctx := lift (np_zeros (n_ctx task)) in
  generate_loop fuel pruning_threshold
    {| ls_task := task; ls_agent := self; ls_step_counter := step_counter;
       ls_times_seen_ctx := times_seen_ctx; ls_results := [] |}.

End Generate.

(** ** Auxiliary notions used by the statements *)

(** [m] is the largest cluster index of [a]. *)
Definition is_max_cluster (a : assignment) (m : Z) : Prop :=
  (∀ i k, a !! i = Some k → k ≤ m) ∧ ∃ i, a !! i = Some m.

(** The children of one assignment: the new context in each of the clusters
    [0 .. n_clusters a - 1] in turn, then in the new cluster [n_clusters a]. *)
Definition extend (c : Z) (a : assignment) : list assignment :=
  (λ k, <[c := k]> a) <$> seqZ 0 (n_clusters a + 1).

(** The number of distinct cluster indices an assignment uses. *)
Definition distinct_clusters (a : assignment) : nat :=
  size (list_to_set (values a) : gset Z).

(** The assignments of [n] contexts obtained by extending the empty
    assignment one context at a time. *)
Fixpoint all_extensions (n : nat) : list assignment :=
  match n with
  | O => [∅]
  | S n' => all_extensions n' ≫= extend (Z.of_nat n')
  end.

(** How many assignments of a list use [k] clusters. *)
Definition count_clusters (k : nat) (l : list assignment) : nat :=
  length (filter (λ a, n_clusters a = Z.of_nat k) l).

(** The rows of a population: each log-belief with the hypotheses stored at
    the same index. *)
Definition jc_rows {RH MH} (self : JointClustering RH MH) : list (R * (RH * MH)) :=
  zip (jc_log_belief self) (zip (jc_reward_hypotheses self) (jc_mapping_hypotheses self)).

Definition ic_rows_rew {RH MH} (self : IndependentClusterAgent RH MH) : list (R * RH) :=
  zip (ic_log_belief_rew self) (ic_reward_hypotheses self).

Definition ic_rows_map {RH MH} (self : IndependentClusterAgent RH MH) : list (R * MH) :=
  zip (ic_log_belief_map self) (ic_mapping_hypotheses self).

(** The vectors of a population have one entry per hypothesis. *)
Definition jc_aligned {RH MH} (self : JointClustering RH MH) : Prop :=
  length (jc_reward_hypotheses self) = length (jc_log_belief self) ∧
  length (jc_mapping_hypotheses self) = length (jc_log_belief self).

Definition ic_aligned {RH MH} (self : IndependentClusterAgent RH MH) : Prop :=
  length (ic_reward_hypotheses self) = length (ic_log_belief_rew self) ∧
  length (ic_mapping_hypotheses self) = length (ic_log_belief_map self).

(** The rows that pass the test of the pruning loop,
    [max_belief - log_b < np.log(threshold)]. *)
Definition retained {X} (max_belief threshold : R) (rows : list (R * X)) : list (R * X) :=
  filter (λ row, Is_true (np_lt (max_belief - row.1) (np_log threshold))) rows.

(** Every context is its own cluster. *)
Definition own_clusters (a : assignment) : Prop := ∀ i k, a !! i = Some k → k = i.

(** The flat agent holds one task set, and both of its hypotheses keep every
    context in a cluster of its own. *)
Definition flat_single `{RewardHypothesis RH} `{MappingHypothesis MH}
    (fc : FlatControlAgent RH MH) : Prop :=
  ∃ ts, fc_task_sets fc = [ts] ∧
    own_clusters (rh_get_assignments (Reward_Hypothesis ts)) ∧
    own_clusters (mh_get_assignments (Mapping_Hypothesis ts)).

(** The shape of the record of a run, given the contexts visited before it.
    Every iteration starts with its mark and goes on with action selection,
    except that on the first step of a trial in a context [c] not visited
    before, [prune_hypothesis_space] and [augment_assignments(c)] are called
    between the two. A record may stop where a call raised. *)
Inductive log_ok (threshold : R) : list Z → list call → Prop :=
  | log_nil visited : log_ok threshold visited []
  | log_select visited s l :
      log_ok threshold visited l → log_ok threshold visited (CallSelect s :: l)
  | log_move visited action l :
      log_ok threshold visited l → log_ok threshold visited (CallMove action :: l)
  | log_update visited e l :
      log_ok threshold visited l → log_ok threshold visited (CallUpdate e :: l)
  | log_step visited t c n l :
      n ≠ 1%nat →
      log_ok threshold visited l →
      (l = [] ∨ ∃ s l', l = CallSelect s :: l') →
      log_ok threshold visited (Step t c n :: l)
  | log_visit visited t c l :
      log_ok threshold (c :: visited) l →
      (l = [] ∨ ∃ s l', l = CallSelect s :: l') →
      log_ok threshold visited (Step t c 1 :: l)
  | log_first_prune visited t c :
      c ∉ visited →
      log_ok threshold visited [Step t c 1; CallPrune threshold]
  | log_first visited t c l :
      c ∉ visited →
      log_ok threshold (c :: visited) l →
      (l = [] ∨ ∃ s l', l = CallSelect s :: l') →
      log_ok threshold visited (Step t c 1 :: CallPrune threshold :: CallAugment c :: l).

(** The counters of the contexts visited so far are positive. *)
Definition seen_counted (visited : list Z) (times_seen_ctx : list nat) : Prop :=
  ∀ c, c ∈ visited →
    ∃ j n, py_index (length times_seen_ctx) c = Ok j ∧ times_seen_ctx !! j = Some (S n).

(** ** Inputs for the examples

    A small instance of the two hypothesis interfaces, to run the agents on
    explicit inputs. It keeps the assignment and counts the observations it
    is given; its scores are stand-ins for those of the extension module: the
    log-prior is minus the number of assigned contexts and the
    log-likelihood minus the number of observations. *)
Record counting_hypothesis := {
  ch_assignments : assignment;
  ch_observations : nat;
}.

Definition ch_log_prior (h : counting_hypothesis) : R := (- INR (size (ch_assignments h)))%R.
Definition ch_log_likelihood (h : counting_hypothesis) : R := (- INR (ch_observations h))%R.
Definition ch_observe (h : counting_hypothesis) : counting_hypothesis :=
  {| ch_assignments := ch_assignments h; ch_observations := S (ch_observations h) |}.
Definition ch_add (c k : Z) (h : counting_hypothesis) : counting_hypothesis :=
  {| ch_assignments := <[c := k]> (ch_assignments h); ch_observations := ch_observations h |}.

#[global] Instance counting_reward : RewardHypothesis counting_hypothesis := {|
  rh_new o := {| ch_assignments := default ∅ o; ch_observations := 0 |};
  rh_update _ _ _ := ch_observe;
  rh_get_log_prior := ch_log_prior;
  rh_get_log_likelihood := ch_log_likelihood;
  rh_get_log_posterior h := (ch_log_prior h + ch_log_likelihood h)%R;
  rh_get_assignments := ch_assignments;
  rh_deep_copy h := h;
  rh_add_new_context_assignment := ch_add;
|}.

#[global] Instance counting_mapping : MappingHypothesis counting_hypothesis := {|
  mh_new o := {| ch_assignments := default ∅ o; ch_observations := 0 |};
  mh_updating_mapping _ _ _ := ch_observe;
  mh_get_log_prior := ch_log_prior;
  mh_get_log_likelihood := ch_log_likelihood;
  mh_get_log_posterior h := (ch_log_prior h + ch_log_likelihood h)%R;
  mh_get_assignments := ch_assignments;
  mh_deep_copy h := h;
  mh_add_new_context_assignment := ch_add;
|}.

(** A task that replays a fixed sequence of (trial number, state) pairs;
    [move] goes to the next pair and reports no reward. *)
Record scripted_task := {
  st_n_trials : Z;
  st_n_ctx : Z;
  st_key : gmap location Z;
  st_script : list (Z * state);
}.

#[global] Instance scripted_Task : Task scripted_task := {|
  n_trials := st_n_trials;
  n_ctx := st_n_ctx;
  state_location_key := st_key;
  get_state task := snd <$> head (st_script task);
  current_trial_number task := default 0 (fst <$> head (st_script task));
  move action task :=
    match st_script task with
    | [] => Raise ValueError
    | (_, s) :: rest =>
        Ok ((s, action, action, 0%R, default s (snd <$> head rest)),
            {| st_n_trials := st_n_trials task; st_n_ctx := st_n_ctx task;
               st_key := st_key task; st_script := rest |})
    end;
|}.

(** The base class as an agent: [update], [prune_hypothesis_space] and
    [augment_assignments] are [pass]; the sampled action is fixed to 0. *)
#[global] Instance MultiStepAgent_Agent {T} : Agent T unit := {|
  agent_select_action _ _ self := Ok (0, self);
  agent_update _ _ self := Ok self;
  agent_prune_hypothesis_space _ self := Ok self;
  agent_augment_assignments _ self := Ok self;
|}.

(** ** The module-level helpers *)

#[global] Instance Rgt_decision : RelDecision Rgt := Rgt_dec.

(** [np.sum(xs)] *)
Definition np_sum (xs : list R) : R := foldr Rplus 0%R xs.

(** [softmax_to_pdf(q_values, inverse_temperature)] *)
Definition softmax_to_pdf (q_values : list R) (inverse_temperature : R) : list R :=
  let pdf := (λ q, exp (q * inverse_temperature)) <$> q_values in
  (λ x, x / np_sum pdf)%R <$> pdf.

(** [sample_cmf(cmf)], with the number drawn by [np.random.rand()] as an
    argument: [int(np.sum(rand > cmf))] counts the entries below the draw. *)
Definition sample_cmf (rand : R) (cmf : list R) : nat :=
  sum_list ((λ x, if decide (rand > x)%R then 1%nat else 0%nat) <$> cmf).

(** [displacement_to_abstract_action(dx, dy)] *)
Definition displacement_to_abstract_action (dx dy : Z) : Z :=
  if negb (bool_decide (dx = 0)) && negb (bool_decide (dy = 0)) then -1
  else if bool_decide (dx = 1) then 0
  else if bool_decide (dx = -1) then 1
  else if bool_decide (dy = 1) then 2
  else if bool_decide (dy = -1) then 3
  else -1.

(** [ModelBasedAgent._transitions_to_actions(s, sp)]; the dictionary is the
    task's [inverse_state_loc_key], from state number to location. *)
Definition ModelBasedAgent_transitions_to_actions
    (inverse_state_loc_key : gmap Z location) (s sp : Z) : result Z :=
  let* (x, y) := dict_getitem inverse_state_loc_key s in
  let* (xp, yp) := dict_getitem inverse_state_loc_key sp in
  Ok (displacement_to_abstract_action (xp - x) (yp - y)).

(** [np.log2] on a positive argument *)
Definition np_log2 (x : R) : R := (ln x / ln 2)%R.

(** [kl_divergence(q, p)]: the loop over [zip(q, p)], which stops at the end
    of the shorter vector. *)
Definition kl_divergence (q p : list R) : R :=
  foldl (λ d qp,
           if bool_decide (qp.2 > 0)%R && bool_decide (qp.1 > 0)%R
           then (d + qp.2 * np_log2 (qp.2 / qp.1))%R
           else d)
        0%R (zip q p).

(** A vector whose entries do not decrease, as a cumulative mass function
    is. *)
Definition nondecreasing (xs : list R) : Prop :=
  ∀ i j x y, (i ≤ j)%nat → xs !! i = Some x → xs !! j = Some y → (x <= y)%R.

(** ** The remaining methods of the agents *)

(** [np.cumsum(xs)] *)
Fixpoint cumsum_from (acc : R) (xs : list R) : list R :=
  match xs with
  | [] => []
  | x :: xs' => (acc + x)%R :: cumsum_from (acc + x)%R xs'
  end.

Definition np_cumsum (xs : list R) : list R := cumsum_from 0%R xs.

(** [np.argmax(xs)]: the first index of the largest entry; [ValueError] on
    an empty vector. *)
Fixpoint argmax_from (best : R) (best_i i : nat) (xs : list R) : nat :=
  match xs with
  | [] => best_i
  | x :: xs' =>
      if decide (x > best)%R then argmax_from x i (S i) xs'
      else argmax_from best best_i (S i) xs'
  end.

Definition np_argmax (xs : list R) : result nat :=
  match xs with
  | [] => Raise ValueError
  | x :: xs' => Ok (argmax_from x 0 1 xs')
  end.

(** Modelled from the spec: the value query of [RewardHypothesis],
    [select_abstract_action_pmf(s, c, transition_function)]; the transition
    function is the one of the task's current trial, so the task is passed. *)
Class RewardHypothesisPlanning (T RH : Type) := {
  rh_select_abstract_action_pmf : Z → Z → T → RH → list R;
}.

(** Modelled from the spec: the probability query of [MappingHypothesis],
    [get_mapping_probability(c, a, aa)]. *)
Class MappingHypothesisQuery (MH : Type) := {
  mh_get_mapping_probability : Z → Z → Z → MH → R;
}.

(** [np.int32(c)] of a Python integer: [c] itself when it fits 32 bits.
    Outside of them numpy 2 raises [OverflowError], as here; numpy 1 wraps
    the integer around instead (with a warning from 1.24 on). The statements
    about [select_action] take the context within 32 bits, where the two
    agree. *)
Definition np_int32 (c : Z) : result Z :=
  if decide (- 2 ^ 31 ≤ c < 2 ^ 31) then Ok c else Raise OverflowError.

Section MoreAgents.
Context {T RH MH : Type} `{Task T} `{RewardHypothesis RH} `{MappingHypothesis MH}.
Context `{RewardHypothesisPlanning T RH} `{MappingHypothesisQuery MH}.

(** [JointClustering.select_abstract_action(state)]; [rand] is the number
    drawn by [sample_cmf]. *)
Definition JointClustering_select_abstract_action (task : T) (inverse_temperature rand : R)
    (s : state) (self : JointClustering RH MH) : result Z :=
  let '(xy, c) := s in
  let* sn := dict_getitem (state_location_key task) xy in
  let* ii := np_argmax (jc_log_belief self) in
  let* h_r := py_getitem (jc_reward_hypotheses self) (Z.of_nat ii) in
  let q_values := rh_select_abstract_action_pmf sn c task h_r in
  let full_pmf := (λ q, exp (q * inverse_temperature)) <$> q_values in
  let full_pmf := (λ x, x / np_sum full_pmf)%R <$> full_pmf in
  Ok (Z.of_nat (sample_cmf rand (np_cumsum full_pmf))).

(** [JointClustering.select_action(state)], with the two numbers drawn. *)
Definition JointClustering_select_action (task : T) (inverse_temperature : R)
    (n_primitive_actions : nat) (rand1 rand2 : R)
    (s : state) (self : JointClustering RH MH) : result Z :=
  let '(_, c) := s in
  let* aa := JointClustering_select_abstract_action task inverse_temperature rand1 s self in
  let* c := np_int32 c in
  let* ii := np_argmax (jc_log_belief self) in
  let* h_m := py_getitem (jc_mapping_hypotheses self) (Z.of_nat ii) in
  let mapping_mle :=
    (λ a0, mh_get_mapping_probability c a0 aa h_m)
      <$> py_range 0 (Z.of_nat n_primitive_actions) in
  Ok (Z.of_nat (sample_cmf rand2 (np_cumsum mapping_mle))).

(** [IndependentClusterAgent.update(experience_tuple)] *)
Definition IndependentClusterAgent_update (task : T) (experience : experience_tuple)
    (self : IndependentClusterAgent RH MH) : result (IndependentClusterAgent RH MH) :=
  let '(_, a, aa, r, (loc_prime, c)) := experience in
  let mapping_hypotheses := mh_updating_mapping c a aa <$> ic_mapping_hypotheses self in
  let* sp := dict_getitem (state_location_key task) loc_prime in
  let reward_hypotheses := rh_update c sp r <$> ic_reward_hypotheses self in
  let* log_belief_rew :=
    store_each rh_get_log_posterior assign reward_hypotheses 0 (ic_log_belief_rew self) in
  let* log_belief_map :=
    store_each mh_get_log_posterior assign mapping_hypotheses 0 (ic_log_belief_map self) in
  Ok {| ic_reward_hypotheses := reward_hypotheses;
        ic_mapping_hypotheses := mapping_hypotheses;
        ic_log_belief_rew := log_belief_rew;
        ic_log_belief_map := log_belief_map |}.

(** The bodies of the two loops of
    [IndependentClusterAgent.augment_assignments]: the children of one
    hypothesis, each with the belief appended for it. *)
Definition IndependentClusterAgent_children_rew (context : Z) (h_r : RH)
    : result (list (RH * R)) :=
  let old_assignments := rh_get_assignments h_r in
  let* new_assignments := augment_assignments [old_assignments] context in
  for_each (λ assignment : assignment,
    let* k := dict_getitem assignment context in
    let h_r0 := rh_add_new_context_assignment context k (rh_deep_copy h_r) in
    Ok (h_r0, (rh_get_log_prior h_r0 + rh_get_log_likelihood h_r0)%R))
    new_assignments.

Definition IndependentClusterAgent_children_map (context : Z) (h_m : MH)
    : result (list (MH * R)) :=
  let old_assignments := mh_get_assignments h_m in
  let* new_assignments := augment_assignments [old_assignments] context in
  for_each (λ assignment : assignment,
    let* k := dict_getitem assignment context in
    let h_m0 := mh_add_new_context_assignment context k (mh_deep_copy h_m) in
    Ok (h_m0, (mh_get_log_prior h_m0 + mh_get_log_likelihood h_m0)%R))
    new_assignments.

Definition IndependentClusterAgent_augment_assignments (context : Z)
    (self : IndependentClusterAgent RH MH) : result (IndependentClusterAgent RH MH) :=
  let* new_rew :=
    for_each (IndependentClusterAgent_children_rew context) (ic_reward_hypotheses self) in
  let new_rew := concat new_rew in
  let* new_map :=
    for_each (IndependentClusterAgent_children_map context) (ic_mapping_hypotheses self) in
  let new_map := concat new_map in
  Ok {| ic_reward_hypotheses := fst <$> new_rew;
        ic_mapping_hypotheses := fst <$> new_map;
        ic_log_belief_rew := snd <$> new_rew;
        ic_log_belief_map := snd <$> new_map |}.

(** The normalised beliefs of [MapClusteringAgent.update]:
    [belief[ii] = np.exp(log_posterior)] for every hypothesis, then
    [belief /= np.sum(belief)]. *)
Definition normalised_beliefs {H} (get_log_posterior : H → R) (hs : list H) : list R :=
  let belief := (λ h, exp (get_log_posterior h)) <$> hs in
  (λ x, x / np_sum belief)%R <$> belief.

(** [MapClusteringAgent.update(experience_tuple)] *)
Definition MapClusteringAgent_update (task : T) (experience : experience_tuple)
    (self : MapClusteringAgent RH MH) : result (MapClusteringAgent RH MH) :=
  let '(_, a, aa, r, (loc_prime, c)) := experience in
  let mapping_hypotheses := mh_updating_mapping c a aa <$> mc_mapping_hypotheses self in
  let* sp := dict_getitem (state_location_key task) loc_prime in
  let reward_hypotheses := rh_update c sp r <$> mc_reward_hypotheses self in
  Ok {| mc_reward_hypotheses := reward_hypotheses;
        mc_mapping_hypotheses := mapping_hypotheses;
        mc_belief_rew := normalised_beliefs rh_get_log_posterior reward_hypotheses;
        mc_belief_map := normalised_beliefs mh_get_log_posterior mapping_hypotheses |}.

(** The joint agent as the [self] of [generate]. The numbers its sampling
    draws are the values of [draws], in order; the agent is paired with the
    count of the numbers drawn so far. *)
Definition JointClustering_Agent (inverse_temperature : R) (n_primitive_actions : nat)
    (draws : nat → R) : Agent T (JointClustering RH MH * nat) := {|
  agent_select_action task s self :=
    let* action :=
      JointClustering_select_action task inverse_temperature n_primitive_actions
        (draws self.2) (draws (S self.2)) s self.1 in
    Ok (action, (self.1, S (S self.2)));
  agent_update task experience self :=
    let* jc := JointClustering_update task experience self.1 in Ok (jc, self.2);
  agent_prune_hypothesis_space threshold self :=
    let* jc := JointClustering_prune_hypothesis_space threshold self.1 in Ok (jc, self.2);
  agent_augment_assignments c self :=
    let* jc := JointClustering_augment_assignments c self.1 in Ok (jc, self.2);
|}.

End MoreAgents.

(** The children [augment_assignments] makes of one pair: the new context
    in each cluster [k] of the reward hypothesis's assignment and in the next
    new one, with the belief stored for the child. *)
Definition JointClustering_children_of `{RewardHypothesis RH} `{MappingHypothesis MH}
    (c : Z) (p : RH * MH) : list (RH * MH * R) :=
  (λ k, (rh_add_new_context_assignment c k p.1,
         mh_add_new_context_assignment c k p.2,
         (rh_get_log_posterior (rh_add_new_context_assignment c k p.1)
          + mh_get_log_likelihood (mh_add_new_context_assignment c k p.2))%R))
    <$> seqZ 0 (n_clusters (rh_get_assignments p.1) + 1).

(** The children the independent agent makes of one hypothesis. *)
Definition IndependentClusterAgent_children_rew_of `{RewardHypothesis RH}
    (c : Z) (h_r : RH) : list (RH * R) :=
  (λ k, let h_r0 := rh_add_new_context_assignment c k h_r in
        (h_r0, (rh_get_log_prior h_r0 + rh_get_log_likelihood h_r0)%R))
    <$> seqZ 0 (n_clusters (rh_get_assignments h_r) + 1).

Definition IndependentClusterAgent_children_map_of `{MappingHypothesis MH}
    (c : Z) (h_m : MH) : list (MH * R) :=
  (λ k, let h_m0 := mh_add_new_context_assignment c k h_m in
        (h_m0, (mh_get_log_prior h_m0 + mh_get_log_likelihood h_m0)%R))
    <$> seqZ 0 (n_clusters (mh_get_assignments h_m) + 1).

(** Every stored log-belief of the independent agent is the log-posterior
    of the hypothesis at its index. *)
Definition ic_posteriors `{RewardHypothesis RH} `{MappingHypothesis MH}
    (self : IndependentClusterAgent RH MH) : Prop :=
  ic_log_belief_rew self = rh_get_log_posterior <$> ic_reward_hypotheses self ∧
  ic_log_belief_map self = mh_get_log_posterior <$> ic_mapping_hypotheses self.

(** The pairs of a joint population carry one assignment each: the reward
    and the mapping hypothesis at an index have the same assignment. *)
Definition jc_shared `{RewardHypothesis RH} `{MappingHypothesis MH}
    (self : JointClustering RH MH) : Prop :=
  rh_get_assignments <$> jc_reward_hypotheses self
  = mh_get_assignments <$> jc_mapping_hypotheses self.

(** [augment_assignments] called for each context of a list in turn. *)
Fixpoint JointClustering_augment_all `{RewardHypothesis RH} `{MappingHypothesis MH}
    (contexts : list Z) (self : JointClustering RH MH) : result (JointClustering RH MH) :=
  match contexts with
  | [] => Ok self
  | c :: cs =>
      let* next := JointClustering_augment_assignments c self in
      JointClustering_augment_all cs next
  end.

(** Stand-ins for the two queries of the example hypotheses: four equal
    action values, and probability 1/8 for every key press. *)
#[global] Instance counting_planning {T} : RewardHypothesisPlanning T counting_hypothesis := {|
  rh_select_abstract_action_pmf _ _ _ _ := [0; 0; 0; 0]%R;
|}.

#[global] Instance counting_query : MappingHypothesisQuery counting_hypothesis := {|
  mh_get_mapping_probability _ _ _ _ := (1 / 8)%R;
|}.

(** The calls of one kind in the record of a run. *)
Definition is_select (e : call) : bool := match e with CallSelect _ => true | _ => false end.
Definition is_move (e : call) : bool := match e with CallMove _ => true | _ => false end.
Definition is_update (e : call) : bool := match e with CallUpdate _ => true | _ => false end.

Definition count_calls (kind : call → bool) (log : list call) : nat :=
  length (filter (λ e, Is_true (kind e)) log).

(** ** Arrays of numbers

    A numpy array of two (three) dimensions is the list of its rows
    (planes); its entries are real numbers, as the log-beliefs are. An
    index may be negative and then counts from the end; an index out of its
    dimension raises [IndexError]. Dividing by a zero entry gives [inf] or
    [nan] in numpy and 0 here: the statements below are about arrays whose
    divisors are positive. *)

(** [for x in xs: body], threading the variables the body assigns. *)
Fixpoint for_in {X S} (xs : list X) (body : X → S → result S) (s : S) : result S :=
  match xs with
  | [] => Ok s
  | x :: xs' => let* s' := body x s in for_in xs' body s'
  end.

(** [xs[i] = v] *)
Definition py_setitem {A} (xs : list A) (i : Z) (v : A) : result (list A) :=
  let* j := py_index (length xs) i in Ok (<[j := v]> xs).

(** A two-dimensional numpy array is the list of its rows.
    [m[i, j]] and [m[i, j] = v]. *)
Definition np_getitem2 (m : list (list R)) (i j : Z) : result R :=
  let* row := py_getitem m i in py_getitem row j.

Definition np_setitem2 (m : list (list R)) (i j : Z) (v : R) : result (list (list R)) :=
  let* row := py_getitem m i in
  let* row := py_setitem row j v in
  py_setitem m i row.

(** [np.shape(m)]. An array without rows has its second dimension read as 0
    here; the loops below do nothing on such an array whatever it is. *)
Definition np_shape2 (m : list (list R)) : nat * nat :=
  (length m, default 0%nat (length <$> head m)).

(** The entry at row [i], column [j], for indices in range. *)
Definition np_at2 (m : list (list R)) (i j : nat) : R :=
  default 0%R (m !! i ≫= (.!! j)).

(** [make_q_primitive(q_abstract, mapping)] *)
Definition make_q_primitive (q_abstract : list R) (mapping : list (list R))
    : result (list R) :=
  let q_primitive := replicate 8 0%R in
  let '(n, m) := np_shape2 mapping in
  for_in (py_range 0 (Z.of_nat m)) (λ aa q_primitive,
    for_in (py_range 0 (Z.of_nat n)) (λ a q_primitive,
      let* old := py_getitem q_primitive a in
      let* q := py_getitem q_abstract aa in
      let* w := np_getitem2 mapping a aa in
      py_setitem q_primitive a (old + q * w)%R) q_primitive) q_primitive.

(** A two-dimensional array has [n] rows of [m] entries. *)
Definition np_shape_is2 (m : list (list R)) (d0 d1 : nat) : Prop :=
  length m = d0 ∧ Forall (λ row, length row = d1) m.

(** A three-dimensional array is the list of its planes.
    [m[i, j, k]] and [m[i, j, k] = v]. *)
Definition np_getitem3 (m : list (list (list R))) (i j k : Z) : result R :=
  let* plane := py_getitem m i in np_getitem2 plane j k.

Definition np_setitem3 (m : list (list (list R))) (i j k : Z) (v : R)
    : result (list (list (list R))) :=
  let* plane := py_getitem m i in
  let* plane := np_setitem2 plane j k v in
  py_setitem m i plane.

(** [np.ones(shape) * v]: [ValueError] on a negative dimension. *)
Definition np_ones2 (d0 d1 : Z) (v : R) : result (list (list R)) :=
  if decide (d0 < 0 ∨ d1 < 0) then Raise ValueError
  else Ok (replicate (Z.to_nat d0) (replicate (Z.to_nat d1) (1 * v)%R)).

Definition np_ones3 (d0 d1 d2 : Z) (v : R) : result (list (list (list R))) :=
  if decide (d0 < 0 ∨ d1 < 0 ∨ d2 < 0) then Raise ValueError
  else Ok (replicate (Z.to_nat d0)
             (replicate (Z.to_nat d1) (replicate (Z.to_nat d2) (1 * v)%R))).

(** [m[c, :, aa]] *)
Definition np_column (m : list (list (list R))) (c aa : nat) : list R :=
  (λ row, default 0%R (row !! aa)) <$> default [] (m !! c).

Definition np_at3 (m : list (list (list R))) (i j k : nat) : R :=
  default 0%R (m !! i ≫= λ plane, plane !! j ≫= (.!! k)).

Definition np_shape_is3 (m : list (list (list R))) (d0 d1 d2 : nat) : Prop :=
  length m = d0 ∧ Forall (λ plane, np_shape_is2 plane d1 d2) m.

(** The array [m] with the entry at [i, j] (at [i, j, k]) replaced. *)
Definition np_set2 (m : list (list R)) (i j : nat) (v : R) : list (list R) :=
  alter (<[j := v]>) i m.

Definition np_set3 (m : list (list (list R))) (i j k : nat) (v : R)
    : list (list (list R)) :=
  alter (λ plane, np_set2 plane j k v) i m.

(** The sum of [f 0], ..., [f (n - 1)]. *)
Definition sum_over (n : nat) (f : nat → R) : R := np_sum (f <$> seq 0 n).

(** *** ModelBasedAgent *)

(** The arrays of the agent, and the sizes it reads from [self.task] in its
    loops. *)
Record ModelBasedAgent := {
  mb_n_states : Z;
  mb_n_primitive_actions : Z;
  mb_n_abstract_actions : Z;
  mb_mapping_history : list (list (list R));
  mb_abstract_action_counts : list (list R);
  mb_mapping_mle : list (list (list R));
  mb_reward_visits : list (list R);
  mb_reward_received : list (list R);
  mb_reward_function : list (list R);
}.

(** What the constructor can raise: an exception of [np.ones], or that of
    the division [1.0 / n_primitive_actions]. *)
Inductive init_exn := InitRaise (e : exn) | ZeroDivisionError.

Definition init_bind {A B} (r : result A) (k : A → init_exn + B) : init_exn + B :=
  match r with
  | Ok x => k x
  | Raise e => inl (InitRaise e)
  end.

Section ModelBased.
Context {T : Type} `{Task T}.

(** [ModelBasedAgent.__init__(task, mapping_prior=...)]; the sizes are
    those of the task, Python integers: [1.0 / 0] raises. *)
Definition ModelBasedAgent_init (task : T)
    (n_states n_primitive_actions n_abstract_actions : Z) (mapping_prior : R)
    : init_exn + ModelBasedAgent :=
  init_bind (np_ones3 (n_ctx task) n_primitive_actions (n_abstract_actions + 1)
               mapping_prior) (λ mapping_history,
  init_bind (np_ones2 (n_ctx task) (n_abstract_actions + 1)
               (mapping_prior * IZR n_primitive_actions)) (λ abstract_action_counts,
  init_bind (np_ones3 (n_ctx task) n_primitive_actions n_abstract_actions 1)
    (λ ones,
  if decide (n_primitive_actions = 0) then inl ZeroDivisionError else
  let mapping_mle :=
    fmap (M := list) (fmap (M := list) (fmap (M := list)
      (λ x, x * (1 / IZR n_primitive_actions))%R)) ones in
  init_bind (np_ones2 (n_ctx task) n_states (1 / 10000)) (λ reward_visits,
  init_bind (np_ones2 (n_ctx task) n_states (1 / 1000)) (λ reward_received,
  init_bind (np_ones2 (n_ctx task) n_states ((1 / 1000) / (101 / 10000)))
    (λ reward_function,
  inr {| mb_n_states := n_states;
         mb_n_primitive_actions := n_primitive_actions;
         mb_n_abstract_actions := n_abstract_actions;
         mb_mapping_history := mapping_history;
         mb_abstract_action_counts := abstract_action_counts;
         mb_mapping_mle := mapping_mle;
         mb_reward_visits := reward_visits;
         mb_reward_received := reward_received;
         mb_reward_function := reward_function |})))))).

(** [ModelBasedAgent.updating_mapping(c, a, aa)] *)
Definition ModelBasedAgent_updating_mapping (c a aa : Z) (self : ModelBasedAgent)
    : result ModelBasedAgent :=
  let* h := np_getitem3 (mb_mapping_history self) c a aa in
  let* mapping_history := np_setitem3 (mb_mapping_history self) c a aa (h + 1)%R in
  let* n := np_getitem2 (mb_abstract_action_counts self) c aa in
  let* abstract_action_counts :=
    np_setitem2 (mb_abstract_action_counts self) c aa (n + 1)%R in
  let* mapping_mle :=
    for_in (py_range 0 (mb_n_abstract_actions self)) (λ aa0 mapping_mle,
      for_in (py_range 0 (mb_n_primitive_actions self)) (λ a0 mapping_mle,
        let* h := np_getitem3 mapping_history c a0 aa0 in
        let* n := np_getitem2 abstract_action_counts c aa0 in
        np_setitem3 mapping_mle c a0 aa0 (h / n)%R) mapping_mle)
      (mb_mapping_mle self) in
  Ok {| mb_n_states := mb_n_states self;
        mb_n_primitive_actions := mb_n_primitive_actions self;
        mb_n_abstract_actions := mb_n_abstract_actions self;
        mb_mapping_history := mapping_history;
        mb_abstract_action_counts := abstract_action_counts;
        mb_mapping_mle := mapping_mle;
        mb_reward_visits := mb_reward_visits self;
        mb_reward_received := mb_reward_received self;
        mb_reward_function := mb_reward_function self |}.

(** [ModelBasedAgent.update_rewards(c, sp, r)] *)
Definition ModelBasedAgent_update_rewards (c sp : Z) (r : R) (self : ModelBasedAgent)
    : result ModelBasedAgent :=
  let* v := np_getitem2 (mb_reward_visits self) c sp in
  let* reward_visits := np_setitem2 (mb_reward_visits self) c sp (v + 1)%R in
  let* x := np_getitem2 (mb_reward_received self) c sp in
  let* reward_received := np_setitem2 (mb_reward_received self) c sp (x + r)%R in
  let* x := np_getitem2 reward_received c sp in
  let* v := np_getitem2 reward_visits c sp in
  let* reward_function := np_setitem2 (mb_reward_function self) c sp (x / v)%R in
  Ok {| mb_n_states := mb_n_states self;
        mb_n_primitive_actions := mb_n_primitive_actions self;
        mb_n_abstract_actions := mb_n_abstract_actions self;
        mb_mapping_history := mb_mapping_history self;
        mb_abstract_action_counts := mb_abstract_action_counts self;
        mb_mapping_mle := mb_mapping_mle self;
        mb_reward_visits := reward_visits;
        mb_reward_received := reward_received;
        mb_reward_function := reward_function |}.

(** [ModelBasedAgent.update(experience_tuple)] *)
Definition ModelBasedAgent_update (task : T) (experience : experience_tuple)
    (self : ModelBasedAgent) : result ModelBasedAgent :=
  let '(_, a, aa, r, (loc_prime, c)) := experience in
  let* self := ModelBasedAgent_updating_mapping c a aa self in
  let* sp := dict_getitem (state_location_key task) loc_prime in
  ModelBasedAgent_update_rewards c sp r self.

End ModelBased.

(** The arrays of the mapping have the shapes the constructor gives them,
    for [d0] contexts, [d1] primitive and [d2] abstract actions. *)
Definition mb_mapping_shapes (self : ModelBasedAgent) (d0 d1 d2 : nat) : Prop :=
  mb_n_primitive_actions self = Z.of_nat d1 ∧
  mb_n_abstract_actions self = Z.of_nat d2 ∧
  np_shape_is3 (mb_mapping_history self) d0 d1 (S d2) ∧
  np_shape_is2 (mb_abstract_action_counts self) d0 (S d2) ∧
  np_shape_is3 (mb_mapping_mle self) d0 d1 d2.

(** The counts are positive, [abstract_action_counts[c, aa]] is the sum of
    [mapping_history[c, :, aa]], and every [mapping_mle[c, :, aa]] is a
    distribution. *)
Definition mb_mapping_consistent (self : ModelBasedAgent) (d0 d1 d2 : nat) : Prop :=
  mb_mapping_shapes self d0 d1 d2 ∧ (0 < d1)%nat ∧
  (∀ c a k, (c < d0)%nat → (a < d1)%nat → (k < S d2)%nat →
     (0 < np_at3 (mb_mapping_history self) c a k)%R) ∧
  (∀ c k, (c < d0)%nat → (k < S d2)%nat →
     np_at2 (mb_abstract_action_counts self) c k
     = sum_over d1 (λ a, np_at3 (mb_mapping_history self) c a k)) ∧
  (∀ c k, (c < d0)%nat → (k < d2)%nat →
     (∀ a, (a < d1)%nat → (0 < np_at3 (mb_mapping_mle self) c a k)%R) ∧
     sum_over d1 (λ a, np_at3 (mb_mapping_mle self) c a k) = 1%R).

(** The three reward arrays have one row per context and one entry per
    state. *)
Definition mb_reward_shapes (self : ModelBasedAgent) (d0 ds : nat) : Prop :=
  np_shape_is2 (mb_reward_visits self) d0 ds ∧
  np_shape_is2 (mb_reward_received self) d0 ds ∧
  np_shape_is2 (mb_reward_function self) d0 ds.

(** The position an index denotes in a dimension of size [len], if any. *)
Definition index_of (len : nat) (i : Z) : option nat :=
  match py_index len i with
  | Ok j => Some j
  | Raise _ => None
  end.

(** The experience ends in the context at row [ci] and the state at column
    [si] of the reward arrays. *)
Definition ends_at `{Task T} (task : T) (d0 ds ci si : nat) (e : experience_tuple)
    : Prop :=
  index_of d0 e.2.2 = Some ci ∧
  state_location_key task !! e.2.1 ≫= index_of ds = Some si.

#[global] Instance ends_at_dec `{Task T} (task : T) d0 ds ci si e :
  Decision (ends_at task d0 ds ci si e) := ltac:(unfold ends_at; apply _).

(** The reward of an experience. *)
Definition reward_of (e : experience_tuple) : R := e.1.2.

(** [m[:, j] += v] on an array whose rows have [d1] entries. *)
Definition np_add_column (m : list (list R)) (d1 : nat) (j : Z) (v : R)
    : result (list (list R)) :=
  let* j := py_index d1 j in Ok (alter (λ x, (x + v)%R) j <$> m).

(** [ModelBasedAgent.set_reward_prior(list_locations)] *)
Definition ModelBasedAgent_set_reward_prior `{Task T} (task : T)
    (list_locations : list location) (self : ModelBasedAgent) : result ModelBasedAgent :=
  let* reward_visits := np_ones2 (n_ctx task) (mb_n_states self) (1 / 10000) in
  let* reward_received := np_ones2 (n_ctx task) (mb_n_states self) (1 / 100000) in
  let* (reward_received, reward_visits) :=
    for_in list_locations (λ loc arrays,
      let* s := dict_getitem (state_location_key task) loc in
      let* reward_received :=
        np_add_column arrays.1 (Z.to_nat (mb_n_states self)) s (1 / 1000) in
      let* reward_visits :=
        np_add_column arrays.2 (Z.to_nat (mb_n_states self)) s (1 / 1000) in
      Ok (reward_received, reward_visits)) (reward_received, reward_visits) in
  let* reward_function :=
    for_in (py_range 0 (mb_n_states self)) (λ s reward_function,
      for_in (py_range 0 (n_ctx task)) (λ c reward_function,
        let* x := np_getitem2 reward_received c s in
        let* v := np_getitem2 reward_visits c s in
        np_setitem2 reward_function c s (x / v)%R) reward_function)
      (mb_reward_function self) in
  Ok {| mb_n_states := mb_n_states self;
        mb_n_primitive_actions := mb_n_primitive_actions self;
        mb_n_abstract_actions := mb_n_abstract_actions self;
        mb_mapping_history := mb_mapping_history self;
        mb_abstract_action_counts := mb_abstract_action_counts self;
        mb_mapping_mle := mb_mapping_mle self;
        mb_reward_visits := reward_visits;
        mb_reward_received := reward_received;
        mb_reward_function := reward_function |}.

(** The location is listed for the state at column [si]. *)
Definition listed_for `{Task T} (task : T) (ds si : nat) (loc : location) : Prop :=
  state_location_key task !! loc ≫= index_of ds = Some si.

#[global] Instance listed_for_dec `{Task T} (task : T) ds si loc :
  Decision (listed_for task ds si loc) := ltac:(unfold listed_for; apply _).

(** An agent of one context, one state, two primitive and two abstract
    actions, for the examples. *)
Definition small_agent : ModelBasedAgent :=
  {| mb_n_states := 1;
     mb_n_primitive_actions := 2;
     mb_n_abstract_actions := 2;
     mb_mapping_history := replicate 1 (replicate 2 (replicate 3 (1 / 100)%R));
     mb_abstract_action_counts := replicate 1 (replicate 3 (2 / 100)%R);
     mb_mapping_mle := replicate 1 (replicate 2 (replicate 2 (1 / 2)%R));
     mb_reward_visits := replicate 1 (replicate 1 (1 / 10000)%R);
     mb_reward_received := replicate 1 (replicate 1 (1 / 1000)%R);
     mb_reward_function := replicate 1 (replicate 1 (10 / 101)%R) |}.

(** A task of one trial, one context and one location, for the examples. *)
Definition single_state_task : scripted_task :=
  {| st_n_trials := 1; st_n_ctx := 1; st_key := {[ (0, 0) := 0 ]}; st_script := [] |}.

(** * Properties *)

(** ** The definitions on small inputs *)

Example enumerate_3 :
  enumerate_assignments 3 =
  Ok [ {[0 := 0; 1 := 0; 2 := 0]}; {[0 := 0; 1 := 0; 2 := 1]};
       {[0 := 0; 1 := 1; 2 := 0]}; {[0 := 0; 1 := 1; 2 := 1]};
       {[0 := 0; 1 := 1; 2 := 2]} ].
Proof. vm_compute. reflexivity. Qed.

Example Bell_values : Bell <$> seq 0 8 = [1; 1; 2; 5; 15; 52; 203; 877]%nat.
Proof. reflexivity. Qed.

(** ** The largest cluster index of an assignment *)

Lemma foldl_Zmax_le x xs : x ≤ foldl Z.max x xs.
Proof.
  revert x; induction xs as [|y ys IH]; intros x; simpl; [lia|].
  specialize (IH (Z.max x y)). lia.
Qed.

Lemma foldl_Zmax_upper x xs y : y ∈ xs → y ≤ foldl Z.max x xs.
Proof.
  revert x; induction xs as [|z zs IH]; intros x Hy; simpl.
  - by apply elem_of_nil in Hy.
  - apply elem_of_cons in Hy as [->|Hy].
    + pose proof (foldl_Zmax_le (Z.max x z) zs). lia.
    + by apply IH.
Qed.

Lemma foldl_Zmax_attained x xs : foldl Z.max x xs ∈ x :: xs.
Proof.
  revert x; induction xs as [|z zs IH]; intros x; simpl.
  - apply list_elem_of_here.
  - specialize (IH (Z.max x z)). apply elem_of_cons in IH as [IH|IH].
    + rewrite IH. destruct (Z.max_spec x z) as [[_ ->]|[_ ->]].
      * apply list_elem_of_further, list_elem_of_here.
      * apply list_elem_of_here.
    + by apply list_elem_of_further, list_elem_of_further.
Qed.

Lemma elem_of_values (a : assignment) k : k ∈ values a ↔ ∃ i, a !! i = Some k.
Proof.
  unfold values. rewrite list_elem_of_fmap. split.
  - intros [[i k'] [-> Hin]]. exists i. by apply elem_of_map_to_list in Hin.
  - intros [i Hi]. exists (i, k). split; [done|]. by apply elem_of_map_to_list.
Qed.

Lemma values_nil (a : assignment) : values a = [] ↔ a = ∅.
Proof.
  unfold values. rewrite <- map_to_list_empty_iff. split.
  - apply fmap_nil_inv.
  - by intros ->.
Qed.

Lemma is_max_cluster_unique a m1 m2 :
  is_max_cluster a m1 → is_max_cluster a m2 → m1 = m2.
Proof.
  intros [U1 [i1 A1]] [U2 [i2 A2]].
  apply U2 in A1. apply U1 in A2. lia.
Qed.

Lemma py_max_values_Ok (a : assignment) m :
  py_max (values a) = Ok m ↔ is_max_cluster a m.
Proof.
  unfold py_max. destruct (values a) as [|x xs] eqn:E; split.
  - discriminate.
  - intros [_ [i Hi]]. apply values_nil in E. subst a.
    by rewrite lookup_empty in Hi.
  - intros [= <-]. split.
    + intros i k Hk. assert (k ∈ x :: xs) as Hin by (rewrite <- E; apply elem_of_values; eauto).
      apply elem_of_cons in Hin as [->|Hin].
      * apply foldl_Zmax_le.
      * by apply foldl_Zmax_upper.
    + apply elem_of_values. rewrite E. apply foldl_Zmax_attained.
  - intros Hm. f_equal. eapply is_max_cluster_unique; [|exact Hm].
    split.
    + intros i k Hk. assert (k ∈ x :: xs) as Hin by (rewrite <- E; apply elem_of_values; eauto).
      apply elem_of_cons in Hin as [->|Hin].
      * apply foldl_Zmax_le.
      * by apply foldl_Zmax_upper.
    + apply elem_of_values. rewrite E. apply foldl_Zmax_attained.
Qed.

Lemma py_max_values_empty : py_max (values ∅) = Raise ValueError.
Proof. reflexivity. Qed.

Lemma py_max_values_nonempty (a : assignment) :
  a ≠ ∅ → ∃ m, py_max (values a) = Ok m.
Proof.
  intros Hne. unfold py_max. destruct (values a) eqn:E; [|eauto].
  by apply values_nil in E.
Qed.

Lemma py_max_values_raise (a : assignment) e :
  py_max (values a) = Raise e → a = ∅.
Proof.
  unfold py_max. destruct (values a) eqn:E; [|discriminate].
  intros _. by apply values_nil.
Qed.

Lemma n_clusters_empty : n_clusters ∅ = 0.
Proof. reflexivity. Qed.

Lemma n_clusters_max a m : is_max_cluster a m → n_clusters a = m + 1.
Proof. intros Hm. apply py_max_values_Ok in Hm. unfold n_clusters. by rewrite Hm. Qed.

(** Adding a fresh context in cluster [k ≥ 0] raises the cluster count to
    [k + 1] when that is larger. *)
Lemma n_clusters_insert (a : assignment) c k :
  a !! c = None → 0 ≤ k → 0 ≤ n_clusters a →
  n_clusters (<[c := k]> a) = Z.max (n_clusters a) (k + 1).
Proof.
  intros Hc Hk Hn.
  destruct (decide (a = ∅)) as [->|Hne].
  - rewrite n_clusters_empty. rewrite (n_clusters_max _ k); [lia|].
    split.
    + intros i k' Hi. apply lookup_insert_Some in Hi as [[_ <-]|[_ Hi]]; [lia|].
      by rewrite lookup_empty in Hi.
    + exists c. apply lookup_insert_eq.
  - destruct (py_max_values_nonempty a Hne) as [m Hm].
    apply py_max_values_Ok in Hm. rewrite (n_clusters_max _ _ Hm).
    rewrite (n_clusters_max _ (Z.max m k)); [lia|].
    destruct Hm as [U [i Hi]]. split.
    + intros i' k' Hi'. apply lookup_insert_Some in Hi' as [[_ <-]|[_ Hi']]; [lia|].
      apply U in Hi'. lia.
    + destruct (Z.max_spec m k) as [[_ ->]|[_ ->]].
      * exists c. apply lookup_insert_eq.
      * exists i. rewrite lookup_insert_ne; [done|]. intros ->. congruence.
Qed.

(** ** One step of the enumerator *)

Lemma augment_assignments_nil c : augment_assignments [] c = Raise IndexError.
Proof. reflexivity. Qed.

Lemma py_getitem_0_cons {A} (x : A) xs : py_getitem (x :: xs) 0 = Ok x.
Proof.
  unfold py_getitem, py_index. simpl length.
  case_decide; [reflexivity|lia].
Qed.

Lemma augment_assignments_cons a rest c :
  augment_assignments (a :: rest) c =
  if decide (a = ∅) then Ok [ {[ c := 0 ]} ] else augment_loop (a :: rest) c.
Proof.
  unfold augment_assignments. rewrite py_getitem_0_cons. cbn [bind].
  rewrite bool_decide_eq_false_2 by (simpl; lia). cbn [orb].
  destruct (decide (a = ∅)) as [->|Hne].
  - by rewrite bool_decide_eq_true_2 by apply map_size_empty.
  - rewrite bool_decide_eq_false_2; [done|]. by rewrite map_size_empty_iff.
Qed.

Lemma augment_one_nonempty a c :
  a ≠ ∅ → augment_one a c = Ok (extend c a).
Proof.
  intros Hne. unfold augment_one, extend, n_clusters, py_range.
  destruct (py_max_values_nonempty a Hne) as [m ->]. cbn [bind].
  do 3 f_equal. lia.
Qed.

Lemma extend_empty c : extend c ∅ = [ {[ c := 0 ]} ].
Proof. reflexivity. Qed.

Lemma augment_loop_nonempty l c :
  Forall (λ a, a ≠ ∅) l → augment_loop l c = Ok (l ≫= extend c).
Proof.
  induction 1 as [|a l Ha _ IH]; [reflexivity|].
  cbn [augment_loop]. rewrite augment_one_nonempty by done. cbn [bind].
  rewrite IH. reflexivity.
Qed.

(** On the singleton list of the empty assignment, and on a list of
    non-empty assignments, the step returns the children of every
    assignment, in order. *)
Lemma augment_assignments_extend l c :
  l = [∅] ∨ (l ≠ [] ∧ Forall (λ a, a ≠ ∅) l) →
  augment_assignments l c = Ok (l ≫= extend c).
Proof.
  intros [->|[Hl Hne]].
  - reflexivity.
  - destruct l as [|a rest]; [done|]. rewrite augment_assignments_cons.
    rewrite decide_False by (by inversion Hne).
    by apply augment_loop_nonempty.
Qed.

Lemma extend_length c a : 0 ≤ n_clusters a → Z.of_nat (length (extend c a)) = n_clusters a + 1.
Proof. intros Hn. unfold extend. rewrite length_fmap, length_seqZ. lia. Qed.

Lemma extend_lookup c a (j : nat) child :
  extend c a !! j = Some child ↔
  child = <[c := Z.of_nat j]> a ∧ Z.of_nat j < n_clusters a + 1.
Proof.
  unfold extend. rewrite list_lookup_fmap, fmap_Some. split.
  - intros [k [Hk ->]]. apply lookup_seqZ in Hk as [-> Hlt]. by rewrite Z.add_0_l.
  - intros [-> Hlt]. exists (Z.of_nat j). split; [|done].
    apply lookup_seqZ. lia.
Qed.

Lemma elem_of_extend c a child :
  child ∈ extend c a ↔ ∃ k, child = <[c := k]> a ∧ 0 ≤ k ≤ n_clusters a.
Proof.
  unfold extend. rewrite list_elem_of_fmap. split.
  - intros [k [-> Hk]]. exists k. split; [done|]. apply elem_of_seqZ in Hk. lia.
  - intros [k [-> Hk]]. exists k. split; [done|]. apply elem_of_seqZ. lia.
Qed.

(** ** Canonical assignments *)

Lemma canonical_0 a : canonical 0 a ↔ a = ∅.
Proof.
  split.
  - intros [Hdom _]. apply map_eq. intros i. rewrite lookup_empty.
    apply eq_None_not_Some. rewrite Hdom. lia.
  - intros ->. split.
    + intros i. rewrite lookup_empty. split; [by intros [? ?]|lia].
    + intros i k. by rewrite lookup_empty.
Qed.

Lemma canonical_nonempty n a : canonical (S n) a → a ≠ ∅.
Proof.
  intros [Hdom _] ->. destruct (proj2 (Hdom 0)) as [k Hk]; [lia|].
  by rewrite lookup_empty in Hk.
Qed.

Lemma canonical_context_0 n a : canonical (S n) a → a !! 0 = Some 0.
Proof.
  intros [Hdom Hgrow]. destruct (proj2 (Hdom 0)) as [k Hk]; [lia|].
  destruct (Hgrow 0 k Hk) as [Hk0 Hprev].
  destruct (decide (k = 0)) as [->|Hne]; [done|].
  destruct Hprev as [j [Hj Hjk]]; [lia|].
  assert (is_Some (a !! j)) as Hs by eauto. apply Hdom in Hs. lia.
Qed.

Lemma n_clusters_nonneg n a : canonical n a → 0 ≤ n_clusters a.
Proof.
  intros [_ Hgrow]. unfold n_clusters.
  destruct (py_max (values a)) as [m|] eqn:E; [|lia].
  apply py_max_values_Ok in E as [_ [i Hi]]. apply Hgrow in Hi. lia.
Qed.

(** The cluster indices a canonical assignment uses are exactly
    [0 .. n_clusters a - 1]. *)
Lemma canonical_clusters n a k :
  canonical n a → (∃ i, a !! i = Some k) ↔ 0 ≤ k < n_clusters a.
Proof.
  intros Hc. pose proof Hc as [Hdom Hgrow]. split.
  - intros [i Hi]. destruct (Hgrow i k Hi) as [Hk _]. split; [done|].
    assert (a ≠ ∅) as Hne by (intros ->; by rewrite lookup_empty in Hi).
    destruct (py_max_values_nonempty a Hne) as [m Hm].
    apply py_max_values_Ok in Hm. rewrite (n_clusters_max _ _ Hm).
    destruct Hm as [U _]. apply U in Hi. lia.
  - intros [Hk0 Hk]. unfold n_clusters in Hk.
    destruct (py_max (values a)) as [m|] eqn:E; [|lia].
    apply py_max_values_Ok in E as [_ Hm].
    assert (∀ d : nat, 0 ≤ m - Z.of_nat d → ∃ i, a !! i = Some (m - Z.of_nat d)) as Hdown.
    { induction d as [|d IH]; intros Hd.
      - rewrite Z.sub_0_r. exact Hm.
      - destruct IH as [i Hi]; [lia|].
        destruct (Hgrow i _ Hi) as [_ Hprev].
        destruct Hprev as [j [_ Hj]]; [lia|]. exists j. rewrite Hj. f_equal. lia. }
    destruct (Hdown (Z.to_nat (m - k))) as [i Hi]; [lia|].
    exists i. rewrite Hi. f_equal. lia.
Qed.

Lemma canonical_contiguous n a : canonical n a → contiguous_from_0 a.
Proof. intros Hc. exists (n_clusters a). intros k. by apply (canonical_clusters n). Qed.

Lemma canonical_distinct_clusters n a :
  canonical n a → Z.of_nat (distinct_clusters a) = n_clusters a.
Proof.
  intros Hc. unfold distinct_clusters.
  assert ((list_to_set (values a) : gset Z) = list_to_set (seqZ 0 (n_clusters a))) as ->.
  { apply set_eq. intros k. rewrite !elem_of_list_to_set, elem_of_values, elem_of_seqZ.
    rewrite (canonical_clusters n a k Hc). lia. }
  rewrite size_list_to_set by apply NoDup_seqZ. rewrite length_seqZ.
  pose proof (n_clusters_nonneg n a Hc). lia.
Qed.

(** A canonical assignment grows into a canonical one by putting the next
    context into an existing cluster or into the next new one. *)
Lemma canonical_insert n a k :
  canonical n a → 0 ≤ k ≤ n_clusters a →
  canonical (S n) (<[Z.of_nat n := k]> a).
Proof.
  intros Hc Hk. pose proof Hc as [Hdom Hgrow].
  assert (a !! Z.of_nat n = None) as Hfresh.
  { apply eq_None_not_Some. rewrite Hdom. lia. }
  split.
  - intros i. rewrite lookup_insert_is_Some, Hdom. split.
    + intros [<-|[_ Hi]]; lia.
    + intros Hi. destruct (decide (Z.of_nat n = i)); [by left|right; split; [done|lia]].
  - intros i k' Hi. apply lookup_insert_Some in Hi as [[<- <-]|[Hne Hi]].
    + split; [lia|]. intros Hpos.
      destruct (proj2 (canonical_clusters n a (k - 1) Hc)) as [j Hj]; [lia|].
      exists j. assert (is_Some (a !! j)) as Hs by eauto. apply Hdom in Hs.
      split; [lia|]. rewrite lookup_insert_ne; [done|lia].
    + destruct (Hgrow i k' Hi) as [Hk' Hprev]. split; [done|].
      intros Hpos. destruct (Hprev Hpos) as [j [Hj Hjk]]. exists j. split; [done|].
      rewrite lookup_insert_ne; [done|].
      assert (is_Some (a !! j)) as Hs by eauto. apply Hdom in Hs. lia.
Qed.

(** Conversely, every canonical assignment of [n + 1] contexts arises in
    this way from its restriction to the first [n] contexts. *)
Lemma canonical_delete n b :
  canonical (S n) b →
  ∃ k, b !! Z.of_nat n = Some k ∧ canonical n (delete (Z.of_nat n) b) ∧
       0 ≤ k ≤ n_clusters (delete (Z.of_nat n) b).
Proof.
  intros Hc. pose proof Hc as [Hdom Hgrow].
  destruct (proj2 (Hdom (Z.of_nat n))) as [k Hk]; [lia|]. exists k.
  assert (canonical n (delete (Z.of_nat n) b)) as Hc'.
  { split.
    - intros i. rewrite lookup_delete_is_Some, Hdom. lia.
    - intros i k' Hi. apply lookup_delete_Some in Hi as [Hne Hi].
      destruct (Hgrow i k' Hi) as [Hk' Hprev]. split; [done|].
      intros Hpos. destruct (Hprev Hpos) as [j [Hj Hjk]]. exists j. split; [done|].
      rewrite lookup_delete_ne; [done|].
      assert (is_Some (b !! i)) as Hs by eauto. apply Hdom in Hs. lia. }
  split; [done|]. split; [done|].
  destruct (Hgrow _ _ Hk) as [Hk0 Hprev]. split; [done|].
  destruct (decide (k = 0)) as [->|Hne]; [by eapply n_clusters_nonneg|].
  destruct Hprev as [j [Hj Hjk]]; [lia|].
  assert (delete (Z.of_nat n) b !! j = Some (k - 1)) as Hj'.
  { rewrite lookup_delete_ne; [done|lia]. }
  assert (∃ i, delete (Z.of_nat n) b !! i = Some (k - 1)) as Hex by eauto.
  apply (canonical_clusters n _ _ Hc') in Hex. lia.
Qed.

(** ** Full enumeration *)

Lemma enumerate_loop_snoc cs c l :
  enumerate_loop (cs ++ [c]) l =
  let* r := enumerate_loop cs l in augment_assignments r c.
Proof.
  revert l; induction cs as [|c' cs IH]; intros l; simpl.
  - by destruct (augment_assignments l c).
  - destruct (augment_assignments l c'); simpl; [apply IH|done].
Qed.

Lemma all_extensions_canonical n : Forall (canonical n) (all_extensions n).
Proof.
  induction n as [|n IH]; simpl.
  - constructor; [by apply canonical_0|constructor].
  - apply list.Forall_forall. intros b Hb. apply list_elem_of_bind in Hb as [a [Hb Ha]].
    rewrite list.Forall_forall in IH. apply elem_of_extend in Hb as [k [-> Hk]].
    apply canonical_insert; auto.
Qed.

Lemma all_extensions_nonempty n : all_extensions n ≠ [].
Proof.
  induction n as [|n IH]; simpl; [done|].
  destruct (all_extensions n) as [|a l] eqn:E; [done|].
  rewrite bind_cons. intros Happ. apply app_eq_nil in Happ as [Hext _].
  pose proof (all_extensions_canonical n) as Hc. rewrite E in Hc.
  apply list.Forall_cons in Hc as [Hc _].
  pose proof (extend_length (Z.of_nat n) a (n_clusters_nonneg _ _ Hc)) as Hlen.
  rewrite Hext in Hlen. simpl in Hlen. pose proof (n_clusters_nonneg _ _ Hc). lia.
Qed.

(** The enumerator returns, for [n] contexts, the list [all_extensions n]. *)
Lemma enumerate_assignments_all_extensions (n : nat) :
  enumerate_assignments (Z.of_nat n) = Ok (all_extensions n).
Proof.
  unfold enumerate_assignments, py_range. rewrite Z.sub_0_r.
  induction n as [|n IH]; [reflexivity|].
  rewrite seqZ_S, enumerate_loop_snoc, IH. cbn [bind]. rewrite Z.add_0_l.
  apply augment_assignments_extend.
  destruct n as [|n]; [by left|right]. split; [apply all_extensions_nonempty|].
  eapply list.Forall_impl; [apply all_extensions_canonical|].
  intros a Ha. by eapply canonical_nonempty.
Qed.

Lemma all_extensions_complete n a : canonical n a → a ∈ all_extensions n.
Proof.
  revert a; induction n as [|n IH]; intros a Hc.
  - apply canonical_0 in Hc as ->. simpl. apply list_elem_of_here.
  - destruct (canonical_delete n a Hc) as [k [Hk [Hc' Hrange]]].
    simpl. apply list_elem_of_bind. exists (delete (Z.of_nat n) a). split; [|by apply IH].
    apply elem_of_extend. exists k. split; [|done].
    rewrite insert_delete_eq. symmetry. by apply insert_id.
Qed.

Lemma extend_NoDup c a : NoDup (extend c a).
Proof.
  unfold extend. apply NoDup_fmap_2_strong; [|apply NoDup_seqZ].
  intros k1 k2 _ _ Heq.
  assert (<[c:=k1]> a !! c = <[c:=k2]> a !! c) as Hl by (by rewrite Heq).
  rewrite !lookup_insert_eq in Hl. congruence.
Qed.

Lemma all_extensions_NoDup n : NoDup (all_extensions n).
Proof.
  induction n as [|n IH]; simpl.
  - apply NoDup_singleton.
  - apply NoDup_bind; [|intros; apply extend_NoDup|done].
    intros a1 a2 b Ha1 Ha2 Hb1 Hb2.
    pose proof (all_extensions_canonical n) as Hc. rewrite list.Forall_forall in Hc.
    apply elem_of_extend in Hb1 as [k1 [-> _]]. apply elem_of_extend in Hb2 as [k2 [Heq _]].
    assert (∀ a, canonical n a → a !! Z.of_nat n = None) as Hfresh.
    { intros a [Hdom _]. apply eq_None_not_Some. rewrite Hdom. lia. }
    assert (delete (Z.of_nat n) (<[Z.of_nat n:=k1]> a1)
            = delete (Z.of_nat n) (<[Z.of_nat n:=k2]> a2)) as Hd by (by rewrite Heq).
    rewrite !delete_insert_eq in Hd.
    rewrite !delete_id in Hd by auto. done.
Qed.

(** ** Counting the enumerated assignments *)

Local Open Scope nat_scope.

Lemma sum_list_seq_S (f : nat → nat) K :
  sum_list (f <$> seq 0 (S K)) = sum_list (f <$> seq 0 K) + f K.
Proof. rewrite seq_S, fmap_app, sum_list_with_app. simpl. lia. Qed.

Lemma sum_list_seq_add (f g : nat → nat) K :
  sum_list ((λ k, f k + g k) <$> seq 0 K)
  = sum_list (f <$> seq 0 K) + sum_list (g <$> seq 0 K).
Proof. induction K as [|K IH]; [done|]. rewrite !sum_list_seq_S, IH. lia. Qed.

Lemma sum_list_seq_indicator (z : Z) K :
  sum_list ((λ k, if decide (z = Z.of_nat k) then 1 else 0) <$> seq 0 K)
  = if decide (0 ≤ z < Z.of_nat K)%Z then 1 else 0.
Proof.
  induction K as [|K IH]; [simpl; case_decide; [lia|done]|].
  rewrite sum_list_seq_S, IH. repeat case_decide; lia.
Qed.

Lemma count_clusters_cons k a l :
  count_clusters k (a :: l)
  = (if decide (n_clusters a = Z.of_nat k) then 1 else 0) + count_clusters k l.
Proof.
  unfold count_clusters. rewrite list.filter_cons. by case_decide.
Qed.

Lemma count_clusters_app k l1 l2 :
  count_clusters k (l1 ++ l2) = count_clusters k l1 + count_clusters k l2.
Proof. unfold count_clusters. by rewrite list.filter_app, length_app. Qed.

(** The length of a list is the sum of its cluster counts. *)
Lemma length_count_clusters K l :
  Forall (λ a, (0 ≤ n_clusters a < Z.of_nat K)%Z) l →
  length l = sum_list ((λ k, count_clusters k l) <$> seq 0 K).
Proof.
  induction 1 as [|a l Ha _ IH].
  - symmetry. rewrite (sum_list_fmap_same 0); [simpl; lia|].
    apply list.Forall_forall. by intros.
  - erewrite (list_fmap_ext (λ k, count_clusters k (a :: l))).
    2:{ intros i k _. apply count_clusters_cons. }
    rewrite sum_list_seq_add, sum_list_seq_indicator, <- IH.
    rewrite decide_True by done. done.
Qed.

(** The children that put the new context into an existing cluster keep the
    cluster count. *)
Lemma count_clusters_existing a c k (d : nat) :
  a !! c = None → (Z.of_nat d ≤ n_clusters a)%Z →
  count_clusters k ((λ j, <[c := j]> a) <$> seqZ 0 (Z.of_nat d))
  = if decide (n_clusters a = Z.of_nat k) then d else 0.
Proof.
  intros Hc. induction d as [|d IH]; intros Hd.
  - simpl. by case_decide.
  - rewrite seqZ_S, fmap_app, count_clusters_app, IH by lia.
    simpl. rewrite count_clusters_cons.
    rewrite n_clusters_insert by (done || lia).
    replace (Z.max (n_clusters a) (0 + Z.of_nat d + 1)) with (n_clusters a) by lia.
    unfold count_clusters. simpl. repeat case_decide; lia.
Qed.

Lemma count_clusters_extend n a k :
  canonical n a →
  count_clusters k (extend (Z.of_nat n) a)
  = (if decide (n_clusters a = Z.of_nat k) then k else 0)
    + (if decide (n_clusters a + 1 = Z.of_nat k)%Z then 1 else 0).
Proof.
  intros Hc. pose proof (n_clusters_nonneg n a Hc) as Hn.
  assert (a !! Z.of_nat n = None) as Hfresh.
  { destruct Hc as [Hdom _]. apply eq_None_not_Some. rewrite Hdom. lia. }
  unfold extend.
  replace (n_clusters a + 1)%Z with (Z.of_nat (S (Z.to_nat (n_clusters a)))) by lia.
  rewrite seqZ_S, fmap_app, count_clusters_app.
  rewrite count_clusters_existing by (done || lia).
  simpl. rewrite count_clusters_cons, n_clusters_insert by (done || lia).
  unfold count_clusters. simpl. repeat case_decide; lia.
Qed.

Lemma count_clusters_bind_extend n l :
  Forall (canonical n) l →
  count_clusters 0 (l ≫= extend (Z.of_nat n)) = 0 ∧
  ∀ k, count_clusters (S k) (l ≫= extend (Z.of_nat n))
       = S k * count_clusters (S k) l + count_clusters k l.
Proof.
  induction 1 as [|a l Ha _ [IH0 IH]].
  - split; [done|]. intros k. unfold count_clusters. simpl. lia.
  - pose proof (n_clusters_nonneg n a Ha) as Hn. split.
    + rewrite bind_cons, count_clusters_app, IH0, count_clusters_extend by done.
      repeat case_decide; lia.
    + intros k.
      rewrite bind_cons, count_clusters_app, IH, count_clusters_extend by done.
      rewrite !count_clusters_cons. repeat case_decide; lia.
Qed.

(** The enumerated assignments of [n] contexts with [k] clusters are counted
    by the Stirling numbers of the second kind. *)
Lemma count_clusters_all_extensions n k :
  count_clusters k (all_extensions n) = stirling2 n k.
Proof.
  revert k; induction n as [|n IH]; intros k.
  - destruct k; reflexivity.
  - destruct (count_clusters_bind_extend n (all_extensions n)
                (all_extensions_canonical n)) as [H0 HS].
    simpl all_extensions. destruct k as [|k].
    + by rewrite H0.
    + rewrite HS, !IH. reflexivity.
Qed.

Lemma canonical_n_clusters_le n a : canonical n a → (n_clusters a ≤ Z.of_nat n)%Z.
Proof.
  revert a; induction n as [|n IH]; intros a Hc.
  - apply canonical_0 in Hc as ->. by rewrite n_clusters_empty.
  - destruct (canonical_delete n a Hc) as [k [Hk [Hc' Hrange]]].
    specialize (IH _ Hc').
    rewrite <- (insert_id a (Z.of_nat n) k Hk), <- insert_delete_eq.
    rewrite n_clusters_insert; [lia|apply lookup_delete_eq|lia|lia].
Qed.

Lemma length_all_extensions n : length (all_extensions n) = Bell n.
Proof.
  unfold Bell. rewrite (length_count_clusters (S n)).
  - f_equal. apply list_fmap_ext. intros _ k _. apply count_clusters_all_extensions.
  - eapply list.Forall_impl; [apply all_extensions_canonical|].
    intros a Ha. simpl.
    pose proof (n_clusters_nonneg n a Ha). pose proof (canonical_n_clusters_le n a Ha). lia.
Qed.

Local Close Scope nat_scope.

(** An assignment is canonical exactly when the enumeration lists it, which
    decides the predicate. *)
Lemma canonical_all_extensions n a : canonical n a ↔ a ∈ all_extensions n.
Proof.
  split; [apply all_extensions_complete|].
  intros Ha. pose proof (all_extensions_canonical n) as Hc.
  rewrite list.Forall_forall in Hc. by apply Hc.
Qed.

#[global] Instance canonical_dec n a : Decision (canonical n a).
Proof.
  refine (cast_if (decide (a ∈ all_extensions n))); by rewrite canonical_all_extensions.
Defined.

(** On a single assignment the step never raises. *)
Lemma augment_assignments_single a c : augment_assignments [a] c = Ok (extend c a).
Proof.
  rewrite (augment_assignments_extend [a] c).
  - simpl. by rewrite app_nil_r.
  - destruct (decide (a = ∅)) as [->|Hne]; [by left|right].
    split; [done|]. by constructor.
Qed.

(** ** The enumerator: the claims *)

(** C7. For every N ≥ 0, [enumerate_assignments N] returns Bell(N) many
    assignments; each is a canonical assignment of the contexts
    [0 .. N-1], maps context 0 to cluster 0 (for N = 0 the only assignment
    returned is the empty one, which has no context 0) and uses a range of
    cluster indices that starts at 0. For N = 0 and N = 1 the result is the
    single trivial assignment. *)
Theorem enumerate_assignments_Bell (N : nat) :
  enumerate_assignments 0 = Ok [∅] ∧
  enumerate_assignments 1 = Ok [ {[ 0 := 0 ]} ] ∧
  ∃ l, enumerate_assignments (Z.of_nat N) = Ok l ∧
       length l = Bell N ∧
       Forall (λ a, canonical N a ∧ contiguous_from_0 a ∧
                    match N with O => a = ∅ | S _ => a !! 0 = Some 0 end) l.
Proof.
  split; [reflexivity|]. split; [reflexivity|].
  exists (all_extensions N). split; [apply enumerate_assignments_all_extensions|].
  split; [apply length_all_extensions|].
  eapply list.Forall_impl; [apply all_extensions_canonical|].
  intros a Ha. split; [done|]. split; [by eapply canonical_contiguous|].
  destruct N; [by apply canonical_0|by eapply canonical_context_0].
Qed.

(** C6. For a canonical parent assignment of [k] contexts that uses [m]
    distinct clusters and a context [c] it does not assign yet,
    [augment_assignments([parent], c)] returns exactly [m + 1] children. The
    [j]-th child is the parent with [c] put in cluster [j]: it strictly
    extends the parent, agrees with it on the [k] original contexts, and [j]
    is a cluster of the parent for [j < m] and a new cluster for [j = m]. *)
Theorem augment_assignments_children (k : nat) (a : assignment) (c : Z) :
  canonical k a → a !! c = None →
  ∃ children, augment_assignments [a] c = Ok children ∧
    length children = S (distinct_clusters a) ∧
    ∀ (j : nat) child, children !! j = Some child →
      child = <[c := Z.of_nat j]> a ∧ a ⊂ child ∧
      (∀ i, 0 ≤ i < Z.of_nat k → child !! i = a !! i) ∧
      ((j < distinct_clusters a)%nat → ∃ i, a !! i = Some (Z.of_nat j)) ∧
      (j = distinct_clusters a → ∀ i, a !! i ≠ Some (Z.of_nat j)).
Proof.
  intros Hc Hfresh. exists (extend c a).
  pose proof (n_clusters_nonneg k a Hc) as Hn.
  pose proof (canonical_distinct_clusters k a Hc) as Hm.
  split.
  { apply augment_assignments_single. }
  split.
  { pose proof (extend_length c a Hn). lia. }
  intros j child Hj. apply extend_lookup in Hj as [-> Hj].
  split; [done|]. split; [by apply insert_subset|]. split.
  { intros i Hi. apply lookup_insert_ne. intros ->.
    destruct Hc as [Hdom _]. apply Hdom in Hi. rewrite Hfresh in Hi. by destruct Hi. }
  split.
  - intros Hlt. apply (canonical_clusters k a _ Hc). lia.
  - intros -> i Hi.
    assert (∃ i, a !! i = Some (Z.of_nat (distinct_clusters a))) as Hex by eauto.
    apply (canonical_clusters k a _ Hc) in Hex. lia.
Qed.

Lemma augment_assignments_children_witness :
  ∃ children, augment_assignments [ {[0 := 0; 1 := 1]} ] 2 = Ok children ∧
    length children = 3%nat.
Proof.
  destruct (augment_assignments_children 2 {[0 := 0; 1 := 1]} 2) as [children [H1 [H2 _]]].
  - by apply (bool_decide_unpack _).
  - reflexivity.
  - exists children. split; [exact H1|exact H2].
Defined.

(** C4, as the code has it. For an assignment that already contains the
    given context, [augment_assignments] does not fail: it returns the
    children it returns for any context, and in the [j]-th child the context
    is in cluster [j], whatever cluster it was in before; the other contexts
    are as in the parent. No check of the context is made. *)
Theorem augment_assignments_assigned_context (a : assignment) (c k0 : Z) :
  a !! c = Some k0 →
  ∃ children, augment_assignments [a] c = Ok children ∧
    children = extend c a ∧
    ∀ (j : nat) child, children !! j = Some child →
      child !! c = Some (Z.of_nat j) ∧ ∀ i, i ≠ c → child !! i = a !! i.
Proof.
  intros Hc. exists (extend c a). split.
  { apply augment_assignments_single. }
  split; [done|].
  intros j child Hj. apply extend_lookup in Hj as [-> _]. split.
  - apply lookup_insert_eq.
  - intros i Hi. by apply lookup_insert_ne.
Qed.

Lemma augment_assignments_assigned_context_witness :
  ∃ children, augment_assignments [ {[0 := 0; 1 := 1]} ] 1 = Ok children ∧
    children = extend 1 {[0 := 0; 1 := 1]}.
Proof.
  destruct (augment_assignments_assigned_context {[0 := 0; 1 := 1]} 1 1) as [ch [H1 [H2 _]]].
  - reflexivity.
  - exists ch. split; [exact H1|exact H2].
Defined.

(** C4 as stated fails: context 1 is already assigned (to cluster 1), the
    call returns normally, and its first child has context 1 in cluster 0.
    Context 7, far outside the two contexts of the assignment, is accepted
    as well. *)
Lemma augment_assignments_overwrites :
  ({[0 := 0; 1 := 1]} : assignment) !! 1 = Some 1 ∧
  augment_assignments [ {[0 := 0; 1 := 1]} ] 1
  = Ok [ {[0 := 0; 1 := 0]}; {[0 := 0; 1 := 1]}; {[0 := 0; 1 := 2]} ] ∧
  augment_assignments [ {[0 := 0; 1 := 1]} ] 7
  = Ok [ {[0 := 0; 1 := 1; 7 := 0]}; {[0 := 0; 1 := 1; 7 := 1]};
         {[0 := 0; 1 := 1; 7 := 2]} ] ∧
  ¬ (∀ (a : assignment) c, is_Some (a !! c) → ∃ e, augment_assignments [a] c = Raise e).
Proof.
  split; [reflexivity|]. split; [by vm_compute|]. split; [by vm_compute|].
  intros Hfail. destruct (Hfail {[0 := 0; 1 := 1]} 1) as [e He]; [by eexists|].
  vm_compute in He. discriminate.
Qed.

Lemma augment_loop_cons_Ok a rest c r :
  augment_loop (a :: rest) c = Ok r →
  a ≠ ∅ ∧ ∃ others, r = extend c a ++ others.
Proof.
  cbn [augment_loop]. destruct (decide (a = ∅)) as [->|Hne].
  - discriminate.
  - rewrite augment_one_nonempty by done. cbn [bind].
    destruct (augment_loop rest c) as [others|]; [|discriminate].
    intros [= <-]. eauto.
Qed.

(** C10. On an empty list of assignments [augment_assignments] raises: the
    guard indexes [cluster_assignments[0]] before [|] combines its two
    operands. The one-element list with the singleton assignment is returned
    whenever the first assignment of the list is empty, whatever follows it;
    for assignments whose cluster indices are not negative it is returned
    in no other case. *)
Theorem augment_assignments_empty_list (c : Z) :
  augment_assignments [] c = Raise IndexError ∧
  (∀ rest, augment_assignments (∅ :: rest) c = Ok [ {[ c := 0 ]} ]) ∧
  ∀ l, Forall (λ a : assignment, ∀ i k, a !! i = Some k → 0 ≤ k) l →
       (augment_assignments l c = Ok [ {[ c := 0 ]} ] ↔ ∃ rest, l = ∅ :: rest).
Proof.
  assert (Hfirst : ∀ rest, augment_assignments (∅ :: rest) c = Ok [ {[ c := 0 ]} ]).
  { intros rest. by rewrite augment_assignments_cons, decide_True. }
  split; [reflexivity|]. split; [exact Hfirst|].
  intros l Hpos. split; [|by intros [rest ->]].
  intros Hret. destruct l as [|a rest]; [discriminate|].
  destruct (decide (a = ∅)) as [->|Hne]; [by eexists|exfalso].
  rewrite augment_assignments_cons, decide_False in Hret by done.
  apply augment_loop_cons_Ok in Hret as [_ [others Hret]].
  apply list.Forall_cons in Hpos as [Hpos _].
  destruct (py_max_values_nonempty a Hne) as [m Hm].
  apply py_max_values_Ok in Hm. pose proof (n_clusters_max _ _ Hm) as Hn.
  destruct Hm as [_ [i Hi]]. apply Hpos in Hi.
  assert (length (extend c a ++ others) = 1%nat) as Hlen by (by rewrite <- Hret).
  rewrite length_app in Hlen.
  pose proof (extend_length c a). lia.
Qed.

Lemma augment_assignments_empty_list_witness :
  augment_assignments [ ∅; {[ 0 := 0 ]} ] 5 = Ok [ {[ 5 := 0 ]} ].
Proof.
  destruct (augment_assignments_empty_list 5) as [_ [_ H]].
  apply (H [ ∅; {[ 0 := 0 ]} ]).
  - constructor; [|constructor; [|constructor]].
    + intros i k Hk. by rewrite lookup_empty in Hk.
    + intros i k Hk. apply lookup_singleton_Some in Hk as [_ <-]. lia.
  - by eexists.
Defined.

(** The singleton result is not reserved to the list that holds one empty
    assignment: a list that starts with the empty assignment and goes on
    gives it, and so does the single assignment [{5: -1}] for context 5,
    whose only child replaces the cluster of 5. *)
Lemma augment_assignments_singleton_not_only :
  augment_assignments [ ∅; {[ 0 := 0 ]} ] 5 = Ok [ {[ 5 := 0 ]} ] ∧
  augment_assignments [ {[ 5 := -1 ]} ] 5 = Ok [ {[ 5 := 0 ]} ] ∧
  ¬ (∀ (l : list assignment) c,
       augment_assignments l c = Ok [ {[ c := 0 ]} ] → l = [ ∅ ]).
Proof.
  split; [by vm_compute|]. split; [by vm_compute|].
  intros Honly. specialize (Honly [ ∅; {[ 0 := 0 ]} ] 5).
  assert ([ (∅ : assignment); {[ 0 := 0 ]} ] = [ ∅ ]) as Heq.
  { apply Honly. by vm_compute. }
  apply (f_equal length) in Heq. simpl in Heq. discriminate.
Qed.

(** ** Pruning *)

Local Open Scope R_scope.

Lemma foldl_Rmax_le x xs : x <= foldl Rmax x xs.
Proof.
  revert x; induction xs as [|y ys IH]; intros x; simpl; [lra|].
  specialize (IH (Rmax x y)). pose proof (Rmax_l x y). lra.
Qed.

Lemma foldl_Rmax_upper x xs y : y ∈ xs → y <= foldl Rmax x xs.
Proof.
  revert x; induction xs as [|z zs IH]; intros x Hy; simpl.
  - by apply elem_of_nil in Hy.
  - apply elem_of_cons in Hy as [->|Hy].
    + pose proof (foldl_Rmax_le (Rmax x z) zs). pose proof (Rmax_r x z). lra.
    + by apply IH.
Qed.

Lemma foldl_Rmax_attained x xs : foldl Rmax x xs ∈ x :: xs.
Proof.
  revert x; induction xs as [|z zs IH]; intros x; simpl.
  - apply list_elem_of_here.
  - specialize (IH (Rmax x z)). apply elem_of_cons in IH as [IH|IH].
    + rewrite IH. unfold Rmax. destruct (Rle_dec x z).
      * apply list_elem_of_further, list_elem_of_here.
      * apply list_elem_of_here.
    + by apply list_elem_of_further, list_elem_of_further.
Qed.

Lemma np_max_nonempty xs : xs ≠ [] → ∃ M, np_max xs = Ok M.
Proof. destruct xs; [done|]. intros _. by eexists. Qed.

Lemma np_max_Ok xs M :
  np_max xs = Ok M → (∀ x, x ∈ xs → x <= M) ∧ M ∈ xs.
Proof.
  destruct xs as [|x xs]; [discriminate|]. intros [= <-]. split.
  - intros y Hy. apply elem_of_cons in Hy as [->|Hy].
    + apply foldl_Rmax_le.
    + by apply foldl_Rmax_upper.
  - apply foldl_Rmax_attained.
Qed.

Lemma np_log_pos x : 0 < x → np_log x = Finite (ln x).
Proof. intros Hx. unfold np_log. by rewrite decide_True. Qed.

(** The test of the pruning loop, spelled out. *)
Lemma np_lt_np_log x threshold :
  np_lt x (np_log threshold) ↔ 0 < threshold ∧ x < ln threshold.
Proof.
  unfold np_log. repeat case_decide; simpl.
  - rewrite bool_decide_spec. tauto.
  - split; [done|]. intros [? _]; lra.
  - split; [done|]. intros [? _]; lra.
Qed.

Lemma py_getitem_nat {A} (xs : list A) (j : nat) x :
  xs !! j = Some x → py_getitem xs (Z.of_nat j) = Ok x.
Proof.
  intros Hx. pose proof (lookup_lt_Some _ _ _ Hx) as Hlt.
  unfold py_getitem, py_index. rewrite decide_True by lia. cbn [bind].
  by rewrite Nat2Z.id, Hx.
Qed.

(** When the hypotheses can be read at every index of the belief vector,
    the loop keeps exactly the rows that pass its test, in order. *)
Lemma prune_loop_retained {X} (fetch : nat → result X) M threshold ii log_belief xs :
  length xs = length log_belief →
  (∀ j x, xs !! j = Some x → fetch (ii + j)%nat = Ok x) →
  prune_loop fetch M (np_log threshold) ii log_belief
  = Ok (retained M threshold (zip log_belief xs)).
Proof.
  revert ii xs; induction log_belief as [|b bs IH]; intros ii xs Hlen Hfetch.
  - reflexivity.
  - destruct xs as [|x xs]; [discriminate|]. simpl in Hlen.
    cbn [prune_loop zip zip_with]. unfold retained. rewrite list.filter_cons. cbn [fst].
    specialize (IH (S ii) xs ltac:(lia)).
    rewrite IH.
    2:{ intros j y Hy. replace (S ii + j)%nat with (ii + S j)%nat by lia. by apply Hfetch. }
    destruct (np_lt (M - b) (np_log threshold)) eqn:E.
    + rewrite decide_True by done.
      pose proof (Hfetch 0%nat x eq_refl) as H0. rewrite Nat.add_0_r in H0.
      rewrite H0. reflexivity.
    + rewrite decide_False by (by intros []). reflexivity.
Qed.

Lemma retained_sublist {X} M threshold (rows : list (R * X)) :
  retained M threshold rows ⊆ rows.
Proof. intros row Hrow. unfold retained in Hrow. by apply list_elem_of_filter in Hrow as [_ ?]. Qed.

Lemma elem_of_retained {X} M threshold (rows : list (R * X)) row :
  row ∈ retained M threshold rows ↔
  (0 < threshold ∧ M - row.1 < ln threshold) ∧ row ∈ rows.
Proof. unfold retained. by rewrite list_elem_of_filter, np_lt_np_log. Qed.

Lemma lookup_zip_Some {A B} (l : list A) (k : list B) i a b :
  l !! i = Some a → k !! i = Some b → zip l k !! i = Some (a, b).
Proof.
  revert k i; induction l as [|x l IH]; intros k i Ha Hb; [done|].
  destruct k as [|y k]; [done|]. destruct i as [|i]; simpl in *.
  - congruence.
  - by apply IH.
Qed.

Lemma lookup_zip_inv {A B} (l : list A) (k : list B) i p :
  zip l k !! i = Some p → l !! i = Some p.1 ∧ k !! i = Some p.2.
Proof.
  revert k i; induction l as [|x l IH]; intros k i Hp; [done|].
  destruct k as [|y k]; [done|]. destruct i as [|i]; simpl in *.
  - by injection Hp as <-.
  - by apply IH.
Qed.

Section Pruning.
Context {RH MH : Type}.
Implicit Types (jc : JointClustering RH MH) (ic : IndependentClusterAgent RH MH).

(** What [prune_hypothesis_space] leaves in a joint population. *)
Lemma JointClustering_prune_retained threshold jc M :
  jc_aligned jc → np_max (jc_log_belief jc) = Ok M →
  JointClustering_prune_hypothesis_space threshold jc
  = Ok {| jc_reward_hypotheses := (λ x, x.2.1) <$> retained M threshold (jc_rows jc);
          jc_mapping_hypotheses := (λ x, x.2.2) <$> retained M threshold (jc_rows jc);
          jc_log_belief := (λ x, x.1) <$> retained M threshold (jc_rows jc) |}.
Proof.
  intros [Hr Hm] HM. unfold JointClustering_prune_hypothesis_space.
  rewrite HM. cbn [bind].
  erewrite (prune_loop_retained _ M threshold 0
              (jc_log_belief jc)
              (zip (jc_reward_hypotheses jc) (jc_mapping_hypotheses jc))).
  - reflexivity.
  - rewrite length_zip. lia.
  - intros j [h_r h_m] Hj. apply lookup_zip_inv in Hj as [Hjr Hjm]. simpl in *.
    by rewrite (py_getitem_nat _ _ _ Hjr), (py_getitem_nat _ _ _ Hjm).
Qed.

Lemma jc_rows_of_rows (rows : list (R * (RH * MH))) :
  jc_rows {| jc_reward_hypotheses := (λ x, x.2.1) <$> rows;
             jc_mapping_hypotheses := (λ x, x.2.2) <$> rows;
             jc_log_belief := (λ x, x.1) <$> rows |} = rows.
Proof.
  unfold jc_rows. simpl. induction rows as [|[b [h_r h_m]] rows IH]; [done|].
  csimpl. by rewrite IH.
Qed.

(** The same for the two populations of the independent agent. *)
Lemma IndependentClusterAgent_prune_retained threshold ic Mr Mm :
  ic_aligned ic →
  np_max (ic_log_belief_rew ic) = Ok Mr → np_max (ic_log_belief_map ic) = Ok Mm →
  IndependentClusterAgent_prune_hypothesis_space threshold ic
  = Ok {| ic_reward_hypotheses := snd <$> retained Mr threshold (ic_rows_rew ic);
          ic_mapping_hypotheses := snd <$> retained Mm threshold (ic_rows_map ic);
          ic_log_belief_rew := fst <$> retained Mr threshold (ic_rows_rew ic);
          ic_log_belief_map := fst <$> retained Mm threshold (ic_rows_map ic) |}.
Proof.
  intros [Hr Hm] HMr HMm. unfold IndependentClusterAgent_prune_hypothesis_space.
  rewrite HMr. cbn [bind].
  erewrite (prune_loop_retained _ Mr threshold 0 (ic_log_belief_rew ic)
              (ic_reward_hypotheses ic)).
  2: done.
  2:{ intros j x Hj. by apply py_getitem_nat. }
  cbn [bind]. rewrite HMm. cbn [bind].
  erewrite (prune_loop_retained _ Mm threshold 0 (ic_log_belief_map ic)
              (ic_mapping_hypotheses ic)).
  2: done.
  2:{ intros j x Hj. by apply py_getitem_nat. }
  reflexivity.
Qed.

End Pruning.

Lemma ln_gt_0 threshold : 1 < threshold → 0 < ln threshold.
Proof. intros Ht. rewrite <- ln_1. apply ln_increasing; lra. Qed.

Lemma retained_filter {X} M threshold (rows : list (R * X)) :
  retained M threshold rows
  = filter (λ row, 0 < threshold ∧ M - row.1 < ln threshold) rows.
Proof. unfold retained. apply list_filter_iff. intros row. apply np_lt_np_log. Qed.

Lemma ic_rows_of_rows {A} (rows : list (R * A)) : zip (fst <$> rows) (snd <$> rows) = rows.
Proof. induction rows as [|[b h] rows IH]; [done|]. csimpl. by rewrite IH. Qed.

(** A row with the largest log-belief passes the test when
    [log(threshold) > 0]. *)
Lemma retained_max {X} M threshold (rows : list (R * X)) row :
  1 < threshold → row ∈ rows → row.1 = M → row ∈ retained M threshold rows.
Proof.
  intros Ht Hrow HM. apply elem_of_retained. split; [|done].
  pose proof (ln_gt_0 threshold Ht). rewrite HM. split; lra.
Qed.

Lemma zip_has_max {X} (log_belief : list R) (xs : list X) M :
  length xs = length log_belief → M ∈ log_belief →
  ∃ row, row ∈ zip log_belief xs ∧ row.1 = M.
Proof.
  intros Hlen HM. apply list_elem_of_lookup in HM as [i Hi].
  destruct (lookup_lt_is_Some_2 xs i) as [x Hx].
  { rewrite Hlen. by eapply lookup_lt_Some. }
  exists (M, x). split; [|done]. apply list_elem_of_lookup. exists i.
  by apply lookup_zip_Some.
Qed.

Lemma fmap_not_nil {A B} (f : A → B) (l : list A) x : x ∈ l → f <$> l ≠ [].
Proof. intros Hx Hnil. apply fmap_nil_inv in Hnil. subst. by apply elem_of_nil in Hx. Qed.

(** C5, as the code has it. On an empty population [np.max] raises. On a
    non-empty population, [prune_hypothesis_space] keeps exactly the hypotheses whose log-belief is
    strictly less than [log(threshold)] below the largest log-belief of the
    population, in their order; it removes the others, among them a
    hypothesis that is exactly [log(threshold)] below the largest. This holds
    for the joint population and for each of the two populations of the
    independent agent. *)
Theorem prune_hypothesis_space_keeps (RH MH : Type) (threshold : R) :
  (∀ jc : JointClustering RH MH,
     jc_log_belief jc = [] →
     JointClustering_prune_hypothesis_space threshold jc = Raise ValueError) ∧
  (∀ jc : JointClustering RH MH,
     jc_aligned jc → jc_log_belief jc ≠ [] →
     ∃ M jc', np_max (jc_log_belief jc) = Ok M ∧
       JointClustering_prune_hypothesis_space threshold jc = Ok jc' ∧
       jc_aligned jc' ∧
       jc_rows jc'
       = filter (λ row, 0 < threshold ∧ M - row.1 < ln threshold) (jc_rows jc)) ∧
  (∀ ic : IndependentClusterAgent RH MH,
     ic_aligned ic → ic_log_belief_rew ic ≠ [] → ic_log_belief_map ic ≠ [] →
     ∃ Mr Mm ic', np_max (ic_log_belief_rew ic) = Ok Mr ∧
       np_max (ic_log_belief_map ic) = Ok Mm ∧
       IndependentClusterAgent_prune_hypothesis_space threshold ic = Ok ic' ∧
       ic_aligned ic' ∧
       ic_rows_rew ic'
       = filter (λ row, 0 < threshold ∧ Mr - row.1 < ln threshold) (ic_rows_rew ic) ∧
       ic_rows_map ic'
       = filter (λ row, 0 < threshold ∧ Mm - row.1 < ln threshold) (ic_rows_map ic)).
Proof.
  split.
  { intros jc Hnil. unfold JointClustering_prune_hypothesis_space. by rewrite Hnil. }
  split.
  - intros jc Hal Hne. destruct (np_max_nonempty _ Hne) as [M HM].
    eexists M, _. split; [done|]. split; [by apply JointClustering_prune_retained|].
    split.
    + unfold jc_aligned. simpl. by rewrite !length_fmap.
    + by rewrite jc_rows_of_rows, retained_filter.
  - intros ic Hal Hner Hnem.
    destruct (np_max_nonempty _ Hner) as [Mr HMr].
    destruct (np_max_nonempty _ Hnem) as [Mm HMm].
    eexists Mr, Mm, _. split; [done|]. split; [done|].
    split; [by apply IndependentClusterAgent_prune_retained|].
    split.
    + unfold ic_aligned. simpl. by rewrite !length_fmap.
    + split; [unfold ic_rows_rew at 1|unfold ic_rows_map at 1]; simpl;
        by rewrite ic_rows_of_rows, retained_filter.
Qed.

(** C3, as the code has it. For a threshold above 1,
    [prune_hypothesis_space] leaves a non-empty population non-empty and
    keeps every hypothesis that has the largest log-belief, in the joint
    agent and in both populations of the independent agent. *)
Theorem prune_hypothesis_space_max_survives (RH MH : Type) (threshold : R) :
  1 < threshold →
  (∀ jc : JointClustering RH MH,
     jc_aligned jc → jc_log_belief jc ≠ [] →
     ∃ M jc', np_max (jc_log_belief jc) = Ok M ∧
       JointClustering_prune_hypothesis_space threshold jc = Ok jc' ∧
       jc_log_belief jc' ≠ [] ∧ jc_reward_hypotheses jc' ≠ [] ∧
       jc_mapping_hypotheses jc' ≠ [] ∧
       ∀ row, row ∈ jc_rows jc → row.1 = M → row ∈ jc_rows jc') ∧
  (∀ ic : IndependentClusterAgent RH MH,
     ic_aligned ic → ic_log_belief_rew ic ≠ [] → ic_log_belief_map ic ≠ [] →
     ∃ Mr Mm ic', np_max (ic_log_belief_rew ic) = Ok Mr ∧
       np_max (ic_log_belief_map ic) = Ok Mm ∧
       IndependentClusterAgent_prune_hypothesis_space threshold ic = Ok ic' ∧
       ic_reward_hypotheses ic' ≠ [] ∧ ic_mapping_hypotheses ic' ≠ [] ∧
       (∀ row, row ∈ ic_rows_rew ic → row.1 = Mr → row ∈ ic_rows_rew ic') ∧
       (∀ row, row ∈ ic_rows_map ic → row.1 = Mm → row ∈ ic_rows_map ic')).
Proof.
  intros Ht. split.
  - intros jc Hal Hne. destruct (np_max_nonempty _ Hne) as [M HM].
    eexists M, _. split; [done|]. split; [by apply JointClustering_prune_retained|].
    destruct (np_max_Ok _ _ HM) as [_ Hin].
    destruct (zip_has_max (jc_log_belief jc)
                (zip (jc_reward_hypotheses jc) (jc_mapping_hypotheses jc)) M)
      as [row [Hrow Hrow1]]; [destruct Hal; rewrite length_zip; lia|done|].
    pose proof (retained_max M threshold _ row Ht Hrow Hrow1) as Hkept.
    simpl. repeat split; try by eapply fmap_not_nil.
    intros row' Hrow' HM'. rewrite jc_rows_of_rows. by apply retained_max.
  - intros ic Hal Hner Hnem.
    destruct (np_max_nonempty _ Hner) as [Mr HMr].
    destruct (np_max_nonempty _ Hnem) as [Mm HMm].
    eexists Mr, Mm, _. split; [done|]. split; [done|].
    split; [by apply IndependentClusterAgent_prune_retained|].
    destruct (np_max_Ok _ _ HMr) as [_ Hinr]. destruct (np_max_Ok _ _ HMm) as [_ Hinm].
    destruct Hal as [Hlr Hlm].
    destruct (zip_has_max (ic_log_belief_rew ic) (ic_reward_hypotheses ic) Mr)
      as [rr [Hrr Hrr1]]; [done|done|].
    destruct (zip_has_max (ic_log_belief_map ic) (ic_mapping_hypotheses ic) Mm)
      as [rm [Hrm Hrm1]]; [done|done|].
    pose proof (retained_max Mr threshold _ rr Ht Hrr Hrr1) as Hkr.
    pose proof (retained_max Mm threshold _ rm Ht Hrm Hrm1) as Hkm.
    simpl. split; [by eapply fmap_not_nil|]. split; [by eapply fmap_not_nil|].
    split.
    + intros row Hrow HM'. unfold ic_rows_rew at 1. simpl.
      rewrite ic_rows_of_rows. by apply retained_max.
    + intros row Hrow HM'. unfold ic_rows_map at 1. simpl.
      rewrite ic_rows_of_rows. by apply retained_max.
Qed.

Lemma retained_cons_True {X} M threshold (row : R * X) rows :
  0 < threshold → M - row.1 < ln threshold →
  retained M threshold (row :: rows) = row :: retained M threshold rows.
Proof.
  intros Ht Hrow. unfold retained. rewrite list.filter_cons, decide_True; [done|].
  by apply np_lt_np_log.
Qed.

Lemma retained_cons_False {X} M threshold (row : R * X) rows :
  ln threshold <= M - row.1 →
  retained M threshold (row :: rows) = retained M threshold rows.
Proof.
  intros Hrow. unfold retained. rewrite list.filter_cons, decide_False; [done|].
  rewrite np_lt_np_log. lra.
Qed.

Lemma prune_hypothesis_space_max_survives_witness :
  ∃ M jc',
    np_max (jc_log_belief (@JointClustering_init counting_hypothesis counting_hypothesis _ _))
    = Ok M ∧
    JointClustering_prune_hypothesis_space 2
      (@JointClustering_init counting_hypothesis counting_hypothesis _ _) = Ok jc' ∧
    jc_log_belief jc' ≠ [].
Proof.
  assert (1 < 2) as Ht by lra.
  destruct (prune_hypothesis_space_max_survives counting_hypothesis counting_hypothesis 2 Ht)
    as [HJ _].
  destruct (HJ JointClustering_init) as (M & jc' & H1 & H2 & H3 & _).
  - split; reflexivity.
  - discriminate.
  - exists M, jc'. split; [exact H1|]. split; [exact H2|exact H3].
Defined.

Lemma prune_hypothesis_space_keeps_witness :
  ∃ M jc',
    np_max (jc_log_belief (@JointClustering_init counting_hypothesis counting_hypothesis _ _))
    = Ok M ∧
    JointClustering_prune_hypothesis_space 2
      (@JointClustering_init counting_hypothesis counting_hypothesis _ _) = Ok jc' ∧
    jc_aligned jc'.
Proof.
  destruct (prune_hypothesis_space_keeps counting_hypothesis counting_hypothesis 2)
    as (_ & HJ & _).
  destruct (HJ JointClustering_init) as (M & jc' & H1 & H2 & H3 & _).
  - split; reflexivity.
  - discriminate.
  - exists M, jc'. split; [exact H1|]. split; [exact H2|exact H3].
Defined.

(** C3 as stated fails at threshold 1: [log(1) = 0], no difference to the
    largest log-belief is below 0, and the population of a freshly built
    agent (one hypothesis, log-belief 1) is emptied, in the joint agent and
    in both populations of the independent agent. *)
Lemma prune_hypothesis_space_threshold_1 :
  jc_log_belief (@JointClustering_init counting_hypothesis counting_hypothesis _ _) = [1] ∧
  1 <= 1 ∧
  JointClustering_prune_hypothesis_space 1
    (@JointClustering_init counting_hypothesis counting_hypothesis _ _)
  = Ok {| jc_reward_hypotheses := []; jc_mapping_hypotheses := []; jc_log_belief := [] |} ∧
  IndependentClusterAgent_prune_hypothesis_space 1
    (@IndependentClusterAgent_init counting_hypothesis counting_hypothesis _ _)
  = Ok {| ic_reward_hypotheses := []; ic_mapping_hypotheses := [];
          ic_log_belief_rew := []; ic_log_belief_map := [] |}.
Proof.
  split; [reflexivity|]. split; [lra|]. split.
  - rewrite (JointClustering_prune_retained 1 _ 1); [|by split|reflexivity].
    unfold jc_rows. simpl. rewrite retained_cons_False; [reflexivity|].
    rewrite ln_1. simpl. lra.
  - rewrite (IndependentClusterAgent_prune_retained 1 _ 1 1);
      [|by split|reflexivity|reflexivity].
    unfold ic_rows_rew, ic_rows_map. simpl. rewrite !retained_cons_False; [reflexivity|..];
      rewrite ln_1; simpl; lra.
Qed.

(** C5 as stated fails on the boundary: with threshold 2 and log-beliefs
    [0] and [-log 2], the second hypothesis is exactly [log(threshold)]
    below the largest log-belief, and it is removed. *)
Lemma prune_hypothesis_space_boundary :
  let h0 : counting_hypothesis := {| ch_assignments := {[0%Z := 0%Z; 1%Z := 0%Z]}; ch_observations := 0 |} in
  let h1 : counting_hypothesis := {| ch_assignments := {[0%Z := 0%Z; 1%Z := 1%Z]}; ch_observations := 0 |} in
  let jc := {| jc_reward_hypotheses := [h0; h1]; jc_mapping_hypotheses := [h0; h1];
               jc_log_belief := [0; - ln 2] |} in
  np_max (jc_log_belief jc) = Ok 0 ∧
  0 - (- ln 2) = ln 2 ∧
  JointClustering_prune_hypothesis_space 2 jc
  = Ok {| jc_reward_hypotheses := [h0]; jc_mapping_hypotheses := [h0];
          jc_log_belief := [0] |}.
Proof.
  intros h0 h1 jc.
  assert (0 < ln 2) as Hln by (apply ln_gt_0; lra).
  assert (np_max (jc_log_belief jc) = Ok 0) as Hmax.
  { simpl. f_equal. apply Rmax_left. lra. }
  split; [exact Hmax|]. split; [lra|].
  rewrite (JointClustering_prune_retained 2 jc 0); [|by split|exact Hmax].
  unfold jc_rows. simpl.
  rewrite retained_cons_True by (simpl; lra).
  rewrite retained_cons_False by (simpl; lra).
  reflexivity.
Qed.

(** ** Belief updates of the joint agent *)

Lemma store_each_app {H} (f : H → R) (op : R → R → R) hs pre log_belief :
  length hs = length log_belief →
  store_each f op hs (length pre) (pre ++ log_belief)
  = Ok (pre ++ zip_with (λ old h, op old (f h)) log_belief hs).
Proof.
  revert pre log_belief; induction hs as [|h hs IH]; intros pre lb Hlen.
  - destruct lb; [|discriminate]. reflexivity.
  - destruct lb as [|b bs]; [discriminate|]. simpl in Hlen.
    cbn [store_each]. rewrite list_lookup_middle by done.
    rewrite insert_app_r_alt by lia. rewrite Nat.sub_diag. cbn [insert list_insert].
    specialize (IH (pre ++ [op b (f h)]) bs ltac:(lia)).
    rewrite length_app, Nat.add_1_r, <- !app_assoc in IH. simpl in IH.
    rewrite IH. reflexivity.
Qed.

Lemma store_each_all {H} (f : H → R) (op : R → R → R) hs log_belief :
  length hs = length log_belief →
  store_each f op hs 0 log_belief
  = Ok (zip_with (λ old h, op old (f h)) log_belief hs).
Proof. intros Hlen. by apply (store_each_app f op hs []). Qed.

Lemma zip_with_assign {H} (f : H → R) (log_belief : list R) hs :
  length hs = length log_belief →
  zip_with (λ old h, assign old (f h)) log_belief hs = f <$> hs.
Proof.
  revert log_belief; induction hs as [|h hs IH]; intros [|b bs] Hlen; try done.
  simpl in *. rewrite IH by lia. done.
Qed.

Lemma zip_with_fmap_plus {A B} (f : A → R) (g : B → R) (xs : list A) (ys : list B) :
  zip_with (λ old y, old + g y) (f <$> xs) ys = zip_with (λ x y, f x + g y) xs ys.
Proof.
  revert ys; induction xs as [|x xs IH]; intros [|y ys]; try done.
  csimpl. by rewrite IH.
Qed.

Section JointBelief.
Context {T RH MH : Type} `{Task T} `{RewardHypothesis RH} `{MappingHypothesis MH}.

(** What [update] stores: for each pair, the log-likelihood of the reward
    hypothesis plus the log-likelihood of the mapping hypothesis. The
    log-prior written by the first loop is overwritten by the second. *)
Lemma JointClustering_update_stores (task : T) s a aa r loc_prime c sp
    (jc : JointClustering RH MH) :
  length (jc_reward_hypotheses jc) = length (jc_mapping_hypotheses jc) →
  state_location_key task !! loc_prime = Some sp →
  ∃ jc', JointClustering_update task (s, a, aa, r, (loc_prime, c)) jc = Ok jc' ∧
    jc_reward_hypotheses jc' = rh_update c sp r <$> jc_reward_hypotheses jc ∧
    jc_mapping_hypotheses jc' = mh_updating_mapping c a aa <$> jc_mapping_hypotheses jc ∧
    jc_log_belief jc'
    = zip_with (λ h_r h_m, rh_get_log_likelihood h_r + mh_get_log_likelihood h_m)
        (jc_reward_hypotheses jc') (jc_mapping_hypotheses jc').
Proof.
  intros Hlen Hkey. unfold JointClustering_update, dict_getitem.
  rewrite Hkey. cbn [bind].
  rewrite store_each_all by (by rewrite length_replicate).
  cbn [bind]. rewrite zip_with_assign by (by rewrite length_replicate, length_fmap).
  rewrite store_each_all by (by rewrite !length_fmap).
  cbn [bind]. rewrite zip_with_assign by (by rewrite !length_fmap).
  rewrite store_each_all by (by rewrite !length_fmap).
  cbn [bind]. eexists. split; [reflexivity|]. simpl.
  split; [done|]. split; [done|]. apply zip_with_fmap_plus.
Qed.

(** The stored belief is the combination of the claim only for pairs whose
    reward hypothesis has log-prior 0. *)
Lemma JointClustering_update_belief_differs `{!RewardHypothesisLaws RH} (h_r : RH) (h_m : MH) :
  rh_get_log_likelihood h_r + mh_get_log_likelihood h_m
  = rh_get_log_posterior h_r + mh_get_log_likelihood h_m
  ↔ rh_get_log_prior h_r = 0.
Proof. rewrite rh_log_posterior. split; intros; lra. Qed.

End JointBelief.

Lemma for_each_Ok {A B} (f : A → result B) xs ys :
  for_each f xs = Ok ys → ∀ y, y ∈ ys → ∃ x, x ∈ xs ∧ f x = Ok y.
Proof.
  revert ys; induction xs as [|x xs IH]; intros ys; cbn [for_each].
  - intros [= <-] y Hy. by apply elem_of_nil in Hy.
  - destruct (f x) as [y0|] eqn:E; [|discriminate]. cbn [bind].
    destruct (for_each f xs) as [ys0|]; [|discriminate]. cbn [bind].
    intros [= <-] y Hy. apply elem_of_cons in Hy as [->|Hy].
    + exists x. split; [apply list_elem_of_here|done].
    + destruct (IH ys0 eq_refl y Hy) as [x' [Hx' Hfx']].
      exists x'. split; [by apply list_elem_of_further|done].
Qed.

Lemma fmap_zip_with_triples {A B} (g : A → B → R) (new : list (A * B * R)) :
  Forall (λ x, x.2 = g x.1.1 x.1.2) new →
  (λ x, x.2) <$> new = zip_with g ((λ x, x.1.1) <$> new) ((λ x, x.1.2) <$> new).
Proof.
  induction 1 as [|[[a b] r] new Hx _ IH]; [done|].
  csimpl in *. by rewrite IH, Hx.
Qed.

Section JointAugment.
Context {RH MH : Type} `{RewardHypothesis RH} `{MappingHypothesis MH}.

(** [augment_assignments] gives each child the log-posterior of its reward
    hypothesis plus the log-likelihood of its mapping hypothesis. *)
Lemma JointClustering_augment_assignments_beliefs c (jc jc' : JointClustering RH MH) :
  JointClustering_augment_assignments c jc = Ok jc' →
  jc_log_belief jc'
  = zip_with (λ h_r h_m, rh_get_log_posterior h_r + mh_get_log_likelihood h_m)
      (jc_reward_hypotheses jc') (jc_mapping_hypotheses jc').
Proof.
  unfold JointClustering_augment_assignments.
  destruct (for_each _ _) as [new|] eqn:E; [|discriminate]. cbn [bind].
  intros [= <-]. simpl. apply fmap_zip_with_triples.
  apply list.Forall_forall. intros x Hx.
  apply list_elem_of_In, in_concat in Hx as [xs [Hxs%list_elem_of_In Hx%list_elem_of_In]].
  destruct (for_each_Ok _ _ _ E xs Hxs) as [[h_r h_m] [_ Hch]].
  unfold JointClustering_children in Hch.
  destruct (augment_assignments _ c) as [new_assignments|]; [|discriminate].
  cbn [bind] in Hch.
  destruct (for_each_Ok _ _ _ Hch x Hx) as [a [_ Ha]].
  destruct (dict_getitem a c) as [k|]; [|discriminate]. cbn [bind] in Ha.
  by injection Ha as <-.
Qed.

End JointAugment.

(** C1 on an explicit run: a joint agent is built, context 0 is added, and
    one experience is recorded. The single pair then has a reward hypothesis
    with log-prior [-1] and log-likelihood [-1] and a mapping hypothesis with
    log-likelihood [-1]. [update] stores [-2], the sum of the two
    log-likelihoods; the reward log-posterior plus the mapping
    log-likelihood is [-3]. *)
Theorem JointClustering_update_drops_prior :
  let task := {| st_n_trials := 1; st_n_ctx := 1;
                 st_key := {[ (0%Z, 0%Z) := 0%Z ]}; st_script := [] |} in
  let experience : experience_tuple :=
    (((0%Z, 0%Z), 0%Z), 0%Z, 0%Z, 1, ((0%Z, 0%Z), 0%Z)) in
  ∃ jc1 jc2 (h_r h_m : counting_hypothesis),
    JointClustering_augment_assignments 0 JointClustering_init = Ok jc1 ∧
    jc_log_belief jc1 = [-1 + 0 + 0] ∧
    JointClustering_update task experience jc1 = Ok jc2 ∧
    jc_reward_hypotheses jc2 = [h_r] ∧ jc_mapping_hypotheses jc2 = [h_m] ∧
    rh_get_log_prior h_r = -1 ∧ rh_get_log_likelihood h_r = -1 ∧
    mh_get_log_likelihood h_m = -1 ∧
    jc_log_belief jc2 = [-1 + -1] ∧
    rh_get_log_posterior h_r + mh_get_log_likelihood h_m = -1 + -1 + -1.
Proof.
  intros task experience.
  set (h := {| ch_assignments := {[ 0%Z := 0%Z ]}; ch_observations := 0 |}).
  set (h' := {| ch_assignments := {[ 0%Z := 0%Z ]}; ch_observations := 1 |}).
  assert (ch_log_prior h' = -1) as Hp.
  { unfold ch_log_prior, h'. cbn [ch_assignments]. rewrite map_size_singleton.
    simpl. lra. }
  assert (ch_log_likelihood h' = -1) as Hl.
  { unfold ch_log_likelihood, h'. simpl. lra. }
  assert (ch_log_prior h = -1) as Hp0.
  { unfold ch_log_prior, h. cbn [ch_assignments]. rewrite map_size_singleton.
    simpl. lra. }
  assert (ch_log_likelihood h = 0) as Hl0.
  { unfold ch_log_likelihood, h. simpl. lra. }
  exists {| jc_reward_hypotheses := [h]; jc_mapping_hypotheses := [h];
            jc_log_belief := [ch_log_prior h + ch_log_likelihood h + ch_log_likelihood h] |}.
  destruct (JointClustering_update_stores task ((0%Z, 0%Z), 0%Z) 0%Z 0%Z 1 (0%Z, 0%Z) 0%Z 0%Z
              {| jc_reward_hypotheses := [h]; jc_mapping_hypotheses := [h];
                 jc_log_belief := [ch_log_prior h + ch_log_likelihood h + ch_log_likelihood h] |})
    as (jc2 & Hupd & Hr & Hm & Hb); [reflexivity|reflexivity|].
  exists jc2, h', h'.
  split; [reflexivity|]. split; [simpl; by rewrite Hp0, Hl0|].
  split; [exact Hupd|]. split; [exact Hr|]. split; [exact Hm|].
  split; [exact Hp|]. split; [exact Hl|]. split; [exact Hl|].
  split.
  - rewrite Hb, Hr, Hm. simpl. change (ch_observe h) with h'. by rewrite Hl.
  - simpl. by rewrite Hp, Hl.
Qed.

Local Close Scope R_scope.

(** ** The example hypotheses satisfy the laws *)

#[global] Instance counting_reward_laws : RewardHypothesisLaws counting_hypothesis.
Proof. by split. Qed.

#[global] Instance counting_mapping_laws : MappingHypothesisLaws counting_hypothesis.
Proof. by split. Qed.

(** ** Construction of the full-enumeration agent *)

Lemma lookup_own_clusters (n i k : Z) :
  (list_to_map ((λ ii, (ii, ii)) <$> py_range 0 n) : assignment) !! i = Some k
  ↔ k = i ∧ 0 ≤ i < n.
Proof.
  unfold py_range. rewrite Z.sub_0_r. split.
  - intros Hl. apply elem_of_list_to_map_2 in Hl.
    apply list_elem_of_fmap in Hl as [ii [[= -> ->] Hii]].
    apply elem_of_seqZ in Hii. split; [done|lia].
  - intros [-> Hi]. apply elem_of_list_to_map_1.
    + rewrite <- list_fmap_compose.
      change (fst ∘ (λ ii : Z, (ii, ii))) with (@Datatypes.id Z).
      rewrite list_fmap_id. apply NoDup_seqZ.
    + apply list_elem_of_fmap. exists i. split; [done|]. apply elem_of_seqZ. lia.
Qed.

Section FullEnumeration.
Context {T RH MH : Type} `{Task T} `{RewardHypothesis RH} `{MappingHypothesis MH}.
Context `{!RewardHypothesisLaws RH} `{!MappingHypothesisLaws MH}.

(** C2, as the code has it. At construction the mapping population of the
    full-enumeration agent holds one hypothesis per canonical assignment
    of the task's contexts: every canonical assignment is the assignment
    of exactly one mapping hypothesis, Bell(n) in all. The reward
    population is not enumerated: it holds a single hypothesis, whose
    assignment puts every context in a cluster of its own. *)
Theorem MapClusteringAgent_init_populations (task : T) (n : nat) :
  n_ctx task = Z.of_nat n →
  ∃ agent, MapClusteringAgent_init task = Ok agent ∧
    NoDup (mh_get_assignments <$> mc_mapping_hypotheses agent) ∧
    (∀ a, a ∈ mh_get_assignments <$> mc_mapping_hypotheses agent ↔ canonical n a) ∧
    length (mc_mapping_hypotheses agent) = Bell n ∧
    ∃ h_r, mc_reward_hypotheses agent = [h_r] ∧
      ∀ i k, rh_get_assignments h_r !! i = Some k ↔ k = i ∧ 0 ≤ i < Z.of_nat n.
Proof.
  intros Hn. unfold MapClusteringAgent_init.
  rewrite Hn, enumerate_assignments_all_extensions. cbn [bind].
  eexists. split; [reflexivity|]. cbn [mc_mapping_hypotheses mc_reward_hypotheses].
  assert (mh_get_assignments <$> ((λ a, mh_new (Some a)) <$> all_extensions n)
          = all_extensions n) as ->.
  { rewrite <- list_fmap_compose. rewrite <- (list_fmap_id (all_extensions n)) at 2.
    apply list_fmap_ext. intros i a _. simpl. by rewrite mh_assignments_new. }
  split; [apply all_extensions_NoDup|].
  split; [intros a; symmetry; apply canonical_all_extensions|].
  split; [rewrite length_fmap; apply length_all_extensions|].
  eexists. split; [reflexivity|].
  intros i k. rewrite rh_assignments_new. simpl. apply lookup_own_clusters.
Qed.

End FullEnumeration.

Lemma MapClusteringAgent_init_populations_witness :
  ∃ agent : MapClusteringAgent counting_hypothesis counting_hypothesis,
    MapClusteringAgent_init
      {| st_n_trials := 1; st_n_ctx := 2; st_key := ∅; st_script := [] |} = Ok agent ∧
    length (mc_mapping_hypotheses agent) = Bell 2.
Proof.
  destruct (MapClusteringAgent_init_populations
              (RH := counting_hypothesis) (MH := counting_hypothesis)
              {| st_n_trials := 1; st_n_ctx := 2; st_key := ∅; st_script := [] |} 2)
    as (agent & H1 & _ & _ & H2 & _).
  - reflexivity.
  - exists agent. split; [exact H1|exact H2].
Defined.

(** C2 as stated fails for the reward population: with two contexts there
    are two canonical assignments, and the reward population holds one
    hypothesis, with contexts 0 and 1 apart; no reward hypothesis has the
    canonical assignment that puts both contexts in cluster 0. *)
Lemma MapClusteringAgent_init_reward_population :
  ∃ agent : MapClusteringAgent counting_hypothesis counting_hypothesis,
    MapClusteringAgent_init
      {| st_n_trials := 1; st_n_ctx := 2; st_key := ∅; st_script := [] |} = Ok agent ∧
    rh_get_assignments <$> mc_reward_hypotheses agent = [ {[0 := 0; 1 := 1]} ] ∧
    mh_get_assignments <$> mc_mapping_hypotheses agent
    = [ {[0 := 0; 1 := 0]}; {[0 := 0; 1 := 1]} ] ∧
    canonical 2 {[0 := 0; 1 := 0]} ∧
    ({[0 := 0; 1 := 0]} : assignment) ∉ rh_get_assignments <$> mc_reward_hypotheses agent.
Proof.
  eexists. split; [reflexivity|]. split; [by vm_compute|]. split; [by vm_compute|].
  split; [by apply (bool_decide_unpack _)|].
  by apply (bool_decide_unpack _).
Qed.

(** ** The flat agent *)

Lemma own_clusters_empty : own_clusters ∅.
Proof. intros i k Hi. by rewrite lookup_empty in Hi. Qed.

Lemma own_clusters_insert a c : own_clusters a → own_clusters (<[c := c]> a).
Proof.
  intros Ha i k Hi. apply lookup_insert_Some in Hi as [[<- <-]|[_ Hi]]; [done|].
  by apply Ha.
Qed.

Section Flat.
Context {T RH MH : Type} `{Task T} `{RewardHypothesis RH} `{MappingHypothesis MH}.
Context `{!RewardHypothesisLaws RH} `{!MappingHypothesisLaws MH}.
Implicit Types fc : FlatControlAgent RH MH.

(** C9. The population of the flat agent has exactly one task set after
    construction and after every [update], [prune_hypothesis_space] and
    [augment_assignments]. [augment_assignments(c)] always returns on such
    a population and leaves the same single pair of hypotheses with [c]
    added to both assignments in cluster [c], which no other context
    shares: there is no branching. *)
Theorem FlatControlAgent_single_task_set :
  flat_single (FlatControlAgent_init (RH := RH) (MH := MH)) ∧
  (∀ (task : T) experience fc fc',
     flat_single fc → FlatControlAgent_update task experience fc = Ok fc' →
     flat_single fc' ∧ length (fc_task_sets fc') = 1%nat) ∧
  (∀ threshold fc fc',
     flat_single fc → FlatControlAgent_prune_hypothesis_space threshold fc = Ok fc' →
     flat_single fc' ∧ length (fc_task_sets fc') = 1%nat) ∧
  (∀ c fc, flat_single fc →
     ∃ ts ts' fc', fc_task_sets fc = [ts] ∧
       FlatControlAgent_augment_assignments c fc = Ok fc' ∧
       fc_task_sets fc' = [ts'] ∧ flat_single fc' ∧
       rh_get_assignments (Reward_Hypothesis ts')
       = <[c := c]> (rh_get_assignments (Reward_Hypothesis ts)) ∧
       mh_get_assignments (Mapping_Hypothesis ts')
       = <[c := c]> (mh_get_assignments (Mapping_Hypothesis ts)) ∧
       (∀ i, rh_get_assignments (Reward_Hypothesis ts') !! i = Some c → i = c) ∧
       (∀ i, mh_get_assignments (Mapping_Hypothesis ts') !! i = Some c → i = c)).
Proof.
  split; [|split; [|split]].
  - eexists. split; [reflexivity|]. simpl.
    rewrite rh_assignments_new, mh_assignments_new. split; apply own_clusters_empty.
  - intros task [[[[s a] aa] r] [loc_prime c]] fc fc' (ts & Hts & Hr & Hm).
    unfold FlatControlAgent_update. rewrite Hts.
    destruct (dict_getitem _ _) as [sp|]; [|discriminate]. cbn [bind].
    destruct (store_each _ _ _ _ _) as [lb|]; [|discriminate]. cbn [bind].
    intros [= <-]. split; [|reflexivity].
    eexists. split; [reflexivity|]. simpl.
    by rewrite rh_assignments_update, mh_assignments_update.
  - intros threshold fc fc' Hfc [= <-]. split; [done|].
    destruct Hfc as (ts & -> & _). reflexivity.
  - intros c fc (ts & Hts & Hr & Hm).
    unfold FlatControlAgent_augment_assignments. rewrite Hts, py_getitem_0_cons.
    cbn [bind]. eexists ts, _, _. split; [done|]. split; [reflexivity|].
    split; [reflexivity|]. simpl.
    rewrite rh_assignments_add, mh_assignments_add.
    split.
    { eexists. split; [reflexivity|]. simpl.
      rewrite rh_assignments_add, mh_assignments_add.
      split; by apply own_clusters_insert. }
    split; [done|]. split; [done|].
    split; intros i Hi.
    + by apply (own_clusters_insert _ c Hr) in Hi.
    + by apply (own_clusters_insert _ c Hm) in Hi.
Qed.

End Flat.

Lemma FlatControlAgent_single_task_set_witness :
  ∃ fc' : FlatControlAgent counting_hypothesis counting_hypothesis,
    FlatControlAgent_augment_assignments 3 FlatControlAgent_init = Ok fc' ∧
    flat_single fc'.
Proof.
  destruct (FlatControlAgent_single_task_set
              (T := scripted_task) (RH := counting_hypothesis) (MH := counting_hypothesis))
    as (Hinit & _ & _ & Haug).
  destruct (Haug 3 FlatControlAgent_init Hinit) as (ts & ts' & fc' & _ & H1 & _ & H2 & _).
  exists fc'. split; [exact H1|exact H2].
Defined.

(** ** The orchestrator *)

Lemma py_index_lt len i j : py_index len i = Ok j → (j < len)%nat.
Proof. unfold py_index. repeat case_decide; intros [= <-]; lia. Qed.

Lemma seen_counted_nil ts : seen_counted [] ts.
Proof. intros c Hc. by apply elem_of_nil in Hc. Qed.

(** Counting one more visit keeps the counters of the visited contexts
    positive, and makes the counter of the context just visited positive. *)
Lemma seen_counted_visit visited ts c j :
  seen_counted visited ts → py_index (length ts) c = Ok j →
  seen_counted (c :: visited) (alter S j ts).
Proof.
  intros Hinv Hj c' Hc'. rewrite length_alter.
  apply elem_of_cons in Hc' as [->|Hc'].
  - exists j. apply py_index_lt in Hj as Hlt.
    destruct (lookup_lt_is_Some_2 ts j Hlt) as [n Hn].
    exists n. split; [done|]. by rewrite list_lookup_alter_eq, Hn.
  - destruct (Hinv c' Hc') as (j' & n & Hj' & Hn). exists j'.
    destruct (decide (j = j')) as [->|Hne].
    + exists (S n). split; [done|]. by rewrite list_lookup_alter_eq, Hn.
    + exists n. split; [done|]. by rewrite list_lookup_alter_ne.
Qed.

(** A counter that reads 1 after the increment belongs to a context that
    was not visited before. *)
Lemma seen_counted_first visited ts c j :
  seen_counted visited ts → py_index (length ts) c = Ok j →
  alter S j ts !! j = Some 1%nat → c ∉ visited.
Proof.
  intros Hinv Hj H1 Hc. destruct (Hinv c Hc) as (j' & n & Hj' & Hn).
  rewrite Hj in Hj'. injection Hj' as <-.
  rewrite list_lookup_alter_eq, Hn in H1. discriminate.
Qed.

Section GenerateLog.
Context {T A : Type} `{Task T} `{Agent T A}.

Lemma generate_act_log (task : T) t s (agent : A) sc ts results :
  ∃ l, (generate_act task t s agent sc ts results).1 = CallSelect s :: l ∧
    (∀ threshold visited rest,
       log_ok threshold visited rest → log_ok threshold visited (l ++ rest)) ∧
    (∀ e, (generate_act task t s agent sc ts results).2 = Raise e →
       ∀ threshold visited, log_ok threshold visited l) ∧
    (∀ ls', (generate_act task t s agent sc ts results).2 = Ok ls' →
       ls_times_seen_ctx ls' = ts).
Proof.
  unfold generate_act, recorded, lift, lret, lbind.
  destruct (agent_select_action task s agent) as [[action agent']|e]; simpl.
  2:{ exists []. repeat split; try done. intros; constructor. }
  destruct (move action task) as [[experience task']|e]; simpl.
  2:{ exists [CallMove action]. repeat split; try done.
      - intros. by constructor.
      - intros. repeat constructor. }
  destruct experience as [[[[[xy c] a] aa] r] [xyp c']].
  destruct (agent_update task' _ agent') as [agent''|e]; simpl.
  2:{ eexists [CallMove action; CallUpdate _]. repeat split; try done.
      - intros. by repeat constructor.
      - intros. repeat constructor. }
  destruct (py_getitem sc t) as [n_actions|e]; simpl.
  2:{ eexists [CallMove action; CallUpdate _]. repeat split; try done.
      - intros. by repeat constructor.
      - intros. repeat constructor. }
  destruct (py_getitem ts c) as [seen|e]; simpl.
  2:{ eexists [CallMove action; CallUpdate _]. repeat split; try done.
      - intros. by repeat constructor.
      - intros. repeat constructor. }
  eexists [CallMove action; CallUpdate _]. repeat split; try done.
  - intros. by repeat constructor.
  - by intros ls' [= <-].
Qed.

End GenerateLog.

Section GenerateShape.
Context {T A : Type} `{Task T} `{Agent T A}.

Lemma generate_enter_log threshold c (agent : A) ts visited :
  seen_counted visited ts →
  match generate_enter threshold c agent ts with
  | (l, Ok (_, ts')) =>
      seen_counted (c :: visited) ts' ∧
      ∀ t tail, log_ok threshold (c :: visited) tail →
                (tail = [] ∨ ∃ s l', tail = CallSelect s :: l') →
                log_ok threshold visited (Step t c 1 :: l ++ tail)
  | (l, Raise _) => ∀ t, log_ok threshold visited (Step t c 1 :: l)
  end.
Proof.
  intros Hinv. unfold generate_enter, recorded, lift, lret, lbind.
  destruct (py_index (length ts) c) as [j|e] eqn:Hj.
  2:{ intros t. apply log_visit; [constructor|by left]. }
  case_decide as H1.
  - pose proof (seen_counted_first _ _ _ _ Hinv Hj H1) as Hfresh.
    destruct (agent_prune_hypothesis_space threshold agent) as [agent'|e]; simpl.
    2:{ intros t. by constructor. }
    destruct (agent_augment_assignments c agent') as [agent''|e]; simpl.
    2:{ intros t. apply log_first; [done|constructor|by left]. }
    split; [by apply seen_counted_visit|].
    intros t tail Htail Hhead. by apply log_first.
  - simpl. split; [by apply seen_counted_visit|].
    intros t tail Htail Hhead. by apply log_visit.
Qed.

Lemma generate_step_log threshold (ls : loop_state) s visited :
  seen_counted visited (ls_times_seen_ctx ls) →
  match generate_step threshold ls s with
  | (l, Ok ls') =>
      ∃ visited', seen_counted visited' (ls_times_seen_ctx ls') ∧
        ∀ rest, log_ok threshold visited' rest → log_ok threshold visited (l ++ rest)
  | (l, Raise _) => log_ok threshold visited l
  end.
Proof.
  intros Hinv. unfold generate_step. destruct s as [loc c].
  destruct (py_index _ _) as [ti|e]; [|constructor].
  unfold lift at 1. unfold lbind at 1. cbn [app].
  set (n := default 0%nat (alter S ti (ls_step_counter ls) !! ti)).
  unfold lbind at 1. cbn [app].
  case_decide as Hfirst.
  - rewrite Hfirst.
    pose proof (generate_enter_log threshold c (ls_agent ls) _ _ Hinv) as Henter.
    destruct (generate_enter _ _ _ _) as [l1 [[agent' ts']|e]].
    2:{ simpl. apply Henter. }
    destruct Henter as [Hinv' Hlog]. unfold lbind.
    match goal with |- context [generate_act ?a ?b ?c ?d ?e ?f ?g] =>
      destruct (generate_act_log a b c d e f g) as (l2 & Hl & Hok & Hraise & Hts);
      destruct (generate_act a b c d e f g) as [l r] end.
    simpl in Hl. subst l. destruct r as [ls'|e].
    + exists (c :: visited). split; [by rewrite (Hts ls')|].
      intros rest Hrest. simpl. rewrite <- app_assoc. apply Hlog; [|right; eauto].
      simpl. constructor. by apply Hok.
    + simpl. apply Hlog; [|right; eauto]. constructor. by eapply Hraise.
  - unfold lret at 1. unfold lbind. cbn [app].
    match goal with |- context [generate_act ?a ?b ?c ?d ?e ?f ?g] =>
      destruct (generate_act_log a b c d e f g) as (l2 & Hl & Hok & Hraise & Hts);
      destruct (generate_act a b c d e f g) as [l r] end.
    simpl in Hl. subst l. destruct r as [ls'|e].
    + exists visited. split; [by rewrite (Hts ls')|].
      intros rest Hrest. simpl. apply log_step; [done| |right; eauto].
      constructor. by apply Hok.
    + simpl. apply log_step; [done| |right; eauto]. constructor. by eapply Hraise.
Qed.

Lemma generate_loop_log fuel threshold (ls : loop_state) visited :
  seen_counted visited (ls_times_seen_ctx ls) →
  log_ok threshold visited (generate_loop fuel threshold ls).1.
Proof.
  revert ls visited; induction fuel as [|fuel IH]; intros ls visited Hinv.
  - constructor.
  - cbn [generate_loop]. destruct (get_state (ls_task ls)) as [s|].
    + pose proof (generate_step_log threshold ls s visited Hinv) as Hstep.
      unfold lbind. destruct (generate_step threshold ls s) as [l [ls'|e]]; [|done].
      destruct Hstep as (visited' & Hinv' & Hlog).
      specialize (IH ls' visited' Hinv').
      destruct (generate_loop fuel threshold ls') as [l' r']. simpl in *.
      by apply Hlog.
    + destruct (ls_results ls); constructor.
Qed.

(** The record of every run has the shape [log_ok], starting from no
    visited context. *)
Lemma generate_log fuel threshold (task : T) (self : A) :
  log_ok threshold [] (generate fuel threshold task self).1.
Proof.
  unfold generate, lift, lbind.
  destruct (np_zeros (n_trials task)) as [sc|e]; [|constructor].
  destruct (np_zeros (n_ctx task)) as [ts|e]; [|constructor].
  pose proof (generate_loop_log fuel threshold
    {| ls_task := task; ls_agent := self; ls_step_counter := sc;
       ls_times_seen_ctx := ts; ls_results := [] |} [] (seen_counted_nil ts)) as Hlog.
  destruct (generate_loop _ _ _) as [l r]. simpl in *. exact Hlog.
Qed.

End GenerateShape.

(** ** Reading the shape of a run *)

Lemma log_ok_augment threshold visited log :
  log_ok threshold visited log →
  ∀ k c, log !! k = Some (CallAugment c) →
    ∃ i t, k = S (S i) ∧ log !! i = Some (Step t c 1) ∧
      log !! (S i) = Some (CallPrune threshold) ∧ (c ∉ visited) ∧
      (∀ j t', (j < i)%nat → log !! j ≠ Some (Step t' c 1)) ∧
      (∀ e, log !! (S k) = Some e → ∃ s, e = CallSelect s).
Proof.
  induction 1 as [v|v s l _ IH|v a l _ IH|v e l _ IH|v t0 c0 n0 l Hn0 _ IH Hhead
                 |v t0 c0 l _ IH Hhead|v t0 c0 Hfresh|v t0 c0 l Hfresh _ IH Hhead];
    intros k c Hk.
  - done.
  - destruct k as [|k]; [done|]. simpl in Hk.
    destruct (IH k c Hk) as (i & t & -> & Hv & Hp & Hc & Hno & Hnext).
    exists (S i), t. repeat split; try done.
    intros [|j] t' Hj; [done|]. simpl. apply Hno. lia.
  - destruct k as [|k]; [done|]. simpl in Hk.
    destruct (IH k c Hk) as (i & t & -> & Hv & Hp & Hc & Hno & Hnext).
    exists (S i), t. repeat split; try done.
    intros [|j] t' Hj; [done|]. simpl. apply Hno. lia.
  - destruct k as [|k]; [done|]. simpl in Hk.
    destruct (IH k c Hk) as (i & t & -> & Hv & Hp & Hc & Hno & Hnext).
    exists (S i), t. repeat split; try done.
    intros [|j] t' Hj; [done|]. simpl. apply Hno. lia.
  - destruct k as [|k]; [done|]. simpl in Hk.
    destruct (IH k c Hk) as (i & t & -> & Hv & Hp & Hc & Hno & Hnext).
    exists (S i), t. repeat split; try done.
    intros [|j] t' Hj; [simpl; congruence|]. simpl. apply Hno. lia.
  - destruct k as [|k]; [done|]. simpl in Hk.
    destruct (IH k c Hk) as (i & t & -> & Hv & Hp & Hc & Hno & Hnext).
    apply not_elem_of_cons in Hc as [Hne Hc].
    exists (S i), t. repeat split; try done.
    intros [|j] t' Hj; [simpl; congruence|]. simpl. apply Hno. lia.
  - destruct k as [|[|[|k]]]; done.
  - destruct k as [|[|[|k]]]; try done.
    + simpl in Hk. injection Hk as <-. exists 0%nat, t0. repeat split; try done.
      * intros j t' Hj. lia.
      * intros e He. simpl in He. destruct Hhead as [->|(s & l' & ->)]; [done|].
        simpl in He. injection He as <-. eauto.
    + simpl in Hk.
      destruct (IH k c Hk) as (i & t & -> & Hv & Hp & Hc & Hno & Hnext).
      apply not_elem_of_cons in Hc as [Hne Hc].
      exists (S (S (S i))), t. repeat split; try done.
      intros [|[|[|j]]] t' Hj; try done; [simpl; congruence|]. simpl. apply Hno. lia.
Qed.

Lemma log_ok_prune threshold visited log :
  log_ok threshold visited log →
  ∀ k x, log !! k = Some (CallPrune x) →
    x = threshold ∧
    ∃ i t c, k = S i ∧ log !! i = Some (Step t c 1) ∧ (c ∉ visited) ∧
      (∀ j t', (j < i)%nat → log !! j ≠ Some (Step t' c 1)) ∧
      (∀ e, log !! (S k) = Some e → e = CallAugment c).
Proof.
  induction 1 as [v|v s l _ IH|v a l _ IH|v e l _ IH|v t0 c0 n0 l Hn0 _ IH Hhead
                 |v t0 c0 l _ IH Hhead|v t0 c0 Hfresh|v t0 c0 l Hfresh _ IH Hhead];
    intros k x Hk.
  - done.
  - destruct k as [|k]; [done|]. simpl in Hk.
    destruct (IH k x Hk) as (-> & i & t & c & -> & Hv & Hc & Hno & Hnext).
    split; [done|]. exists (S i), t, c. repeat split; try done.
    intros [|j] t' Hj; [done|]. simpl. apply Hno. lia.
  - destruct k as [|k]; [done|]. simpl in Hk.
    destruct (IH k x Hk) as (-> & i & t & c & -> & Hv & Hc & Hno & Hnext).
    split; [done|]. exists (S i), t, c. repeat split; try done.
    intros [|j] t' Hj; [done|]. simpl. apply Hno. lia.
  - destruct k as [|k]; [done|]. simpl in Hk.
    destruct (IH k x Hk) as (-> & i & t & c & -> & Hv & Hc & Hno & Hnext).
    split; [done|]. exists (S i), t, c. repeat split; try done.
    intros [|j] t' Hj; [done|]. simpl. apply Hno. lia.
  - destruct k as [|k]; [done|]. simpl in Hk.
    destruct (IH k x Hk) as (-> & i & t & c & -> & Hv & Hc & Hno & Hnext).
    split; [done|]. exists (S i), t, c. repeat split; try done.
    intros [|j] t' Hj; [simpl; congruence|]. simpl. apply Hno. lia.
  - destruct k as [|k]; [done|]. simpl in Hk.
    destruct (IH k x Hk) as (-> & i & t & c & -> & Hv & Hc & Hno & Hnext).
    apply not_elem_of_cons in Hc as [Hne Hc].
    split; [done|]. exists (S i), t, c. repeat split; try done.
    intros [|j] t' Hj; [simpl; congruence|]. simpl. apply Hno. lia.
  - destruct k as [|[|[|k]]]; try done.
    simpl in Hk. injection Hk as <-. split; [done|].
    exists 0%nat, t0, c0. repeat split; try done. intros j t' Hj. lia.
  - destruct k as [|[|[|k]]]; try done.
    + simpl in Hk. injection Hk as <-. split; [done|].
      exists 0%nat, t0, c0. repeat split; try done.
      * intros j t' Hj. lia.
      * intros e He. simpl in He. by injection He as <-.
    + simpl in Hk.
      destruct (IH k x Hk) as (-> & i & t & c & -> & Hv & Hc & Hno & Hnext).
      apply not_elem_of_cons in Hc as [Hne Hc].
      split; [done|]. exists (S (S (S i))), t, c. repeat split; try done.
      intros [|[|[|j]]] t' Hj; try done; [simpl; congruence|]. simpl. apply Hno. lia.
Qed.

Lemma log_ok_later_step threshold visited log :
  log_ok threshold visited log →
  ∀ i t c n, log !! i = Some (Step t c n) →
    (n ≠ 1%nat ∨ c ∈ visited ∨ ∃ j t', (j < i)%nat ∧ log !! j = Some (Step t' c 1)) →
    ∀ e, log !! (S i) = Some e → ∃ s, e = CallSelect s.
Proof.
  induction 1 as [v|v s l _ IH|v a l _ IH|v e0 l _ IH|v t0 c0 n0 l Hn0 _ IH Hhead
                 |v t0 c0 l _ IH Hhead|v t0 c0 Hfresh|v t0 c0 l Hfresh _ IH Hhead];
    intros i t c n Hi Hseen e He.
  - done.
  - destruct i as [|i]; [done|]. simpl in Hi, He. apply (IH i t c n Hi); [|done].
    destruct Hseen as [?|[?|(j & t' & Hj & Hv)]]; [by left|by right; left|right; right].
    destruct j as [|j]; [done|]. exists j, t'. split; [lia|done].
  - destruct i as [|i]; [done|]. simpl in Hi, He. apply (IH i t c n Hi); [|done].
    destruct Hseen as [?|[?|(j & t' & Hj & Hv)]]; [by left|by right; left|right; right].
    destruct j as [|j]; [done|]. exists j, t'. split; [lia|done].
  - destruct i as [|i]; [done|]. simpl in Hi, He. apply (IH i t c n Hi); [|done].
    destruct Hseen as [?|[?|(j & t' & Hj & Hv)]]; [by left|by right; left|right; right].
    destruct j as [|j]; [done|]. exists j, t'. split; [lia|done].
  - destruct i as [|i].
    + simpl in He. destruct Hhead as [->|(s & l' & ->)]; [done|].
      simpl in He. injection He as <-. eauto.
    + simpl in Hi, He. apply (IH i t c n Hi); [|done].
      destruct Hseen as [?|[?|(j & t' & Hj & Hv)]]; [by left|by right; left|right; right].
      destruct j as [|j]; [simpl in Hv; congruence|]. exists j, t'. split; [lia|done].
  - destruct i as [|i].
    + simpl in He. destruct Hhead as [->|(s & l' & ->)]; [done|].
      simpl in He. injection He as <-. eauto.
    + simpl in Hi, He. apply (IH i t c n Hi); [|done].
      destruct Hseen as [?|[?|(j & t' & Hj & Hv)]];
        [by left|right; left; by apply list_elem_of_further|].
      destruct j as [|j].
      * simpl in Hv. injection Hv as _ <-. right; left. apply list_elem_of_here.
      * right; right. exists j, t'. split; [lia|done].
  - destruct i as [|[|i]]; try done.
    simpl in Hi. injection Hi as <- <- <-.
    destruct Hseen as [?|[?|(j & t' & Hj & _)]]; [done|done|lia].
  - destruct i as [|[|[|i]]]; try done.
    + simpl in Hi. injection Hi as <- <- <-.
      destruct Hseen as [?|[?|(j & t' & Hj & _)]]; [done|done|lia].
    + simpl in Hi, He. apply (IH i t c n Hi); [|done].
      destruct Hseen as [?|[?|(j & t' & Hj & Hv)]];
        [by left|right; left; by apply list_elem_of_further|].
      destruct j as [|[|[|j]]]; try done.
      * simpl in Hv. injection Hv as _ <-. right; left. apply list_elem_of_here.
      * right; right. exists j, t'. split; [lia|done].
Qed.

Section GenerateClaim.
Context {T A : Type} `{Task T} `{Agent T A}.

(** C8. In the record of any run of [generate], whole or cut short:
    - a call of [augment_assignments(c)] comes right after a call of
      [prune_hypothesis_space] with the run's threshold, which comes right
      after the mark of a first step of a trial in context [c]; no first
      step of a trial in context [c] was marked before it; and what follows
      the call is action selection;
    - every call of [prune_hypothesis_space] is of this kind, followed by
      the [augment_assignments] call of the context being entered;
    - so each of the two is called at most once for a context;
    - a step that is not the first of its trial, and the first step of a
      trial in a context entered before, are followed directly by action
      selection. *)
Theorem generate_first_visit_only fuel threshold (task : T) (self : A) :
  let log := (generate fuel threshold task self).1 in
  (∀ k c, log !! k = Some (CallAugment c) →
     ∃ i t, k = S (S i) ∧ log !! i = Some (Step t c 1) ∧
       log !! (S i) = Some (CallPrune threshold) ∧
       (∀ j t', (j < i)%nat → log !! j ≠ Some (Step t' c 1)) ∧
       (∀ e, log !! (S k) = Some e → ∃ s, e = CallSelect s)) ∧
  (∀ k x, log !! k = Some (CallPrune x) →
     x = threshold ∧
     ∃ i t c, k = S i ∧ log !! i = Some (Step t c 1) ∧
       (∀ j t', (j < i)%nat → log !! j ≠ Some (Step t' c 1)) ∧
       (∀ e, log !! (S k) = Some e → e = CallAugment c)) ∧
  (∀ k1 k2 c, log !! k1 = Some (CallAugment c) → log !! k2 = Some (CallAugment c) →
     k1 = k2) ∧
  (∀ i1 i2 t1 t2 c n1 n2 x1 x2,
     log !! i1 = Some (Step t1 c n1) → log !! (S i1) = Some (CallPrune x1) →
     log !! i2 = Some (Step t2 c n2) → log !! (S i2) = Some (CallPrune x2) →
     i1 = i2) ∧
  (∀ i t c n, log !! i = Some (Step t c n) →
     (n ≠ 1%nat ∨ ∃ j t', (j < i)%nat ∧ log !! j = Some (Step t' c 1)) →
     ∀ e, log !! (S i) = Some e → ∃ s, e = CallSelect s).
Proof.
  intros log. pose proof (generate_log fuel threshold task self) as Hlog.
  fold log in Hlog. clearbody log.
  split; [|split; [|split; [|split]]].
  - intros k c Hk.
    destruct (log_ok_augment _ _ _ Hlog k c Hk) as (i & t & -> & Hv & Hp & _ & Hno & Hnext).
    exists i, t. repeat split; done.
  - intros k x Hk.
    destruct (log_ok_prune _ _ _ Hlog k x Hk) as (-> & i & t & c & -> & Hv & _ & Hno & Hnext).
    split; [done|]. exists i, t, c. repeat split; done.
  - intros k1 k2 c Hk1 Hk2.
    destruct (log_ok_augment _ _ _ Hlog k1 c Hk1) as (i1 & t1 & -> & Hv1 & _ & _ & Hno1 & _).
    destruct (log_ok_augment _ _ _ Hlog k2 c Hk2) as (i2 & t2 & -> & Hv2 & _ & _ & Hno2 & _).
    destruct (Nat.lt_trichotomy i1 i2) as [Hlt|[->|Hlt]]; [|done|].
    + by destruct (Hno2 i1 t1 Hlt).
    + by destruct (Hno1 i2 t2 Hlt).
  - intros i1 i2 t1 t2 c n1 n2 x1 x2 Hv1 Hp1 Hv2 Hp2.
    destruct (log_ok_prune _ _ _ Hlog _ _ Hp1)
      as (_ & i1' & t1' & c1' & [= <-] & Hv1' & _ & Hno1 & _).
    destruct (log_ok_prune _ _ _ Hlog _ _ Hp2)
      as (_ & i2' & t2' & c2' & [= <-] & Hv2' & _ & Hno2 & _).
    rewrite Hv1 in Hv1'. injection Hv1' as <- <- ->.
    rewrite Hv2 in Hv2'. injection Hv2' as <- <- ->.
    destruct (Nat.lt_trichotomy i1 i2) as [Hlt|[->|Hlt]]; [|done|].
    + by destruct (Hno2 i1 t1 Hlt).
    + by destruct (Hno1 i2 t2 Hlt).
  - intros i t c n Hvi Hseen e He.
    apply (log_ok_later_step _ _ _ Hlog i t c n Hvi); [|done].
    destruct Hseen as [?|?]; [by left|by right; right].
Qed.

End GenerateClaim.

(** A run over three trials in the contexts 0, 1, 0, with two steps in the
    first trial: the two calls are made on entering the first and the second
    trial, not on the second step of the first trial and not on the return
    to context 0. *)
Example generate_three_trials :
  let task := {| st_n_trials := 3; st_n_ctx := 2; st_key := ∅;
                 st_script := [ (0, ((0, 0), 0)); (0, ((0, 1), 0));
                                (1, ((0, 0), 1)); (2, ((0, 0), 0)) ] |} in
  (λ e, match e with
        | Step t c n => Some (inl (t, c, n))
        | CallPrune _ => Some (inr None)
        | CallAugment c => Some (inr (Some c))
        | _ => None
        end) <$> (generate 10 1000 task tt).1
  = [ Some (inl (0, 0, 1%nat)); Some (inr None); Some (inr (Some 0)); None; None; None;
      Some (inl (0, 0, 2%nat)); None; None; None;
      Some (inl (1, 1, 1%nat)); Some (inr None); Some (inr (Some 1)); None; None; None;
      Some (inl (2, 0, 1%nat)); None; None; None ].
Proof. reflexivity. Qed.

Lemma generate_first_visit_only_witness :
  let task := {| st_n_trials := 3; st_n_ctx := 2; st_key := ∅;
                 st_script := [ (0, ((0, 0), 0)); (0, ((0, 1), 0));
                                (1, ((0, 0), 1)); (2, ((0, 0), 0)) ] |} in
  ∃ i t, 12%nat = S (S i) ∧ (generate 10 1000 task tt).1 !! i = Some (Step t 1 1).
Proof.
  intros task.
  destruct (generate_first_visit_only 10 1000 task tt) as [Haug _].
  destruct (Haug 12%nat 1) as (i & t & Hk & Hv & _).
  - reflexivity.
  - exists i, t. split; [exact Hk|exact Hv].
Defined.

(** * Further properties of the code *)

(** ** The enumerator *)

(** X1. For every N, [enumerate_assignments(N)] lists each canonical
    assignment of the contexts [0 .. N-1] exactly once, and nothing else. *)
Theorem enumerate_assignments_exactly_canonical (N : nat) :
  ∃ l, enumerate_assignments (Z.of_nat N) = Ok l ∧ NoDup l ∧
       ∀ a, a ∈ l ↔ canonical N a.
Proof.
  exists (all_extensions N). split; [apply enumerate_assignments_all_extensions|].
  split; [apply all_extensions_NoDup|].
  intros a. symmetry. apply canonical_all_extensions.
Qed.

Lemma filter_length_ext_in {A} (P Q : A → Prop) `{!∀ x, Decision (P x)}
    `{!∀ x, Decision (Q x)} (l : list A) :
  (∀ x, x ∈ l → P x ↔ Q x) → length (filter P l) = length (filter Q l).
Proof.
  induction l as [|x l IH]; intros Hext; [done|].
  rewrite !list.filter_cons.
  pose proof (Hext x (list_elem_of_here _ _)) as Hx.
  assert (length (filter P l) = length (filter Q l)) as Hl.
  { apply IH. intros y Hy. apply Hext. by apply list_elem_of_further. }
  repeat case_decide; simpl; try tauto; by rewrite Hl.
Qed.

(** X2. Of the assignments [enumerate_assignments(N)] returns, exactly
    S(N, k) use [k] distinct clusters, S the Stirling numbers of the second
    kind. *)
Theorem enumerate_assignments_by_clusters (N k : nat) :
  ∃ l, enumerate_assignments (Z.of_nat N) = Ok l ∧
       length (filter (λ a, distinct_clusters a = k) l) = stirling2 N k.
Proof.
  exists (all_extensions N). split; [apply enumerate_assignments_all_extensions|].
  rewrite <- count_clusters_all_extensions. unfold count_clusters.
  apply filter_length_ext_in. intros a Ha.
  apply canonical_all_extensions in Ha.
  pose proof (canonical_distinct_clusters N a Ha). lia.
Qed.

Lemma augment_loop_empty_later l c :
  ∅ ∈ l → augment_loop l c = Raise ValueError.
Proof.
  induction l as [|a l IH]; intros Hin; [by apply elem_of_nil in Hin|].
  cbn [augment_loop]. destruct (decide (a = ∅)) as [->|Hne]; [reflexivity|].
  rewrite augment_one_nonempty by done. cbn [bind].
  apply elem_of_cons in Hin as [Heq|Hin]; [congruence|].
  by rewrite IH.
Qed.

(** X3. [augment_assignments] looks at the first assignment only to choose
    its branch. When the first assignment is empty the result is the single
    assignment [{new_context: 0}], whatever else the list holds. When it is
    not, the call raises [ValueError] if a later assignment is empty, and
    otherwise returns the children of every assignment in input order, each
    group by ascending cluster index. *)
Theorem augment_assignments_branches (a : assignment) (rest : list assignment) (c : Z) :
  augment_assignments (∅ :: rest) c = Ok [ {[ c := 0 ]} ] ∧
  (a ≠ ∅ → ∅ ∈ rest → augment_assignments (a :: rest) c = Raise ValueError) ∧
  (a ≠ ∅ → ∅ ∉ rest →
     augment_assignments (a :: rest) c
     = Ok ((a :: rest) ≫= λ p, (λ k, <[c := k]> p) <$> seqZ 0 (n_clusters p + 1))).
Proof.
  split; [|split].
  - by rewrite augment_assignments_cons, decide_True.
  - intros Hne Hin. rewrite augment_assignments_cons, decide_False by done.
    apply augment_loop_empty_later. by apply list_elem_of_further.
  - intros Hne Hnin. apply (augment_assignments_extend (a :: rest) c).
    right. split; [done|]. constructor; [done|].
    apply list.Forall_forall. intros x Hx ->. done.
Qed.

Lemma augment_assignments_branches_witness :
  augment_assignments [ {[ 0 := 0 ]}; ∅ ] 1 = Raise ValueError ∧
  augment_assignments [ {[ 0 := 0 ]}; {[ 0 := 0 ]} ] 1
  = Ok ([ {[ 0 := 0 ]}; {[ 0 := 0 ]} ]
          ≫= λ p : assignment, (λ k, <[1 := k]> p) <$> seqZ 0 (n_clusters p + 1)).
Proof.
  split.
  - apply (augment_assignments_branches {[ 0 := 0 ]} [∅] 1); [done|].
    apply list_elem_of_here.
  - apply (augment_assignments_branches {[ 0 := 0 ]} [ {[ 0 := 0 ]} ] 1); [done|].
    by apply (bool_decide_unpack _).
Defined.

(** ** Displacements and abstract actions *)

(** X4. [displacement_to_abstract_action] returns 0, 1, 2, 3 for the unit
    steps (1,0), (-1,0), (0,1), (0,-1) and for nothing else; every other
    displacement, the null one included, gives -1. *)
Theorem displacement_to_abstract_action_cardinal (dx dy : Z) :
  let r := displacement_to_abstract_action dx dy in
  (r = 0 ↔ dx = 1 ∧ dy = 0) ∧ (r = 1 ↔ dx = -1 ∧ dy = 0) ∧
  (r = 2 ↔ dx = 0 ∧ dy = 1) ∧ (r = 3 ↔ dx = 0 ∧ dy = -1) ∧
  (r = -1 ↔ Z.abs dx + Z.abs dy ≠ 1) ∧ -1 ≤ r ≤ 3.
Proof.
  unfold displacement_to_abstract_action.
  repeat (case_bool_decide; simpl); lia.
Qed.

(** X5. Reversing a transition reverses its abstract action: 0 and 1 swap,
    2 and 3 swap, and a transition that is no unit step (-1) stays one.
    A state missing from the dictionary raises [KeyError]. *)
Theorem ModelBasedAgent_transitions_to_actions_reverse (key : gmap Z location) (s sp : Z) :
  (key !! s = None → ModelBasedAgent_transitions_to_actions key s sp = Raise KeyError) ∧
  ∀ aa, ModelBasedAgent_transitions_to_actions key s sp = Ok aa →
    ModelBasedAgent_transitions_to_actions key sp s
    = Ok (if decide (aa = 0) then 1 else if decide (aa = 1) then 0
          else if decide (aa = 2) then 3 else if decide (aa = 3) then 2 else -1).
Proof.
  unfold ModelBasedAgent_transitions_to_actions, dict_getitem. split.
  - by intros ->.
  - intros aa. destruct (key !! s) as [[x y]|]; [|discriminate].
    destruct (key !! sp) as [[xp yp]|]; [|discriminate]. cbn [bind].
    intros [= <-]. f_equal. unfold displacement_to_abstract_action.
    repeat (case_bool_decide; simpl); repeat case_decide; lia.
Qed.

Lemma ModelBasedAgent_transitions_to_actions_reverse_witness :
  ModelBasedAgent_transitions_to_actions {[ 0 := (0, 0); 1 := (1, 0) ]} 1 0 = Ok 1.
Proof.
  destruct (ModelBasedAgent_transitions_to_actions_reverse
              {[ 0 := (0, 0); 1 := (1, 0) ]} 0 1) as [_ H].
  apply (H 0). reflexivity.
Defined.

(** ** Sampling and distributions *)

Local Open Scope R_scope.

Lemma sample_cmf_cons rand x cmf :
  sample_cmf rand (x :: cmf)
  = ((if decide (rand > x)%R then 1 else 0) + sample_cmf rand cmf)%nat.
Proof. reflexivity. Qed.

Lemma sample_cmf_le_length rand cmf : (sample_cmf rand cmf ≤ length cmf)%nat.
Proof.
  induction cmf as [|x cmf IH]; [done|].
  rewrite sample_cmf_cons. simpl. case_decide; lia.
Qed.

Lemma nondecreasing_tail x xs : nondecreasing (x :: xs) → nondecreasing xs.
Proof. intros Hs i j a b Hij Ha Hb. apply (Hs (S i) (S j) a b); [lia|done|done]. Qed.

Lemma sample_cmf_none_below rand cmf :
  (∀ x, x ∈ cmf → rand <= x) → sample_cmf rand cmf = 0%nat.
Proof.
  induction cmf as [|x cmf IH]; intros Hall; [done|].
  rewrite sample_cmf_cons, IH.
  - rewrite decide_False; [done|].
    pose proof (Hall x (list_elem_of_here _ _)). unfold Rgt. lra.
  - intros y Hy. apply Hall. by apply list_elem_of_further.
Qed.

(** X6. On a vector that does not decrease, [sample_cmf] returns the index
    of the first entry that reaches the drawn number: the entries before the
    returned index are below the draw and the entries from it on are not.
    The index is the length of the vector when no entry reaches the draw. *)
Theorem sample_cmf_first_reached (rand : R) (cmf : list R) :
  nondecreasing cmf →
  (sample_cmf rand cmf ≤ length cmf)%nat ∧
  ∀ i x, cmf !! i = Some x → (i < sample_cmf rand cmf)%nat ↔ x < rand.
Proof.
  intros Hs. split; [apply sample_cmf_le_length|].
  induction cmf as [|y cmf IH]; intros i x Hi; [done|].
  rewrite sample_cmf_cons. destruct (decide (rand > y)) as [Hy|Hy].
  - destruct i as [|i].
    + simpl in Hi. injection Hi as <-. unfold Rgt in Hy. split; [done|lia].
    + simpl in Hi. rewrite <- (IH (nondecreasing_tail _ _ Hs) i x Hi). lia.
  - rewrite sample_cmf_none_below.
    + assert (y <= x) as Hyx.
      { apply (Hs 0%nat i y x); [lia|done|done]. }
      unfold Rgt in Hy. split; [lia|lra].
    + intros z Hz. apply list_elem_of_lookup in Hz as [j Hj].
      assert (y <= z) by (apply (Hs 0%nat (S j) y z); [lia|done|done]).
      unfold Rgt in Hy. lra.
Qed.

Lemma sample_cmf_first_reached_witness :
  ∃ k, sample_cmf (1/2) [1/4; 3/4; 1] = k ∧ (k ≤ 3)%nat.
Proof.
  eexists. split; [reflexivity|].
  apply (sample_cmf_first_reached (1/2) [1/4; 3/4; 1]).
  intros [|[|[|i]]] [|[|[|j]]] x y Hij Hx Hy; simpl in Hx, Hy;
    try discriminate; try lia;
    injection Hx as <-; injection Hy as <-; lra.
Defined.

Lemma np_sum_cons x xs : np_sum (x :: xs) = x + np_sum xs.
Proof. reflexivity. Qed.

Lemma np_sum_div xs s : np_sum ((λ x, x / s) <$> xs) = np_sum xs / s.
Proof.
  induction xs as [|x xs IH].
  - simpl. unfold Rdiv. by rewrite Rmult_0_l.
  - rewrite fmap_cons, !np_sum_cons, IH. unfold Rdiv. by rewrite Rmult_plus_distr_r.
Qed.

Lemma np_sum_exp_pos (qs : list R) b :
  qs ≠ [] → 0 < np_sum ((λ q, exp (q * b)) <$> qs).
Proof.
  destruct qs as [|q qs]; [done|]. intros _. rewrite fmap_cons, np_sum_cons.
  assert (0 <= np_sum ((λ q, exp (q * b)) <$> qs)) as Hrest.
  { induction qs as [|q' qs IH]; [simpl; lra|].
    rewrite fmap_cons, np_sum_cons. pose proof (exp_pos (q' * b)). lra. }
  pose proof (exp_pos (q * b)). lra.
Qed.

(** X7. For a non-empty vector of values, [softmax_to_pdf] returns a
    probability vector of the same length: every entry is positive and the
    entries sum to 1. *)
Theorem softmax_to_pdf_distribution (q_values : list R) (inverse_temperature : R) :
  q_values ≠ [] →
  length (softmax_to_pdf q_values inverse_temperature) = length q_values ∧
  Forall (λ x, 0 < x) (softmax_to_pdf q_values inverse_temperature) ∧
  np_sum (softmax_to_pdf q_values inverse_temperature) = 1.
Proof.
  intros Hne. unfold softmax_to_pdf.
  pose proof (np_sum_exp_pos q_values inverse_temperature Hne) as Hpos.
  split; [by rewrite !length_fmap|]. split.
  - apply list.Forall_forall. intros x Hx.
    apply list_elem_of_fmap in Hx as [e [-> He]].
    apply list_elem_of_fmap in He as [q [-> _]].
    apply Rdiv_lt_0_compat; [apply exp_pos|done].
  - rewrite np_sum_div. field. lra.
Qed.

Lemma softmax_to_pdf_distribution_witness :
  np_sum (softmax_to_pdf [0; 1] 100) = 1.
Proof. by apply (softmax_to_pdf_distribution [0; 1] 100). Defined.

(** X8. [softmax_to_pdf] does not change when the same number is added to
    every value. *)
Theorem softmax_to_pdf_shift (q_values : list R) (inverse_temperature shift : R) :
  softmax_to_pdf ((λ q, q + shift) <$> q_values) inverse_temperature
  = softmax_to_pdf q_values inverse_temperature.
Proof.
  unfold softmax_to_pdf. rewrite <- !list_fmap_compose.
  set (k := exp (shift * inverse_temperature)).
  assert (0 < k) as Hk by apply exp_pos.
  assert (Hexp : ∀ q, exp ((q + shift) * inverse_temperature)
                      = exp (q * inverse_temperature) * k).
  { intros q. unfold k. rewrite <- exp_plus. f_equal. ring. }
  assert (Hsum : np_sum (((λ q, exp (q * inverse_temperature)) ∘ (λ q, q + shift))
                           <$> q_values)
                 = np_sum ((λ q, exp (q * inverse_temperature)) <$> q_values) * k).
  { induction q_values as [|q qs IH]; [simpl; ring|].
    rewrite !fmap_cons, !np_sum_cons, IH. simpl. rewrite Hexp. ring. }
  rewrite Hsum. apply list_fmap_ext. intros i q _. simpl. rewrite Hexp.
  destruct (decide (np_sum ((λ q, exp (q * inverse_temperature)) <$> q_values) = 0))
    as [H0|H0].
  - rewrite H0, Rmult_0_l. unfold Rdiv. rewrite Rinv_0. ring.
  - field. split; lra.
Qed.

(** ** The divergence of two distributions *)

Lemma kl_divergence_acc (f := λ (d : R) (qp : R * R),
    if bool_decide (qp.2 > 0) && bool_decide (qp.1 > 0)
    then d + qp.2 * np_log2 (qp.2 / qp.1) else d) d l :
  foldl f d l = d + foldl f 0 l.
Proof.
  revert d; induction l as [|qp l IH]; intros d; simpl; [lra|].
  rewrite (IH (f d qp)), (IH (f 0 qp)). unfold f.
  destruct (bool_decide _ && bool_decide _); lra.
Qed.

Lemma kl_divergence_cons q_ii p_ii q p :
  kl_divergence (q_ii :: q) (p_ii :: p)
  = (if bool_decide (p_ii > 0) && bool_decide (q_ii > 0)
     then p_ii * np_log2 (p_ii / q_ii) else 0) + kl_divergence q p.
Proof.
  unfold kl_divergence. cbn [zip zip_with foldl]. rewrite kl_divergence_acc. cbn [fst snd].
  destruct (bool_decide _ && bool_decide _); lra.
Qed.

(** X9. The divergence of a vector from itself is 0. *)
Theorem kl_divergence_self (p : list R) : kl_divergence p p = 0.
Proof.
  induction p as [|x p IH]; [reflexivity|].
  rewrite kl_divergence_cons, IH.
  destruct (bool_decide (x > 0)) eqn:E; simpl; [|lra].
  apply bool_decide_eq_true in E. unfold np_log2, Rgt in *.
  replace (x / x) with 1 by (field; lra). rewrite ln_1. unfold Rdiv. ring.
Qed.

Lemma ln_le_minus_1 y : 0 < y → ln y <= y - 1.
Proof.
  intros Hy. pose proof (exp_ineq1_le (ln y)) as H. rewrite exp_ln in H by done. lra.
Qed.

Lemma kl_term_lower q p : 0 < q → 0 < p → (p - q) / ln 2 <= p * np_log2 (p / q).
Proof.
  intros Hq Hp. assert (0 < ln 2) as Hln by (apply ln_gt_0; lra).
  unfold np_log2.
  assert (p - q <= p * ln (p / q)) as Hmain.
  { replace (p / q) with (/ (q / p)) by (field; lra).
    assert (0 < q / p) as Hqp by (apply Rdiv_lt_0_compat; lra).
    rewrite ln_Rinv by done.
    pose proof (ln_le_minus_1 (q / p) Hqp) as Hle.
    assert (p * ln (q / p) <= p * (q / p - 1)) as H1
      by (apply Rmult_le_compat_l; lra).
    replace (p * (q / p - 1)) with (q - p) in H1 by (field; lra). lra. }
  replace (p * (ln (p / q) / ln 2)) with (p * ln (p / q) / ln 2) by (field; lra).
  apply Rmult_le_compat_r; [|done].
  apply Rlt_le, Rinv_0_lt_compat, Hln.
Qed.

Lemma kl_divergence_lower q p :
  length q = length p → Forall (λ x, 0 < x) q → Forall (λ x, 0 < x) p →
  (np_sum p - np_sum q) / ln 2 <= kl_divergence q p.
Proof.
  intros Hlen Hq. revert p Hlen. induction Hq as [|x q Hx Hq IH]; intros p Hlen Hp.
  - destruct p; [|discriminate]. unfold kl_divergence. simpl. unfold Rdiv. lra.
  - destruct p as [|y p]; [discriminate|].
    apply list.Forall_cons in Hp as [Hy Hp].
    rewrite kl_divergence_cons, !np_sum_cons.
    rewrite !bool_decide_eq_true_2 by (unfold Rgt; done). simpl.
    specialize (IH p ltac:(simpl in Hlen; lia) Hp).
    pose proof (kl_term_lower x y Hx Hy) as Hterm.
    assert (0 < ln 2) as Hln by (apply ln_gt_0; lra).
    replace ((y + np_sum p - (x + np_sum q)) / ln 2)
      with ((y - x) / ln 2 + (np_sum p - np_sum q) / ln 2) by (field; lra).
    lra.
Qed.

(** X10. For two vectors of positive numbers of the same length and the
    same sum, two distributions in particular, the divergence is not
    negative. *)
Theorem kl_divergence_nonneg (q p : list R) :
  length q = length p → Forall (λ x, 0 < x) q → Forall (λ x, 0 < x) p →
  np_sum q = np_sum p →
  0 <= kl_divergence q p.
Proof.
  intros Hlen Hq Hp Hsum. pose proof (kl_divergence_lower q p Hlen Hq Hp) as H.
  rewrite Hsum in H. replace (np_sum p - np_sum p) with 0 in H by ring.
  unfold Rdiv in H. rewrite Rmult_0_l in H. done.
Qed.

Lemma kl_divergence_nonneg_witness : 0 <= kl_divergence [1/4; 3/4] [1/2; 1/2].
Proof.
  apply kl_divergence_nonneg.
  - reflexivity.
  - repeat constructor; lra.
  - repeat constructor; lra.
  - unfold np_sum. simpl. lra.
Defined.

(** ** Pruning again and again *)

Lemma np_max_unique xs M :
  M ∈ xs → (∀ x, x ∈ xs → x <= M) → np_max xs = Ok M.
Proof.
  intros Hin Hub. destruct (np_max_nonempty xs) as [M' HM'].
  { intros ->. by apply elem_of_nil in Hin. }
  destruct (np_max_Ok _ _ HM') as [Hub' Hin'].
  rewrite HM'. f_equal. apply Rle_antisym; auto.
Qed.

Lemma zip_belief_le {X} (log_belief : list R) (xs : list X) M row :
  np_max log_belief = Ok M → row ∈ zip log_belief xs → row.1 <= M.
Proof.
  intros HM Hrow. apply list_elem_of_lookup in Hrow as [i Hi].
  apply lookup_zip_inv in Hi as [Hb _].
  destruct (np_max_Ok _ _ HM) as [Hub _]. apply Hub.
  apply list_elem_of_lookup. eauto.
Qed.

Lemma retained_idem {X} M threshold (rows : list (R * X)) :
  retained M threshold (retained M threshold rows) = retained M threshold rows.
Proof. unfold retained. by apply list_filter_filter_r. Qed.

Lemma ln_nonpos threshold : threshold <= 1 → ln threshold <= 0.
Proof.
  intros Ht. destruct (decide (0 < threshold)) as [Hpos|Hneg].
  - destruct (decide (threshold = 1)) as [->|Hne]; [rewrite ln_1; lra|].
    rewrite <- ln_1. apply Rlt_le, ln_increasing; lra.
  - unfold ln. destruct (Rlt_dec 0 threshold); [done|lra].
Qed.

Lemma retained_threshold_le_1 {X} M threshold (rows : list (R * X)) :
  threshold <= 1 → (∀ row, row ∈ rows → row.1 <= M) →
  retained M threshold rows = [].
Proof.
  intros Ht. pose proof (ln_nonpos threshold Ht) as Hln.
  induction rows as [|row rows IH]; intros Hle; [done|].
  rewrite retained_cons_False.
  - apply IH. intros r Hr. apply Hle. by apply list_elem_of_further.
  - pose proof (Hle row (list_elem_of_here _ _)). lra.
Qed.

Lemma retained_max_belief {X} M threshold (log_belief : list R) (xs : list X) :
  1 < threshold → length xs = length log_belief → np_max log_belief = Ok M →
  np_max ((retained M threshold (zip log_belief xs)).*1) = Ok M.
Proof.
  intros Ht Hlen HM. destruct (np_max_Ok _ _ HM) as [_ Hin].
  destruct (zip_has_max log_belief xs M Hlen Hin) as [row [Hrow Hrow1]].
  apply np_max_unique.
  - apply list_elem_of_fmap. exists row. split; [done|]. by apply retained_max.
  - intros x Hx. apply list_elem_of_fmap in Hx as [r [-> Hr]].
    apply retained_sublist in Hr. by eapply zip_belief_le.
Qed.

Lemma retained_monotone {X} M t1 t2 (rows : list (R * X)) :
  0 < t1 → t1 <= t2 →
  retained M t1 rows `sublist_of` retained M t2 rows.
Proof.
  intros H1 H12.
  assert (retained M t1 rows = retained M t1 (retained M t2 rows)) as ->.
  { unfold retained. symmetry. apply list_filter_filter_l.
    intros row. rewrite !np_lt_np_log. intros [_ Hlt]. split; [lra|].
    destruct (decide (t1 = t2)) as [->|Hne]; [done|].
    pose proof (ln_increasing t1 t2 H1 ltac:(lra)). lra. }
  unfold retained at 1. apply sublist_filter.
Qed.

Section PruningAgain.
Context {RH MH : Type}.

(** X11. With a threshold above 1 pruning is idempotent: pruning the
    pruned population again with the same threshold returns it unchanged,
    in the joint agent and in the independent agent. *)
Theorem prune_hypothesis_space_idempotent (threshold : R) :
  1 < threshold →
  (∀ jc : JointClustering RH MH,
     jc_aligned jc → jc_log_belief jc ≠ [] →
     ∃ jc', JointClustering_prune_hypothesis_space threshold jc = Ok jc' ∧
            JointClustering_prune_hypothesis_space threshold jc' = Ok jc') ∧
  (∀ ic : IndependentClusterAgent RH MH,
     ic_aligned ic → ic_log_belief_rew ic ≠ [] → ic_log_belief_map ic ≠ [] →
     ∃ ic', IndependentClusterAgent_prune_hypothesis_space threshold ic = Ok ic' ∧
            IndependentClusterAgent_prune_hypothesis_space threshold ic' = Ok ic').
Proof.
  intros Ht. split.
  - intros jc Hal Hne. destruct (np_max_nonempty _ Hne) as [M HM].
    eexists. split; [by apply JointClustering_prune_retained|].
    rewrite (JointClustering_prune_retained threshold _ M).
    + by rewrite jc_rows_of_rows, retained_idem.
    + split; simpl; by rewrite !length_fmap.
    + simpl. apply retained_max_belief; [done| |done].
      destruct Hal. rewrite length_zip. lia.
  - intros ic [Hlr Hlm] Hner Hnem.
    destruct (np_max_nonempty _ Hner) as [Mr HMr].
    destruct (np_max_nonempty _ Hnem) as [Mm HMm].
    eexists. split; [by apply IndependentClusterAgent_prune_retained|].
    rewrite (IndependentClusterAgent_prune_retained threshold _ Mr Mm).
    + unfold ic_rows_rew, ic_rows_map. simpl.
      by rewrite !ic_rows_of_rows, !retained_idem.
    + split; simpl; by rewrite !length_fmap.
    + simpl. by apply retained_max_belief.
    + simpl. by apply retained_max_belief.
Qed.

(** X12. With a threshold of 1 or less, pruning removes every hypothesis of
    any population, and pruning the emptied population once more, with any
    threshold, raises [ValueError]. *)
Theorem prune_hypothesis_space_empties (threshold threshold' : R) :
  threshold <= 1 →
  (∀ jc : JointClustering RH MH,
     jc_aligned jc → jc_log_belief jc ≠ [] →
     ∃ jc', JointClustering_prune_hypothesis_space threshold jc = Ok jc' ∧
            jc_reward_hypotheses jc' = [] ∧ jc_mapping_hypotheses jc' = [] ∧
            jc_log_belief jc' = [] ∧
            JointClustering_prune_hypothesis_space threshold' jc' = Raise ValueError) ∧
  (∀ ic : IndependentClusterAgent RH MH,
     ic_aligned ic → ic_log_belief_rew ic ≠ [] → ic_log_belief_map ic ≠ [] →
     ∃ ic', IndependentClusterAgent_prune_hypothesis_space threshold ic = Ok ic' ∧
            ic_reward_hypotheses ic' = [] ∧ ic_mapping_hypotheses ic' = [] ∧
            IndependentClusterAgent_prune_hypothesis_space threshold' ic'
            = Raise ValueError).
Proof.
  intros Ht. split.
  - intros jc Hal Hne. destruct (np_max_nonempty _ Hne) as [M HM].
    eexists. split; [by apply JointClustering_prune_retained|].
    rewrite retained_threshold_le_1; [done|done|].
    intros row Hrow. by eapply zip_belief_le.
  - intros ic Hal Hner Hnem.
    destruct (np_max_nonempty _ Hner) as [Mr HMr].
    destruct (np_max_nonempty _ Hnem) as [Mm HMm].
    eexists. split; [by apply IndependentClusterAgent_prune_retained|].
    rewrite !retained_threshold_le_1; [done|done| |done|].
    + intros row Hrow. by eapply zip_belief_le.
    + intros row Hrow. by eapply zip_belief_le.
Qed.

(** X13. Raising the threshold never removes more: what the joint agent
    keeps under a positive threshold is a sub-list of what it keeps under
    any larger one. *)
Theorem prune_hypothesis_space_monotone (t1 t2 : R) (jc : JointClustering RH MH) :
  0 < t1 → t1 <= t2 → jc_aligned jc → jc_log_belief jc ≠ [] →
  ∃ jc1 jc2, JointClustering_prune_hypothesis_space t1 jc = Ok jc1 ∧
             JointClustering_prune_hypothesis_space t2 jc = Ok jc2 ∧
             jc_rows jc1 `sublist_of` jc_rows jc2.
Proof.
  intros H1 H12 Hal Hne. destruct (np_max_nonempty _ Hne) as [M HM].
  eexists _, _. split; [by apply JointClustering_prune_retained|].
  split; [by apply JointClustering_prune_retained|].
  rewrite !jc_rows_of_rows. by apply retained_monotone.
Qed.

End PruningAgain.

Lemma prune_hypothesis_space_idempotent_witness :
  ∃ jc', JointClustering_prune_hypothesis_space 2
           (@JointClustering_init counting_hypothesis counting_hypothesis _ _) = Ok jc' ∧
         JointClustering_prune_hypothesis_space 2 jc' = Ok jc'.
Proof.
  assert (1 < 2) as Ht by lra.
  destruct (prune_hypothesis_space_idempotent
              (RH := counting_hypothesis) (MH := counting_hypothesis) 2 Ht) as [HJ _].
  apply (HJ JointClustering_init).
  - split; reflexivity.
  - discriminate.
Defined.

Lemma prune_hypothesis_space_empties_witness :
  ∃ jc', JointClustering_prune_hypothesis_space (1/2)
           (@JointClustering_init counting_hypothesis counting_hypothesis _ _) = Ok jc' ∧
         jc_reward_hypotheses jc' = [].
Proof.
  assert (1/2 <= 1) as Ht by lra.
  destruct (prune_hypothesis_space_empties
              (RH := counting_hypothesis) (MH := counting_hypothesis) (1/2) 50 Ht)
    as [HJ _].
  destruct (HJ JointClustering_init) as (jc' & H1 & H2 & _).
  - split; reflexivity.
  - discriminate.
  - exists jc'. split; [exact H1|exact H2].
Defined.

Lemma prune_hypothesis_space_monotone_witness :
  ∃ jc1 jc2,
    JointClustering_prune_hypothesis_space 2
      (@JointClustering_init counting_hypothesis counting_hypothesis _ _) = Ok jc1 ∧
    JointClustering_prune_hypothesis_space 50
      (@JointClustering_init counting_hypothesis counting_hypothesis _ _) = Ok jc2.
Proof.
  destruct (prune_hypothesis_space_monotone
              (RH := counting_hypothesis) (MH := counting_hypothesis)
              2 50 JointClustering_init) as (jc1 & jc2 & H1 & H2 & _).
  - lra.
  - lra.
  - split; reflexivity.
  - discriminate.
  - exists jc1, jc2. split; [exact H1|exact H2].
Defined.

Local Close Scope R_scope.

(** ** Growing the joint population *)

Lemma for_each_fmap_Ok {A B C} (f : B → result C) (g : A → B) (h : A → C) xs :
  (∀ x, x ∈ xs → f (g x) = Ok (h x)) → for_each f (g <$> xs) = Ok (h <$> xs).
Proof.
  induction xs as [|x xs IH]; intros Hf; [done|].
  csimpl. rewrite (Hf x (list_elem_of_here _ _)). cbn [bind].
  rewrite IH; [done|]. intros y Hy. apply Hf. by apply list_elem_of_further.
Qed.

Lemma for_each_Ok_fmap {A B} (f : A → result B) (h : A → B) xs :
  (∀ x, x ∈ xs → f x = Ok (h x)) → for_each f xs = Ok (h <$> xs).
Proof.
  intros Hf. rewrite <- (list_fmap_id xs) at 1. by apply for_each_fmap_Ok.
Qed.

Lemma concat_fmap_bind {A B} (f : A → list B) (xs : list A) :
  concat (f <$> xs) = xs ≫= f.
Proof. induction xs as [|x xs IH]; [done|]. csimpl. by rewrite IH. Qed.

Lemma fmap_bind_comm {A B C} (g : B → C) (f : A → list B) (xs : list A) :
  g <$> (xs ≫= f) = xs ≫= (λ x, g <$> f x).
Proof.
  induction xs as [|x xs IH]; [done|]. csimpl. by rewrite fmap_app, IH.
Qed.

Lemma bind_ext_in {A B} (f g : A → list B) (xs : list A) :
  (∀ x, x ∈ xs → f x = g x) → xs ≫= f = xs ≫= g.
Proof.
  induction xs as [|x xs IH]; intros Hfg; [done|]. csimpl.
  rewrite (Hfg x (list_elem_of_here _ _)), IH; [done|].
  intros y Hy. apply Hfg. by apply list_elem_of_further.
Qed.

Lemma bind_zip_fst {A B C} (f : A → list C) (xs : list A) (ys : list B) :
  length xs = length ys → zip xs ys ≫= (λ p, f p.1) = xs ≫= f.
Proof.
  revert ys; induction xs as [|x xs IH]; intros [|y ys] Hlen; try done.
  csimpl. rewrite IH; [done|]. simpl in Hlen. lia.
Qed.

Lemma bind_zip_snd {A B C} (f : B → list C) (xs : list A) (ys : list B) :
  length xs = length ys → zip xs ys ≫= (λ p, f p.2) = ys ≫= f.
Proof.
  revert ys; induction xs as [|x xs IH]; intros [|y ys] Hlen; try done.
  csimpl. rewrite IH; [done|]. simpl in Hlen. lia.
Qed.

Section JointGrowth.
Context {RH MH : Type} `{RewardHypothesis RH} `{MappingHypothesis MH}.
Context `{!RewardHypothesisLaws RH} `{!MappingHypothesisLaws MH}.
Implicit Types jc : JointClustering RH MH.

Lemma JointClustering_children_Ok c (p : RH * MH) :
  JointClustering_children c p = Ok (JointClustering_children_of c p).
Proof.
  destruct p as [h_r h_m].
  unfold JointClustering_children, JointClustering_children_of.
  rewrite augment_assignments_single. cbn [bind].
  unfold extend. apply for_each_fmap_Ok. intros k _.
  unfold dict_getitem. rewrite lookup_insert_eq. cbn [bind].
  by rewrite rh_deep_copy_eq, mh_deep_copy_eq.
Qed.

Lemma JointClustering_augment_assignments_Ok c jc :
  JointClustering_augment_assignments c jc
  = Ok (let new :=
          zip (jc_reward_hypotheses jc) (jc_mapping_hypotheses jc)
            ≫= JointClustering_children_of c in
        {| jc_reward_hypotheses := (λ x, x.1.1) <$> new;
           jc_mapping_hypotheses := (λ x, x.1.2) <$> new;
           jc_log_belief := (λ x, x.2) <$> new |}).
Proof.
  unfold JointClustering_augment_assignments.
  rewrite (for_each_Ok_fmap _ (JointClustering_children_of c)).
  2:{ intros p _. apply JointClustering_children_Ok. }
  cbn [bind]. by rewrite concat_fmap_bind.
Qed.

Lemma children_of_assignments_rew c (rs : list RH) (ms : list MH) :
  length rs = length ms →
  rh_get_assignments <$> ((λ x : RH * MH * R, x.1.1)
                            <$> (zip rs ms ≫= JointClustering_children_of c))
  = (rh_get_assignments <$> rs) ≫= extend c.
Proof.
  revert ms; induction rs as [|h_r rs IH]; intros [|h_m ms] Hlen; try done.
  csimpl. rewrite !fmap_app, IH by (simpl in Hlen; lia). f_equal.
  unfold JointClustering_children_of, extend. rewrite <- !list_fmap_compose.
  apply list_fmap_ext. intros i k _. simpl. apply rh_assignments_add.
Qed.

Lemma children_of_assignments_map c (rs : list RH) (ms : list MH) :
  rh_get_assignments <$> rs = mh_get_assignments <$> ms →
  mh_get_assignments <$> ((λ x : RH * MH * R, x.1.2)
                            <$> (zip rs ms ≫= JointClustering_children_of c))
  = (mh_get_assignments <$> ms) ≫= extend c.
Proof.
  revert ms; induction rs as [|h_r rs IH]; intros [|h_m ms] Hsh; try done.
  csimpl in Hsh. injection Hsh as Hhd Htl.
  csimpl. rewrite !fmap_app, IH by done. f_equal.
  unfold JointClustering_children_of, extend. rewrite <- !list_fmap_compose.
  simpl. rewrite Hhd.
  apply list_fmap_ext. intros i k _. simpl. apply mh_assignments_add.
Qed.

(** X14. [JointClustering.augment_assignments] never raises. It keeps the
    three vectors of the population aligned; the assignments of the new
    reward hypotheses are the children, in the enumerator's order, of the
    assignments of the old ones; and when the two hypotheses of every pair
    had the same assignment, they still have. *)
Theorem JointClustering_augment_assignments_grows (c : Z) jc :
  length (jc_reward_hypotheses jc) = length (jc_mapping_hypotheses jc) →
  ∃ jc', JointClustering_augment_assignments c jc = Ok jc' ∧
    jc_aligned jc' ∧
    rh_get_assignments <$> jc_reward_hypotheses jc'
    = (rh_get_assignments <$> jc_reward_hypotheses jc) ≫= extend c ∧
    (jc_shared jc → jc_shared jc').
Proof.
  intros Hlen. eexists. split; [apply JointClustering_augment_assignments_Ok|].
  cbn zeta.
  split; [unfold jc_aligned; cbn [jc_reward_hypotheses jc_mapping_hypotheses jc_log_belief];
          by rewrite !length_fmap|].
  cbn [jc_reward_hypotheses jc_mapping_hypotheses jc_log_belief].
  split; [by apply children_of_assignments_rew|].
  intros Hshared. unfold jc_shared in *.
  cbn [jc_reward_hypotheses jc_mapping_hypotheses].
  rewrite children_of_assignments_rew, children_of_assignments_map by done.
  by rewrite Hshared.
Qed.

Lemma JointClustering_augment_all_snoc cs c jc :
  JointClustering_augment_all (cs ++ [c]) jc
  = let* r := JointClustering_augment_all cs jc in JointClustering_augment_assignments c r.
Proof.
  revert jc; induction cs as [|c' cs IH]; intros jc; simpl.
  - by destruct (JointClustering_augment_assignments c jc).
  - destruct (JointClustering_augment_assignments c' jc); simpl; [apply IH|done].
Qed.

(** X15. A freshly built joint agent that meets the contexts 0, ..., N-1 in
    this order, without pruning, holds one pair of hypotheses per canonical
    assignment of the N contexts: the assignments of its pairs are the list
    [enumerate_assignments(N)] returns, Bell(N) in all. *)
Theorem JointClustering_augment_all_enumerates (N : nat) :
  ∃ jc l, JointClustering_augment_all (py_range 0 (Z.of_nat N))
            (JointClustering_init (RH := RH) (MH := MH)) = Ok jc ∧
    enumerate_assignments (Z.of_nat N) = Ok l ∧
    rh_get_assignments <$> jc_reward_hypotheses jc = l ∧
    mh_get_assignments <$> jc_mapping_hypotheses jc = l ∧
    length (jc_log_belief jc) = Bell N ∧ jc_aligned jc.
Proof.
  assert (∃ jc, JointClustering_augment_all (seqZ 0 (Z.of_nat N))
                  (JointClustering_init (RH := RH) (MH := MH)) = Ok jc ∧
            rh_get_assignments <$> jc_reward_hypotheses jc = all_extensions N ∧
            mh_get_assignments <$> jc_mapping_hypotheses jc = all_extensions N ∧
            jc_aligned jc) as (jc & Hrun & Hr & Hm & Hal).
  { induction N as [|N (jc & Hrun & Hr & Hm & Hal)].
    - eexists. split; [reflexivity|]. simpl.
      rewrite rh_assignments_new, mh_assignments_new. by repeat split.
    - rewrite seqZ_S, JointClustering_augment_all_snoc, Hrun. cbn [bind].
      eexists. split; [apply JointClustering_augment_assignments_Ok|]. cbn zeta.
      cbn [jc_reward_hypotheses jc_mapping_hypotheses jc_log_belief].
      destruct Hal as [Hlr Hlm].
      rewrite children_of_assignments_rew by lia.
      rewrite children_of_assignments_map by (by rewrite Hr, Hm).
      rewrite Hr, Hm, Z.add_0_l. split; [done|]. split; [done|].
      unfold jc_aligned. cbn [jc_reward_hypotheses jc_mapping_hypotheses jc_log_belief].
      by rewrite !length_fmap. }
  exists jc, (all_extensions N). unfold py_range. rewrite Z.sub_0_r.
  split; [done|]. split; [apply enumerate_assignments_all_extensions|].
  split; [done|]. split; [done|]. split; [|done].
  destruct Hal as [Hlr _]. rewrite <- Hlr, <- length_all_extensions, <- Hr.
  by rewrite length_fmap.
Qed.

End JointGrowth.

Lemma JointClustering_augment_assignments_grows_witness :
  ∃ jc', JointClustering_augment_assignments 0
           (@JointClustering_init counting_hypothesis counting_hypothesis _ _) = Ok jc' ∧
         jc_aligned jc'.
Proof.
  destruct (JointClustering_augment_assignments_grows
              (RH := counting_hypothesis) (MH := counting_hypothesis)
              0 JointClustering_init) as (jc' & H1 & H2 & _).
  - reflexivity.
  - exists jc'. split; [exact H1|exact H2].
Defined.

Lemma JointClustering_augment_all_enumerates_witness :
  ∃ jc : JointClustering counting_hypothesis counting_hypothesis,
    JointClustering_augment_all (py_range 0 3) JointClustering_init = Ok jc ∧
    length (jc_log_belief jc) = Bell 3.
Proof.
  destruct (JointClustering_augment_all_enumerates
              (RH := counting_hypothesis) (MH := counting_hypothesis) 3)
    as (jc & l & H1 & _ & _ & _ & H2 & _).
  exists jc. split; [exact H1|exact H2].
Defined.

Section JointUpdate.
Context {T RH MH : Type} `{Task T} `{RewardHypothesis RH} `{MappingHypothesis MH}.
Context `{!RewardHypothesisLaws RH} `{!MappingHypothesisLaws MH}.
Implicit Types jc : JointClustering RH MH.

(** X16. [JointClustering.update] raises [KeyError] when the location
    reached is not in the task's [state_location_key]. Otherwise, on a
    population with as many reward as mapping hypotheses, it returns a
    population of the same size, aligned, whose hypotheses have the
    assignments they had: only the statistics and the beliefs change. *)
Theorem JointClustering_update_keeps_population (task : T) s a aa r loc_prime c jc :
  (state_location_key task !! loc_prime = None →
   JointClustering_update task (s, a, aa, r, (loc_prime, c)) jc = Raise KeyError) ∧
  (is_Some (state_location_key task !! loc_prime) →
   length (jc_reward_hypotheses jc) = length (jc_mapping_hypotheses jc) →
   ∃ jc', JointClustering_update task (s, a, aa, r, (loc_prime, c)) jc = Ok jc' ∧
     jc_aligned jc' ∧
     length (jc_log_belief jc') = length (jc_reward_hypotheses jc) ∧
     rh_get_assignments <$> jc_reward_hypotheses jc'
     = rh_get_assignments <$> jc_reward_hypotheses jc ∧
     mh_get_assignments <$> jc_mapping_hypotheses jc'
     = mh_get_assignments <$> jc_mapping_hypotheses jc).
Proof.
  split.
  - intros Hkey. unfold JointClustering_update, dict_getitem. by rewrite Hkey.
  - intros [sp Hkey] Hlen.
    destruct (JointClustering_update_stores task s a aa r loc_prime c sp jc Hlen Hkey)
      as (jc' & Hupd & Hr & Hm & Hb).
    exists jc'. split; [done|].
    assert (length (jc_log_belief jc') = length (jc_reward_hypotheses jc)) as Hlb.
    { rewrite Hb, length_zip_with, Hr, Hm, !length_fmap. lia. }
    split; [split; rewrite Hlb; [by rewrite Hr, length_fmap|
                                 by rewrite Hm, length_fmap]|].
    split; [done|]. split.
    + rewrite Hr, <- list_fmap_compose. apply list_fmap_ext.
      intros i h _. simpl. apply rh_assignments_update.
    + rewrite Hm, <- list_fmap_compose. apply list_fmap_ext.
      intros i h _. simpl. apply mh_assignments_update.
Qed.

End JointUpdate.

Lemma JointClustering_update_keeps_population_witness :
  ∃ jc' : JointClustering counting_hypothesis counting_hypothesis,
    JointClustering_update
      {| st_n_trials := 1; st_n_ctx := 1; st_key := {[ (0, 0) := 0 ]}; st_script := [] |}
      (((0, 0), 0), 0, 0, 1%R, ((0, 0), 0)) JointClustering_init = Ok jc' ∧
    jc_aligned jc'.
Proof.
  destruct (JointClustering_update_keeps_population
              (RH := counting_hypothesis) (MH := counting_hypothesis)
              {| st_n_trials := 1; st_n_ctx := 1; st_key := {[ (0, 0) := 0 ]};
                 st_script := [] |}
              ((0, 0), 0) 0 0 1%R (0, 0) 0 JointClustering_init) as [_ Hok].
  destruct Hok as (jc' & H1 & H2 & _).
  - by eexists.
  - reflexivity.
  - exists jc'. split; [exact H1|exact H2].
Defined.

(** ** The independent agent *)

Lemma retained_scored {X} (f : X → R) M threshold (hs : list X) :
  (retained M threshold (zip (f <$> hs) hs)).*1
  = f <$> (retained M threshold (zip (f <$> hs) hs)).*2.
Proof.
  assert (Forall (λ row : R * X, row.1 = f row.2) (zip (f <$> hs) hs)) as Hall.
  { induction hs as [|h hs IH]; csimpl; constructor; done. }
  assert (Forall (λ row : R * X, row.1 = f row.2)
            (retained M threshold (zip (f <$> hs) hs))) as Hkept.
  { apply list.Forall_forall. intros row Hrow. apply retained_sublist in Hrow.
    rewrite list.Forall_forall in Hall. by apply Hall. }
  induction Hkept as [|row rows Hrow _ IH]; [done|]. csimpl. by rewrite Hrow, IH.
Qed.

Section Independent.
Context {T RH MH : Type} `{Task T} `{RewardHypothesis RH} `{MappingHypothesis MH}.
Context `{!RewardHypothesisLaws RH} `{!MappingHypothesisLaws MH}.
Implicit Types ic : IndependentClusterAgent RH MH.

Lemma IndependentClusterAgent_children_rew_Ok c (h_r : RH) :
  IndependentClusterAgent_children_rew c h_r
  = Ok (IndependentClusterAgent_children_rew_of c h_r).
Proof.
  unfold IndependentClusterAgent_children_rew, IndependentClusterAgent_children_rew_of.
  rewrite augment_assignments_single. cbn [bind].
  unfold extend. apply for_each_fmap_Ok. intros k _.
  unfold dict_getitem. rewrite lookup_insert_eq. cbn [bind].
  by rewrite rh_deep_copy_eq.
Qed.

Lemma IndependentClusterAgent_children_map_Ok c (h_m : MH) :
  IndependentClusterAgent_children_map c h_m
  = Ok (IndependentClusterAgent_children_map_of c h_m).
Proof.
  unfold IndependentClusterAgent_children_map, IndependentClusterAgent_children_map_of.
  rewrite augment_assignments_single. cbn [bind].
  unfold extend. apply for_each_fmap_Ok. intros k _.
  unfold dict_getitem. rewrite lookup_insert_eq. cbn [bind].
  by rewrite mh_deep_copy_eq.
Qed.

Lemma IndependentClusterAgent_augment_assignments_Ok c ic :
  IndependentClusterAgent_augment_assignments c ic
  = Ok (let new_rew :=
          ic_reward_hypotheses ic ≫= IndependentClusterAgent_children_rew_of c in
        let new_map :=
          ic_mapping_hypotheses ic ≫= IndependentClusterAgent_children_map_of c in
        {| ic_reward_hypotheses := fst <$> new_rew;
           ic_mapping_hypotheses := fst <$> new_map;
           ic_log_belief_rew := snd <$> new_rew;
           ic_log_belief_map := snd <$> new_map |}).
Proof.
  unfold IndependentClusterAgent_augment_assignments.
  rewrite (for_each_Ok_fmap _ (IndependentClusterAgent_children_rew_of c)).
  2:{ intros h _. apply IndependentClusterAgent_children_rew_Ok. }
  cbn [bind].
  rewrite (for_each_Ok_fmap _ (IndependentClusterAgent_children_map_of c)).
  2:{ intros h _. apply IndependentClusterAgent_children_map_Ok. }
  cbn [bind]. by rewrite !concat_fmap_bind.
Qed.

Lemma children_rew_of_posteriors c (rs : list RH) :
  snd <$> (rs ≫= IndependentClusterAgent_children_rew_of c)
  = rh_get_log_posterior <$> (fst <$> (rs ≫= IndependentClusterAgent_children_rew_of c)).
Proof.
  induction rs as [|h rs IH]; [done|]. csimpl. rewrite !fmap_app, IH. f_equal.
  unfold IndependentClusterAgent_children_rew_of. rewrite <- !list_fmap_compose.
  apply list_fmap_ext. intros i k _. simpl. by rewrite rh_log_posterior.
Qed.

Lemma children_map_of_posteriors c (ms : list MH) :
  snd <$> (ms ≫= IndependentClusterAgent_children_map_of c)
  = mh_get_log_posterior <$> (fst <$> (ms ≫= IndependentClusterAgent_children_map_of c)).
Proof.
  induction ms as [|h ms IH]; [done|]. csimpl. rewrite !fmap_app, IH. f_equal.
  unfold IndependentClusterAgent_children_map_of. rewrite <- !list_fmap_compose.
  apply list_fmap_ext. intros i k _. simpl. by rewrite mh_log_posterior.
Qed.

(** X17. In the independent agent every stored log-belief is the
    log-posterior of its hypothesis after [update] and after
    [augment_assignments], and [prune_hypothesis_space] keeps it so. *)
Theorem IndependentClusterAgent_beliefs_are_posteriors :
  (∀ (task : T) s a aa r loc_prime c sp ic,
     ic_aligned ic → state_location_key task !! loc_prime = Some sp →
     ∃ ic', IndependentClusterAgent_update task (s, a, aa, r, (loc_prime, c)) ic = Ok ic' ∧
       ic_posteriors ic' ∧ ic_aligned ic') ∧
  (∀ c ic,
     ∃ ic', IndependentClusterAgent_augment_assignments c ic = Ok ic' ∧
       ic_posteriors ic' ∧ ic_aligned ic') ∧
  (∀ threshold ic ic',
     ic_posteriors ic →
     IndependentClusterAgent_prune_hypothesis_space threshold ic = Ok ic' →
     ic_posteriors ic' ∧ ic_aligned ic').
Proof.
  split; [|split].
  - intros task s a aa r loc_prime c sp ic [Hlr Hlm] Hkey.
    unfold IndependentClusterAgent_update, dict_getitem. rewrite Hkey. cbn [bind].
    rewrite store_each_all by (by rewrite length_fmap).
    cbn [bind]. rewrite zip_with_assign by (by rewrite length_fmap).
    rewrite store_each_all by (by rewrite length_fmap).
    cbn [bind]. rewrite zip_with_assign by (by rewrite length_fmap).
    eexists. split; [reflexivity|]. unfold ic_posteriors, ic_aligned. simpl.
    by rewrite !length_fmap.
  - intros c ic. eexists. split; [apply IndependentClusterAgent_augment_assignments_Ok|].
    cbn zeta. unfold ic_posteriors, ic_aligned. simpl.
    rewrite !length_fmap.
    split; [|done].
    split; [apply children_rew_of_posteriors|apply children_map_of_posteriors].
  - intros threshold ic ic' [Hpr Hpm] Hprune.
    assert (ic_aligned ic) as Hal.
    { split; [rewrite Hpr|rewrite Hpm]; by rewrite length_fmap. }
    destruct (decide (ic_log_belief_rew ic = [])) as [Er|Er].
    { unfold IndependentClusterAgent_prune_hypothesis_space in Hprune.
      rewrite Er in Hprune. discriminate. }
    destruct (np_max_nonempty _ Er) as [Mr HMr].
    destruct (decide (ic_log_belief_map ic = [])) as [Em|Em].
    { unfold IndependentClusterAgent_prune_hypothesis_space in Hprune.
      rewrite HMr in Hprune. cbn [bind] in Hprune.
      rewrite (prune_loop_retained _ Mr threshold 0 (ic_log_belief_rew ic)
                 (ic_reward_hypotheses ic)) in Hprune.
      - rewrite Em in Hprune. discriminate.
      - by destruct Hal.
      - intros j x Hj. by apply py_getitem_nat. }
    destruct (np_max_nonempty _ Em) as [Mm HMm].
    rewrite (IndependentClusterAgent_prune_retained threshold ic Mr Mm Hal HMr HMm)
      in Hprune.
    injection Hprune as <-. unfold ic_posteriors, ic_aligned. simpl.
    rewrite !length_fmap. split; [|done]. split.
    + unfold ic_rows_rew. rewrite Hpr. apply retained_scored.
    + unfold ic_rows_map. rewrite Hpm. apply retained_scored.
Qed.

(** X18. [IndependentClusterAgent.augment_assignments] never raises, and it
    grows the two populations separately: the assignments of the new reward
    hypotheses are the children of the assignments of the old reward
    hypotheses, in the enumerator's order, and likewise for the mapping
    hypotheses. *)
Theorem IndependentClusterAgent_augment_assignments_grows (c : Z) ic :
  ∃ ic', IndependentClusterAgent_augment_assignments c ic = Ok ic' ∧
    rh_get_assignments <$> ic_reward_hypotheses ic'
    = (rh_get_assignments <$> ic_reward_hypotheses ic) ≫= extend c ∧
    mh_get_assignments <$> ic_mapping_hypotheses ic'
    = (mh_get_assignments <$> ic_mapping_hypotheses ic) ≫= extend c.
Proof.
  eexists. split; [apply IndependentClusterAgent_augment_assignments_Ok|].
  cbn zeta. cbn [ic_reward_hypotheses ic_mapping_hypotheses]. split.
  - induction (ic_reward_hypotheses ic) as [|h rs IH]; [done|].
    csimpl. rewrite !fmap_app, IH. f_equal.
    unfold IndependentClusterAgent_children_rew_of, extend.
    rewrite <- !list_fmap_compose. apply list_fmap_ext. intros i k _. simpl.
    apply rh_assignments_add.
  - induction (ic_mapping_hypotheses ic) as [|h ms IH]; [done|].
    csimpl. rewrite !fmap_app, IH. f_equal.
    unfold IndependentClusterAgent_children_map_of, extend.
    rewrite <- !list_fmap_compose. apply list_fmap_ext. intros i k _. simpl.
    apply mh_assignments_add.
Qed.

End Independent.

Lemma IndependentClusterAgent_beliefs_are_posteriors_witness :
  ∃ ic' : IndependentClusterAgent counting_hypothesis counting_hypothesis,
    IndependentClusterAgent_augment_assignments 0 IndependentClusterAgent_init = Ok ic' ∧
    ic_posteriors ic'.
Proof.
  destruct (IndependentClusterAgent_beliefs_are_posteriors
              (T := scripted_task) (RH := counting_hypothesis) (MH := counting_hypothesis))
    as (_ & Haug & _).
  destruct (Haug 0 IndependentClusterAgent_init) as (ic' & H1 & H2 & _).
  exists ic'. split; [exact H1|exact H2].
Defined.

Lemma IndependentClusterAgent_augment_assignments_grows_witness :
  ∃ ic' : IndependentClusterAgent counting_hypothesis counting_hypothesis,
    IndependentClusterAgent_augment_assignments 0 IndependentClusterAgent_init = Ok ic' ∧
    rh_get_assignments <$> ic_reward_hypotheses ic'
    = (rh_get_assignments <$> ic_reward_hypotheses
         (@IndependentClusterAgent_init counting_hypothesis counting_hypothesis _ _))
        ≫= extend 0.
Proof.
  destruct (IndependentClusterAgent_augment_assignments_grows
              (RH := counting_hypothesis) (MH := counting_hypothesis)
              0 IndependentClusterAgent_init) as (ic' & H1 & H2 & _).
  exists ic'. split; [exact H1|exact H2].
Defined.

(** ** Beliefs of the full-enumeration agent *)

Local Open Scope R_scope.

Lemma normalised_beliefs_distribution {H} (f : H → R) (hs : list H) :
  hs ≠ [] →
  length (normalised_beliefs f hs) = length hs ∧
  Forall (λ x, 0 < x) (normalised_beliefs f hs) ∧
  np_sum (normalised_beliefs f hs) = 1.
Proof.
  intros Hne. unfold normalised_beliefs.
  assert (0 < np_sum ((λ h, exp (f h)) <$> hs)) as Hpos.
  { destruct hs as [|h hs]; [done|]. rewrite fmap_cons, np_sum_cons.
    assert (0 <= np_sum ((λ h, exp (f h)) <$> hs)) as Hrest.
    { clear Hne. induction hs as [|h' hs IH]; [simpl; lra|].
      rewrite fmap_cons, np_sum_cons. pose proof (exp_pos (f h')). lra. }
    pose proof (exp_pos (f h)). lra. }
  split; [by rewrite !length_fmap|]. split.
  - apply list.Forall_forall. intros x Hx.
    apply list_elem_of_fmap in Hx as [e [-> He]].
    apply list_elem_of_fmap in He as [h [-> _]].
    apply Rdiv_lt_0_compat; [apply exp_pos|done].
  - rewrite np_sum_div. field. lra.
Qed.

Lemma normalised_beliefs_single {H} (f : H → R) (h : H) :
  normalised_beliefs f [h] = [1].
Proof.
  unfold normalised_beliefs, np_sum. simpl. f_equal.
  pose proof (exp_pos (f h)). field. lra.
Qed.

Section FullEnumerationUpdate.
Context {T RH MH : Type} `{Task T} `{RewardHypothesis RH} `{MappingHypothesis MH}.
Implicit Types agent : MapClusteringAgent RH MH.

(** X19. [MapClusteringAgent.update] raises [KeyError] when the location
    reached is not in [state_location_key]. Otherwise it returns, and for
    each non-empty population the new beliefs form a probability vector
    with one entry per hypothesis: positive entries that sum to 1. *)
Theorem MapClusteringAgent_update_normalises (task : T) s a aa r loc_prime c agent :
  (state_location_key task !! loc_prime = None →
   MapClusteringAgent_update task (s, a, aa, r, (loc_prime, c)) agent = Raise KeyError) ∧
  (is_Some (state_location_key task !! loc_prime) →
   ∃ agent', MapClusteringAgent_update task (s, a, aa, r, (loc_prime, c)) agent
             = Ok agent' ∧
     length (mc_reward_hypotheses agent') = length (mc_reward_hypotheses agent) ∧
     length (mc_mapping_hypotheses agent') = length (mc_mapping_hypotheses agent) ∧
     (mc_reward_hypotheses agent ≠ [] →
        length (mc_belief_rew agent') = length (mc_reward_hypotheses agent') ∧
        Forall (λ x, 0 < x) (mc_belief_rew agent') ∧ np_sum (mc_belief_rew agent') = 1) ∧
     (mc_mapping_hypotheses agent ≠ [] →
        length (mc_belief_map agent') = length (mc_mapping_hypotheses agent') ∧
        Forall (λ x, 0 < x) (mc_belief_map agent') ∧ np_sum (mc_belief_map agent') = 1)).
Proof.
  unfold MapClusteringAgent_update, dict_getitem. split.
  - by intros ->.
  - intros [sp ->]. cbn [bind]. eexists. split; [reflexivity|]. simpl.
    split; [by rewrite length_fmap|]. split; [by rewrite length_fmap|]. split.
    + intros Hne. apply normalised_beliefs_distribution.
      intros Hnil. apply fmap_nil_inv in Hnil. done.
    + intros Hne. apply normalised_beliefs_distribution.
      intros Hnil. apply fmap_nil_inv in Hnil. done.
Qed.

(** X20. The full-enumeration agent keeps a single reward hypothesis, and
    its belief in it is 1: at construction and after an [update]. *)
Theorem MapClusteringAgent_reward_belief_1 (task : T) (n : nat) s a aa r loc_prime c :
  n_ctx task = Z.of_nat n →
  is_Some (state_location_key task !! loc_prime) →
  ∃ agent agent', MapClusteringAgent_init task = Ok agent ∧
    mc_belief_rew agent = [1] ∧
    MapClusteringAgent_update task (s, a, aa, r, (loc_prime, c)) agent = Ok agent' ∧
    length (mc_reward_hypotheses agent') = 1%nat ∧
    mc_belief_rew agent' = [1].
Proof.
  intros Hn [sp Hkey]. unfold MapClusteringAgent_init.
  rewrite Hn, enumerate_assignments_all_extensions. cbn [bind].
  eexists _, _. split; [reflexivity|]. split.
  { simpl. unfold uniform. simpl. f_equal. field. }
  unfold MapClusteringAgent_update, dict_getitem. rewrite Hkey. cbn [bind].
  split; [reflexivity|]. split; [reflexivity|].
  cbn [mc_belief_rew mc_reward_hypotheses]. apply normalised_beliefs_single.
Qed.

End FullEnumerationUpdate.

Lemma MapClusteringAgent_update_normalises_witness :
  ∃ agent' : MapClusteringAgent counting_hypothesis counting_hypothesis,
    MapClusteringAgent_update
      {| st_n_trials := 1; st_n_ctx := 1; st_key := {[ (0%Z, 0%Z) := 0%Z ]};
         st_script := [] |}
      (((0%Z, 0%Z), 0%Z), 0%Z, 0%Z, 1, ((0%Z, 0%Z), 0%Z))
      {| mc_reward_hypotheses := [rh_new None]; mc_mapping_hypotheses := [mh_new None];
         mc_belief_rew := [1]; mc_belief_map := [1] |} = Ok agent' ∧
    length (mc_reward_hypotheses agent') = 1%nat.
Proof.
  destruct (MapClusteringAgent_update_normalises
              (RH := counting_hypothesis) (MH := counting_hypothesis)
              {| st_n_trials := 1; st_n_ctx := 1; st_key := {[ (0%Z, 0%Z) := 0%Z ]};
                 st_script := [] |}
              ((0%Z, 0%Z), 0%Z) 0%Z 0%Z 1 (0%Z, 0%Z) 0%Z
              {| mc_reward_hypotheses := [rh_new None];
                 mc_mapping_hypotheses := [mh_new None];
                 mc_belief_rew := [1]; mc_belief_map := [1] |}) as [_ Hok].
  destruct Hok as (agent' & H1 & H2 & _).
  - by eexists.
  - exists agent'. split; [exact H1|exact H2].
Defined.

Lemma MapClusteringAgent_reward_belief_1_witness :
  ∃ agent : MapClusteringAgent counting_hypothesis counting_hypothesis,
    MapClusteringAgent_init
      {| st_n_trials := 1; st_n_ctx := 2; st_key := {[ (0%Z, 0%Z) := 0%Z ]};
         st_script := [] |} = Ok agent ∧
    mc_belief_rew agent = [1].
Proof.
  destruct (MapClusteringAgent_reward_belief_1
              (RH := counting_hypothesis) (MH := counting_hypothesis)
              {| st_n_trials := 1; st_n_ctx := 2; st_key := {[ (0%Z, 0%Z) := 0%Z ]};
                 st_script := [] |} 2
              ((0%Z, 0%Z), 0%Z) 0%Z 0%Z 1 (0%Z, 0%Z) 0%Z)
    as (agent & agent' & H1 & H2 & _).
  - reflexivity.
  - by eexists.
  - exists agent. split; [exact H1|exact H2].
Defined.

Local Close Scope R_scope.

(** ** Selecting an action in the joint agent *)

Local Open Scope R_scope.

Lemma length_cumsum_from acc xs : length (cumsum_from acc xs) = length xs.
Proof. revert acc; induction xs as [|x xs IH]; intros acc; simpl; [done|]. by rewrite IH. Qed.

(** The scan of [np.argmax]: given the first largest entry of the part
    already read, it ends on the first largest entry of the whole vector. *)
Lemma argmax_from_first_max pre best best_i xs :
  pre !! best_i = Some best →
  (∀ x, x ∈ pre → x <= best) →
  (∀ j b, (j < best_i)%nat → pre !! j = Some b → b < best) →
  ∃ M, (pre ++ xs) !! argmax_from best best_i (length pre) xs = Some M ∧
       (∀ x, x ∈ pre ++ xs → x <= M) ∧
       (∀ j b, (j < argmax_from best best_i (length pre) xs)%nat →
               (pre ++ xs) !! j = Some b → b < M).
Proof.
  revert pre best best_i; induction xs as [|x xs IH]; intros pre best best_i Hb Hub Hfirst.
  - simpl. rewrite app_nil_r. eauto.
  - cbn [argmax_from]. replace (pre ++ x :: xs) with ((pre ++ [x]) ++ xs)
      by (by rewrite <- app_assoc).
    replace (S (length pre)) with (length (pre ++ [x]))
      by (rewrite length_app; simpl; lia).
    case_decide as Hx; unfold Rgt in Hx.
    + apply IH.
      * rewrite lookup_app_r by lia. by rewrite Nat.sub_diag.
      * intros y Hy. apply elem_of_app in Hy as [Hy|Hy].
        -- apply Hub in Hy. lra.
        -- apply list_elem_of_singleton in Hy as ->. lra.
      * intros j b Hj Hjb. rewrite lookup_app_l in Hjb by done.
        assert (b ∈ pre) as Hin by (apply list_elem_of_lookup; eauto).
        apply Hub in Hin. lra.
    + apply IH.
      * rewrite lookup_app_l; [done|]. by eapply lookup_lt_Some.
      * intros y Hy. apply elem_of_app in Hy as [Hy|Hy].
        -- by apply Hub.
        -- apply list_elem_of_singleton in Hy as ->. lra.
      * intros j b Hj Hjb. apply (Hfirst j b Hj).
        rewrite lookup_app_l in Hjb; [done|].
        apply lookup_lt_Some in Hb. lia.
Qed.

Lemma np_argmax_first_max xs :
  xs ≠ [] →
  ∃ ii M, np_argmax xs = Ok ii ∧ xs !! ii = Some M ∧
    (∀ x, x ∈ xs → x <= M) ∧
    (∀ j b, (j < ii)%nat → xs !! j = Some b → b < M).
Proof.
  destruct xs as [|x xs]; [done|]. intros _.
  destruct (argmax_from_first_max [x] x 0 xs) as (M & HM & Hub & Hfirst).
  - done.
  - intros y Hy. apply list_elem_of_singleton in Hy as ->. lra.
  - intros j b Hj. lia.
  - exists (argmax_from x 0 1 xs), M. by repeat split.
Qed.

Lemma sample_cmf_cumsum_range rand (f : Z → R) (n : nat) :
  (Z.of_nat (sample_cmf rand (np_cumsum (f <$> py_range 0 (Z.of_nat n)))) ≤ Z.of_nat n)%Z.
Proof.
  pose proof (sample_cmf_le_length rand (np_cumsum (f <$> py_range 0 (Z.of_nat n)))) as Hle.
  unfold np_cumsum, py_range in Hle.
  rewrite length_cumsum_from, length_fmap, length_seqZ in Hle.
  unfold np_cumsum, py_range. lia.
Qed.

Section JointSelect.
Context {T RH MH : Type} `{Task T} `{RewardHypothesis RH} `{MappingHypothesis MH}.
Context `{RewardHypothesisPlanning T RH} `{MappingHypothesisQuery MH}.
Implicit Types jc : JointClustering RH MH.

(** X21. [JointClustering.select_action] raises [KeyError] for a location
    that is not in [state_location_key], and [ValueError] on an empty
    population. On a non-empty aligned population, for a context that fits
    32 bits, it returns a key press between 0 and [n_primitive_actions].
    The abstract action is sampled from the values of the reward hypothesis
    at the first index that holds the largest log-belief, and the key press
    from the mapping probabilities, for that abstract action, of the mapping
    hypothesis at the same index. *)
Theorem JointClustering_select_action_first_max (task : T) (inverse_temperature : R)
    (n_primitive_actions : nat) (rand1 rand2 : R) (xy : location) (c : Z) jc :
  (state_location_key task !! xy = None →
   JointClustering_select_action task inverse_temperature n_primitive_actions
     rand1 rand2 (xy, c) jc = Raise KeyError) ∧
  (is_Some (state_location_key task !! xy) → jc_log_belief jc = [] →
   JointClustering_select_action task inverse_temperature n_primitive_actions
     rand1 rand2 (xy, c) jc = Raise ValueError) ∧
  (is_Some (state_location_key task !! xy) → jc_log_belief jc ≠ [] → jc_aligned jc →
   (- 2 ^ 31 ≤ c < 2 ^ 31)%Z →
   ∃ sn ii M h_r h_m aa action,
     state_location_key task !! xy = Some sn ∧
     jc_log_belief jc !! ii = Some M ∧
     (∀ x, x ∈ jc_log_belief jc → x <= M) ∧
     (∀ j b, (j < ii)%nat → jc_log_belief jc !! j = Some b → b < M) ∧
     jc_reward_hypotheses jc !! ii = Some h_r ∧
     jc_mapping_hypotheses jc !! ii = Some h_m ∧
     aa
     = (let full_pmf :=
          (λ q, exp (q * inverse_temperature))
            <$> rh_select_abstract_action_pmf sn c task h_r in
        Z.of_nat (sample_cmf rand1
          (np_cumsum ((λ x, x / np_sum full_pmf) <$> full_pmf)))) ∧
     JointClustering_select_abstract_action task inverse_temperature rand1 (xy, c) jc
     = Ok aa ∧
     JointClustering_select_action task inverse_temperature n_primitive_actions
       rand1 rand2 (xy, c) jc = Ok action ∧
     action
     = Z.of_nat (sample_cmf rand2 (np_cumsum
         ((λ a0, mh_get_mapping_probability c a0 aa h_m)
            <$> py_range 0 (Z.of_nat n_primitive_actions)))) ∧
     (0 ≤ action ≤ Z.of_nat n_primitive_actions)%Z).
Proof.
  unfold JointClustering_select_action, JointClustering_select_abstract_action, dict_getitem.
  split; [|split].
  - by intros ->.
  - intros [sn ->] ->. reflexivity.
  - intros [sn ->] Hne [Hlr Hlm] Hc. cbn [bind].
    destruct (np_argmax_first_max _ Hne) as (ii & M & -> & HM & Hub & Hfirst).
    cbn [bind].
    destruct (lookup_lt_is_Some_2 (jc_reward_hypotheses jc) ii) as [h_r Hr].
    { rewrite Hlr. by eapply lookup_lt_Some. }
    destruct (lookup_lt_is_Some_2 (jc_mapping_hypotheses jc) ii) as [h_m Hm].
    { rewrite Hlm. by eapply lookup_lt_Some. }
    rewrite (py_getitem_nat _ _ _ Hr). cbn [bind].
    unfold np_int32. rewrite decide_True by done. cbn [bind].
    rewrite (py_getitem_nat _ _ _ Hm). cbn [bind].
    eexists sn, ii, M, h_r, h_m, _, _.
    split; [reflexivity|].
    split; [exact HM|]. split; [exact Hub|]. split; [exact Hfirst|].
    split; [exact Hr|]. split; [exact Hm|].
    split; [reflexivity|].
    split; [reflexivity|]. split; [reflexivity|]. split; [reflexivity|].
    split; [lia|].
    apply sample_cmf_cumsum_range.
Qed.

End JointSelect.

Local Close Scope R_scope.

Lemma JointClustering_select_action_first_max_witness :
  ∃ action,
    JointClustering_select_action
      {| st_n_trials := 1; st_n_ctx := 1; st_key := {[ (0, 0) := 0 ]}; st_script := [] |}
      100%R 8 (1/2)%R (1/2)%R ((0, 0), 0)
      (@JointClustering_init counting_hypothesis counting_hypothesis _ _) = Ok action ∧
    0 ≤ action ≤ 8.
Proof.
  destruct (JointClustering_select_action_first_max
              (RH := counting_hypothesis) (MH := counting_hypothesis)
              {| st_n_trials := 1; st_n_ctx := 1; st_key := {[ (0, 0) := 0 ]};
                 st_script := [] |}
              100%R 8 (1/2)%R (1/2)%R (0, 0) 0 JointClustering_init) as (_ & _ & Hok).
  destruct Hok
    as (sn & ii & M & h_r & h_m & aa & action & _ & _ & _ & _ & _ & _ & _ & _ & H1 & _ & H2).
  - by eexists.
  - discriminate.
  - split; reflexivity.
  - lia.
  - exists action. split; [exact H1|exact H2].
Defined.

(** ** Runs of the orchestrator *)

Section GenerateRows.
Context {T A : Type} `{Task T} `{Agent T A}.

(** X22. [generate] raises [ValueError] without calling the agent when the
    task has no state left at the start (there is no row to concatenate),
    and when the task's number of trials is negative. *)
Theorem generate_nothing_to_do (fuel : nat) (threshold : R) (task : T) (self : A) :
  get_state task = None ∨ n_trials task < 0 →
  generate (S fuel) threshold task self = ([], Raise ValueError).
Proof.
  intros [Hstate|Hneg].
  - unfold generate, np_zeros, lift, lbind.
    repeat case_decide; try reflexivity. simpl. by rewrite Hstate.
  - unfold generate, np_zeros, lift, lbind.
    by rewrite decide_True.
Qed.

Lemma generate_act_Ok (task : T) t s (agent : A) sc ts results l ls' :
  generate_act task t s agent sc ts results = (l, Ok ls') →
  (∃ action e, l = [CallSelect s; CallMove action; CallUpdate e]) ∧
  length (ls_results ls') = S (length results).
Proof.
  unfold generate_act, recorded, lift, lret, lbind.
  destruct (agent_select_action task s agent) as [[action agent']|e]; [|discriminate].
  destruct (move action task) as [[experience task']|e]; [|discriminate].
  destruct experience as [[[[[xy c] a] aa] r] [xyp c']].
  destruct (agent_update task' _ agent') as [agent''|e]; [|discriminate].
  destruct (py_getitem sc t) as [n_actions|e]; [|discriminate].
  destruct (py_getitem ts c) as [seen|e]; [|discriminate].
  simpl. intros [= <- <-]. split; [eauto|].
  simpl. rewrite length_app. simpl. lia.
Qed.

Lemma count_calls_cons_false kind e l :
  kind e = false → count_calls kind (e :: l) = count_calls kind l.
Proof.
  intros He. unfold count_calls. rewrite list.filter_cons, decide_False; [done|].
  rewrite He. by intros [].
Qed.

Lemma generate_enter_calls threshold c (agent : A) ts kind :
  kind (CallPrune threshold) = false → kind (CallAugment c) = false →
  count_calls kind (generate_enter threshold c agent ts).1 = 0%nat.
Proof.
  intros Hp Ha. unfold generate_enter, recorded, lift, lret, lbind.
  destruct (py_index _ _) as [j|e]; [|done].
  case_decide; [|done].
  destruct (agent_prune_hypothesis_space threshold agent) as [agent'|e]; simpl.
  2:{ by rewrite count_calls_cons_false. }
  destruct (agent_augment_assignments c agent') as [agent''|e]; simpl;
    by rewrite !count_calls_cons_false.
Qed.

Lemma count_calls_app kind l1 l2 :
  count_calls kind (l1 ++ l2) = (count_calls kind l1 + count_calls kind l2)%nat.
Proof. unfold count_calls. by rewrite list.filter_app, length_app. Qed.

Lemma generate_step_Ok threshold (ls : loop_state) s l ls' :
  generate_step threshold ls s = (l, Ok ls') →
  count_calls is_select l = 1%nat ∧ count_calls is_move l = 1%nat ∧
  count_calls is_update l = 1%nat ∧
  length (ls_results ls') = S (length (ls_results ls)).
Proof.
  unfold generate_step. destruct s as [loc c].
  destruct (py_index _ _) as [ti|e]; [|discriminate].
  unfold lift at 1. unfold lbind at 1. cbn [app].
  set (n := default 0%nat (alter S ti (ls_step_counter ls) !! ti)).
  unfold lbind at 1. cbn [app].
  destruct (decide (n = 1%nat)) as [Hn|Hn].
  - pose proof (generate_enter_calls threshold c (ls_agent ls) (ls_times_seen_ctx ls))
      as Hcalls.
    destruct (generate_enter _ _ _ _) as [l1 [[agent' ts']|e]]; [|discriminate].
    unfold lbind.
    match goal with |- context [generate_act ?a ?b ?c ?d ?e ?f ?g] =>
      pose proof (generate_act_Ok a b c d e f g) as Hact;
      destruct (generate_act a b c d e f g) as [l2 r] end.
    destruct r as [ls''|e]; [|discriminate].
    intros [= <- <-]. destruct (Hact l2 ls'' eq_refl) as [(action & e & ->) Hlen].
    simpl in Hcalls.
    change (Step (current_trial_number (ls_task ls)) c n
              :: l1 ++ [CallSelect (loc, c); CallMove action; CallUpdate e])
      with ([Step (current_trial_number (ls_task ls)) c n]
              ++ l1 ++ [CallSelect (loc, c); CallMove action; CallUpdate e]).
    rewrite !count_calls_app, !Hcalls by done. by repeat split.
  - unfold lret at 1. unfold lbind. cbn [app].
    match goal with |- context [generate_act ?a ?b ?c ?d ?e ?f ?g] =>
      pose proof (generate_act_Ok a b c d e f g) as Hact;
      destruct (generate_act a b c d e f g) as [l2 r] end.
    destruct r as [ls''|e]; [|discriminate].
    intros [= <- <-]. destruct (Hact l2 ls'' eq_refl) as [(action & e & ->) Hlen].
    by repeat split.
Qed.

Lemma generate_loop_rows fuel threshold (ls : loop_state) l rows :
  generate_loop fuel threshold ls = (l, Ok (Some rows)) →
  rows ≠ [] ∧
  length rows = (length (ls_results ls) + count_calls is_select l)%nat ∧
  length rows = (length (ls_results ls) + count_calls is_move l)%nat ∧
  length rows = (length (ls_results ls) + count_calls is_update l)%nat.
Proof.
  revert ls l; induction fuel as [|fuel IH]; intros ls l; [discriminate|].
  cbn [generate_loop]. destruct (get_state (ls_task ls)) as [s|].
  - unfold lbind.
    pose proof (generate_step_Ok threshold ls s) as Hstep.
    destruct (generate_step threshold ls s) as [l1 [ls'|e]]; [|discriminate].
    destruct (Hstep l1 ls' eq_refl) as (Hs & Hm & Hu & Hlen).
    specialize (IH ls').
    destruct (generate_loop fuel threshold ls') as [l2 r].
    intros [= <- ->]. destruct (IH l2 eq_refl) as (Hne & Hrs & Hrm & Hru).
    rewrite !count_calls_app. split; [done|]. lia.
  - destruct (ls_results ls) as [|row rest] eqn:E; [discriminate|].
    intros [= <- <-]. split; [done|]. unfold count_calls. simpl. lia.
Qed.

(** X23. A run that returns its table has made exactly one call of
    [select_action], one of the task's [move] and one of [update] for each
    row of the table, and the table is not empty. *)
Theorem generate_one_row_per_action fuel threshold (task : T) (self : A) l rows :
  generate fuel threshold task self = (l, Ok (Some rows)) →
  rows ≠ [] ∧
  length rows = count_calls is_select l ∧
  length rows = count_calls is_move l ∧
  length rows = count_calls is_update l.
Proof.
  unfold generate, lift, lbind.
  destruct (np_zeros (n_trials task)) as [sc|e]; [|discriminate].
  destruct (np_zeros (n_ctx task)) as [ts|e]; [|discriminate].
  pose proof (generate_loop_rows fuel threshold
    {| ls_task := task; ls_agent := self; ls_step_counter := sc;
       ls_times_seen_ctx := ts; ls_results := [] |}) as Hloop.
  destruct (generate_loop _ _ _) as [l' r]. simpl. intros [= <- ->].
  by destruct (Hloop l' rows eq_refl) as (? & ? & ? & ?).
Qed.

End GenerateRows.

Lemma generate_nothing_to_do_witness :
  generate 3 1000
    {| st_n_trials := 3; st_n_ctx := 2; st_key := ∅; st_script := [] |} tt
  = ([], Raise ValueError).
Proof.
  apply (generate_nothing_to_do 2 1000
    {| st_n_trials := 3; st_n_ctx := 2; st_key := ∅; st_script := [] |} tt).
  left. reflexivity.
Defined.

Lemma generate_one_row_per_action_witness :
  ∃ l rows,
    generate 10 1000
      {| st_n_trials := 3; st_n_ctx := 2; st_key := ∅;
         st_script := [ (0, ((0, 0), 0)); (0, ((0, 1), 0));
                        (1, ((0, 0), 1)); (2, ((0, 0), 0)) ] |} tt
    = (l, Ok (Some rows)) ∧
    length rows = count_calls is_update l.
Proof.
  set (task := {| st_n_trials := 3; st_n_ctx := 2; st_key := ∅;
                  st_script := [ (0, ((0, 0), 0)); (0, ((0, 1), 0));
                                 (1, ((0, 0), 1)); (2, ((0, 0), 0)) ] |}).
  destruct (generate 10 1000 task tt) as [l r] eqn:E.
  assert (∃ rows, r = Ok (Some rows)) as [rows ->].
  { assert (r = (generate 10 1000 task tt).2) as -> by (by rewrite E).
    eexists. reflexivity. }
  exists l, rows. split; [reflexivity|].
  apply (generate_one_row_per_action 10 1000 task tt l rows E).
Defined.


(** ** A joint agent run with a threshold of 1 or less *)

Lemma np_zeros_first_count (n i : Z) :
  0 ≤ i < n →
  ∃ counters j, np_zeros n = Ok counters ∧
    py_index (length counters) i = Ok j ∧ alter S j counters !! j = Some 1%nat.
Proof.
  intros Hi. exists (replicate (Z.to_nat n) 0%nat), (Z.to_nat i).
  unfold np_zeros. rewrite decide_False by lia. split; [done|].
  unfold py_index. rewrite length_replicate, decide_True by lia. split; [done|].
  rewrite list_lookup_alter_eq, lookup_replicate_2 by lia. done.
Qed.

Lemma lbind_Ok {X Y} (l : list call) (x : X) (k : X → logged Y) :
  lbind (l, Ok x) k = (l ++ (k x).1, (k x).2).
Proof. unfold lbind. by destruct (k x). Qed.

Lemma lbind_Raise {X Y} (l : list call) (e : exn) (k : X → logged Y) :
  lbind (l, Raise e) k = (l, Raise e).
Proof. done. Qed.

Section JointRun.
Context {T RH MH : Type} `{Task T} `{RewardHypothesis RH} `{MappingHypothesis MH}.
Context `{RewardHypothesisPlanning T RH} `{MappingHypothesisQuery MH}.

Lemma JointClustering_prune_init_le_1 (threshold : R) :
  (threshold <= 1)%R →
  JointClustering_prune_hypothesis_space threshold
    (JointClustering_init (RH := RH) (MH := MH))
  = Ok {| jc_reward_hypotheses := []; jc_mapping_hypotheses := []; jc_log_belief := [] |}.
Proof.
  intros Ht. rewrite (JointClustering_prune_retained threshold _ 1%R);
    [|by split|reflexivity].
  rewrite retained_threshold_le_1; [done|done|].
  intros row Hrow. unfold jc_rows in Hrow. simpl in Hrow.
  apply list_elem_of_singleton in Hrow as ->. simpl. lra.
Qed.

(** X24. Run with a pruning threshold of 1 or less, a freshly built joint
    agent does not get through the first step: entering the first context
    prunes its only hypothesis, the augmentation of the empty population is
    empty, and action selection raises [ValueError]. *)
Theorem generate_joint_threshold_le_1 (fuel : nat) (threshold inverse_temperature : R)
    (n_primitive_actions : nat) (draws : nat → R) (task : T)
    (xy : location) (c t sn : Z) :
  (threshold <= 1)%R →
  get_state task = Some (xy, c) → current_trial_number task = t →
  0 ≤ t < n_trials task → 0 ≤ c < n_ctx task →
  state_location_key task !! xy = Some sn →
  generate (H0 := JointClustering_Agent inverse_temperature n_primitive_actions draws)
    (S fuel) threshold task (JointClustering_init (RH := RH) (MH := MH), 0%nat)
  = ([Step t c 1; CallPrune threshold; CallAugment c; CallSelect (xy, c)],
     Raise ValueError).
Proof.
  intros Hthr Hstate Htrial Ht Hc Hkey.
  destruct (np_zeros_first_count (n_trials task) t Ht) as (sc & ti & Hsc & Hti & Hsc1).
  destruct (np_zeros_first_count (n_ctx task) c Hc) as (ts & j & Hts & Hj & Hts1).
  set (none := {| jc_reward_hypotheses := @nil RH; jc_mapping_hypotheses := @nil MH;
                  jc_log_belief := [] |}).
  assert (Henter : generate_enter
      (H0 := JointClustering_Agent inverse_temperature n_primitive_actions draws)
      threshold c (JointClustering_init (RH := RH) (MH := MH), 0%nat) ts
    = ([CallPrune threshold; CallAugment c], Ok ((none, 0%nat), alter S j ts))).
  { unfold generate_enter. rewrite Hj. unfold lift. rewrite lbind_Ok. cbv beta zeta.
    rewrite decide_True by done.
    unfold recorded. cbn [agent_prune_hypothesis_space JointClustering_Agent fst snd].
    rewrite JointClustering_prune_init_le_1 by done. cbn [bind].
    rewrite lbind_Ok. cbv beta.
    cbn [agent_augment_assignments JointClustering_Agent fst snd].
    reflexivity. }
  assert (Hact : ∀ results, generate_act
      (H0 := JointClustering_Agent inverse_temperature n_primitive_actions draws)
      task t (xy, c) (none, 0%nat) (alter S ti sc) (alter S j ts) results
    = ([CallSelect (xy, c)], Raise ValueError)).
  { intros results. unfold generate_act, recorded.
    cbn [agent_select_action JointClustering_Agent fst snd].
    unfold JointClustering_select_action, JointClustering_select_abstract_action,
      dict_getitem.
    rewrite Hkey. reflexivity. }
  unfold generate. rewrite Hsc, Hts. unfold lift. rewrite !lbind_Ok. cbv beta.
  cbn [generate_loop ls_task]. rewrite Hstate.
  unfold generate_step. cbn [ls_task ls_step_counter ls_agent ls_times_seen_ctx ls_results].
  rewrite Htrial, Hti. unfold lift. rewrite lbind_Ok. cbv beta zeta.
  rewrite Hsc1. cbn [from_option Datatypes.id].
  rewrite lbind_Ok. cbv beta.
  rewrite decide_True by done. rewrite Henter, lbind_Ok. cbv beta.
  rewrite Hact. reflexivity.
Qed.

End JointRun.

Lemma generate_joint_threshold_le_1_witness :
  generate
    (H0 := JointClustering_Agent (RH := counting_hypothesis) (MH := counting_hypothesis)
             1 4 (λ _, 0%R))
    5 1
    {| st_n_trials := 2; st_n_ctx := 2; st_key := {[ (0, 0) := 0 ]};
       st_script := [ (0, ((0, 0), 1)); (1, ((0, 0), 0)) ] |}
    (JointClustering_init, 0%nat)
  = ([Step 0 1 1; CallPrune 1; CallAugment 1; CallSelect ((0, 0), 1)],
     Raise ValueError).
Proof.
  apply (generate_joint_threshold_le_1 4 1 1 4 (λ _, 0%R)
    {| st_n_trials := 2; st_n_ctx := 2; st_key := {[ (0, 0) := 0 ]};
       st_script := [ (0, ((0, 0), 1)); (1, ((0, 0), 0)) ] |} (0, 0) 1 0 0).
  - lra.
  - reflexivity.
  - reflexivity.
  - simpl. lia.
  - simpl. lia.
  - reflexivity.
Defined.

(** ** Loops over a range and arrays *)

Lemma for_in_app {X S} (xs ys : list X) (body : X → S → result S) s :
  for_in (xs ++ ys) body s = let* s' := for_in xs body s in for_in ys body s'.
Proof.
  revert s. induction xs as [|x xs IH]; intros s; [done|].
  simpl. destruct (body x s) as [s'|e]; [apply IH|done].
Qed.

Lemma py_range_0_S (n : nat) :
  py_range 0 (Z.of_nat (S n)) = py_range 0 (Z.of_nat n) ++ [Z.of_nat n].
Proof.
  unfold py_range. rewrite !Z.sub_0_r.
  replace (Z.of_nat (S n)) with (Z.of_nat n + 1) by lia.
  rewrite seqZ_app by lia. rewrite Z.add_0_l. reflexivity.
Qed.

(** A loop over [range(n)] whose body keeps an invariant indexed by the
    number of iterations done. *)
Lemma for_in_range {S} (P : nat → S → Prop) (body : Z → S → result S) (n : nat) s :
  P 0%nat s →
  (∀ i s, (i < n)%nat → P i s → ∃ s', body (Z.of_nat i) s = Ok s' ∧ P (Datatypes.S i) s') →
  ∃ s', for_in (py_range 0 (Z.of_nat n)) body s = Ok s' ∧ P n s'.
Proof.
  intros H0 Hstep. induction n as [|n IH].
  - exists s. by split.
  - destruct IH as (s1 & Hrun & HP).
    { intros i s' Hi. apply Hstep. lia. }
    destruct (Hstep n s1) as (s2 & Hbody & HP2); [lia|done|].
    exists s2. split; [|done].
    rewrite py_range_0_S, for_in_app, Hrun. simpl. by rewrite Hbody.
Qed.

(** The loop raises at the first iteration whose body raises. *)
Lemma for_in_range_raise {S} (P : nat → S → Prop) (body : Z → S → result S)
    (n j : nat) e s :
  (j < n)%nat → P 0%nat s →
  (∀ i s, (i < j)%nat → P i s → ∃ s', body (Z.of_nat i) s = Ok s' ∧ P (Datatypes.S i) s') →
  (∀ s, P j s → body (Z.of_nat j) s = Raise e) →
  for_in (py_range 0 (Z.of_nat n)) body s = Raise e.
Proof.
  intros Hj H0 Hstep Hraise.
  destruct (for_in_range P body j s H0 Hstep) as (s1 & Hrun & HP).
  assert (py_range 0 (Z.of_nat n)
          = py_range 0 (Z.of_nat j) ++ Z.of_nat j :: seqZ (Z.of_nat (Datatypes.S j))
                                                         (Z.of_nat (n - Datatypes.S j))) as ->.
  { unfold py_range. rewrite !Z.sub_0_r.
    replace (Z.of_nat n) with (Z.of_nat j + Z.of_nat (n - j)) at 1 by lia.
    rewrite seqZ_app by lia. f_equal.
    replace (Z.of_nat (n - j)) with (Z.succ (Z.of_nat (n - Datatypes.S j))) by lia.
    rewrite seqZ_cons by lia. f_equal. f_equal; lia. }
  rewrite for_in_app, Hrun. simpl. by rewrite Hraise.
Qed.

Lemma py_index_nat (len i : nat) : (i < len)%nat → py_index len (Z.of_nat i) = Ok i.
Proof.
  intros Hi. unfold py_index. rewrite decide_True by lia. by rewrite Nat2Z.id.
Qed.

Lemma py_index_ge (len i : nat) : (len ≤ i)%nat → py_index len (Z.of_nat i) = Raise IndexError.
Proof.
  intros Hi. unfold py_index. rewrite decide_False by lia. by rewrite decide_False by lia.
Qed.

Lemma py_getitem_Some {A} (xs : list A) (i : nat) x :
  xs !! i = Some x → py_getitem xs (Z.of_nat i) = Ok x.
Proof.
  intros Hx. unfold py_getitem. rewrite py_index_nat by (by eapply lookup_lt_Some).
  simpl. by rewrite Hx.
Qed.

Lemma py_getitem_ge {A} (xs : list A) (i : nat) :
  (length xs ≤ i)%nat → py_getitem xs (Z.of_nat i) = Raise IndexError.
Proof. intros Hi. unfold py_getitem. by rewrite py_index_ge. Qed.

Lemma py_setitem_nat {A} (xs : list A) (i : nat) v :
  (i < length xs)%nat → py_setitem xs (Z.of_nat i) v = Ok (<[i := v]> xs).
Proof. intros Hi. unfold py_setitem. by rewrite py_index_nat. Qed.

Lemma np_getitem2_at (m : list (list R)) (d0 d1 i j : nat) :
  np_shape_is2 m d0 d1 → (i < d0)%nat → (j < d1)%nat →
  np_getitem2 m (Z.of_nat i) (Z.of_nat j) = Ok (np_at2 m i j).
Proof.
  intros [Hlen Hrows] Hi Hj. unfold np_getitem2, np_at2.
  destruct (lookup_lt_is_Some_2 m i) as [row Hrow]; [lia|].
  assert (length row = d1) as Hrowlen.
  { eapply list.Forall_forall in Hrows; [exact Hrows|]. by eapply list_elem_of_lookup_2. }
  destruct (lookup_lt_is_Some_2 row j) as [x Hx]; [lia|].
  rewrite (py_getitem_Some _ _ _ Hrow). simpl.
  rewrite (py_getitem_Some _ _ _ Hx). rewrite Hrow. simpl. by rewrite Hx.
Qed.

Local Open Scope R_scope.

Lemma np_sum_app (xs ys : list R) : np_sum (xs ++ ys) = np_sum xs + np_sum ys.
Proof.
  induction xs as [|x xs IH]; [change (np_sum []) with 0; simpl; lra|].
  rewrite <- app_comm_cons, !np_sum_cons, IH. lra.
Qed.

Lemma np_sum_take_S (l : list R) (j : nat) x :
  l !! j = Some x → np_sum (take (S j) l) = np_sum (take j l) + x.
Proof.
  intros Hx. rewrite (take_S_r _ _ _ Hx), np_sum_app.
  rewrite np_sum_cons. change (np_sum []) with 0. lra.
Qed.

Lemma np_shape2_is (mapping : list (list R)) (n m : nat) :
  np_shape_is2 mapping n m → (0 < n)%nat → np_shape2 mapping = (n, m).
Proof.
  intros [Hlen Hrows] Hn. unfold np_shape2. destruct mapping as [|row rest]; [simpl in Hlen; lia|].
  simpl. apply list.Forall_cons in Hrows as [-> _]. by rewrite <- Hlen.
Qed.

(** One pass of the inner loop adds to each of the first [n] entries its
    term of column [aa]. *)
Lemma make_q_primitive_column (q_abstract : list R) (mapping : list (list R))
    (n m aa : nat) (q : R) (v : list R) :
  np_shape_is2 mapping n m → (n ≤ 8)%nat → (aa < m)%nat → length v = 8%nat →
  q_abstract !! aa = Some q →
  ∃ v', for_in (py_range 0 (Z.of_nat n)) (λ a q_primitive,
          let* old := py_getitem q_primitive a in
          let* q := py_getitem q_abstract (Z.of_nat aa) in
          let* w := np_getitem2 mapping a (Z.of_nat aa) in
          py_setitem q_primitive a (old + q * w)) v = Ok v' ∧
    length v' = 8%nat ∧
    ∀ a, v' !! a = if decide (a < n)%nat
                   then (λ x, x + q * np_at2 mapping a aa) <$> (v !! a)
                   else v !! a.
Proof.
  intros Hshape Hn Haa Hv Hq.
  pose (P := λ (i : nat) (s : list R), length s = 8%nat ∧
    ∀ a, s !! a = if decide (a < i)%nat
                  then (λ x, x + q * np_at2 mapping a aa) <$> (v !! a)
                  else v !! a).
  apply (for_in_range P).
  - split; [done|]. intros a. by rewrite decide_False by lia.
  - intros i s Hi [Hs Hlook].
    destruct (lookup_lt_is_Some_2 v i) as [x Hx]; [lia|].
    assert (s !! i = Some x) as Hsi.
    { rewrite Hlook, decide_False by lia. done. }
    eexists. split.
    + rewrite (py_getitem_Some _ _ _ Hsi). cbn [bind].
      rewrite (py_getitem_Some _ _ _ Hq). cbn [bind].
      rewrite (np_getitem2_at _ n m) by (done || lia). cbn [bind].
      apply py_setitem_nat. lia.
    + split; [by rewrite length_insert|]. intros a.
      destruct (decide (a = i)) as [->|Hne].
      * rewrite list_lookup_insert_eq by lia. rewrite decide_True by lia.
        by rewrite Hx.
      * rewrite list_lookup_insert_ne by done. rewrite Hlook.
        destruct (decide (a < i)%nat), (decide (a < S i)%nat); try lia; done.
Qed.

Lemma make_q_primitive_column_raise (q_abstract : list R) (mapping : list (list R))
    (n m aa : nat) (v : list R) :
  np_shape_is2 mapping n m → (aa < m)%nat → length v = 8%nat →
  (8 < n)%nat ∨ ((0 < n)%nat ∧ (length q_abstract ≤ aa)%nat) →
  for_in (py_range 0 (Z.of_nat n)) (λ a q_primitive,
    let* old := py_getitem q_primitive a in
    let* q := py_getitem q_abstract (Z.of_nat aa) in
    let* w := np_getitem2 mapping a (Z.of_nat aa) in
    py_setitem q_primitive a (old + q * w)) v = Raise IndexError.
Proof.
  intros Hshape Haa Hv Hcase.
  pose (P := λ (_ : nat) (s : list R), length s = 8%nat).
  destruct (decide (length q_abstract ≤ aa)%nat) as [Hshort|Hlong].
  - assert (0 < n)%nat as Hn by (destruct Hcase as [?|[? ?]]; lia).
    apply (for_in_range_raise P _ n 0); [done|done|intros; lia|].
    intros s Hs. destruct (lookup_lt_is_Some_2 s 0) as [x Hx]; [unfold P in Hs; lia|].
    rewrite (py_getitem_Some _ _ _ Hx). cbn [bind].
    by rewrite py_getitem_ge.
  - destruct Hcase as [Hn|[_ ?]]; [|lia].
    destruct (lookup_lt_is_Some_2 q_abstract aa) as [q Hq]; [lia|].
    apply (for_in_range_raise P _ n 8); [done|done| |].
    + intros i s Hi Hs. destruct (lookup_lt_is_Some_2 s i) as [x Hx]; [unfold P in Hs; lia|].
      eexists. split.
      * rewrite (py_getitem_Some _ _ _ Hx). cbn [bind].
        rewrite (py_getitem_Some _ _ _ Hq). cbn [bind].
        rewrite (np_getitem2_at _ n m) by (done || lia). cbn [bind].
        apply py_setitem_nat. unfold P in Hs. lia.
      * unfold P. by rewrite length_insert.
    + intros s Hs. rewrite (py_getitem_ge s 8); [done|]. unfold P in Hs. lia.
Qed.

Lemma np_at2_lookup (mapping : list (list R)) (a j : nat) row x :
  mapping !! a = Some row → row !! j = Some x → np_at2 mapping a j = x.
Proof. intros Hrow Hx. unfold np_at2. rewrite Hrow. simpl. by rewrite Hx. Qed.

(** X25. For a mapping of at most 8 rows and a vector [q_abstract] with an
    entry for each of its columns, [make_q_primitive] returns a vector of 8
    numbers: entry [a] is the product of row [a] of the mapping with
    [q_abstract], and the entries past the last row are 0. A mapping with
    more than 8 rows (and a column) raises [IndexError], and so does a
    [q_abstract] shorter than the rows. *)
Theorem make_q_primitive_product (q_abstract : list R) (mapping : list (list R))
    (n m : nat) :
  np_shape_is2 mapping n m →
  ((n ≤ 8)%nat → (m ≤ length q_abstract)%nat →
   ∃ v, make_q_primitive q_abstract mapping = Ok v ∧ length v = 8%nat ∧
     (∀ a row, mapping !! a = Some row →
        v !! a = Some (np_sum (zip_with Rmult q_abstract row))) ∧
     (∀ a, (n ≤ a < 8)%nat → v !! a = Some 0)) ∧
  ((8 < n)%nat → (0 < m)%nat → make_q_primitive q_abstract mapping = Raise IndexError) ∧
  ((0 < n)%nat → (length q_abstract < m)%nat →
   make_q_primitive q_abstract mapping = Raise IndexError).
Proof.
  intros Hshape.
  pose (Q := λ (j : nat) (s : list R), length s = 8%nat ∧
    ∀ a, (a < 8)%nat →
      s !! a = Some (if decide (a < n)%nat
                     then np_sum (take j (zip_with Rmult q_abstract
                                            (default [] (mapping !! a))))
                     else 0)).
  assert (HQ0 : Q 0%nat (replicate 8 0)).
  { split; [done|]. intros a Ha. rewrite lookup_replicate_2 by done.
    by destruct (decide (a < n)%nat). }
  assert (HQstep : ∀ j s, (n ≤ 8)%nat → (j < m)%nat → (j < length q_abstract)%nat → Q j s →
    ∃ s', for_in (py_range 0 (Z.of_nat n)) (λ a q_primitive,
            let* old := py_getitem q_primitive a in
            let* q := py_getitem q_abstract (Z.of_nat j) in
            let* w := np_getitem2 mapping a (Z.of_nat j) in
            py_setitem q_primitive a (old + q * w)) s = Ok s' ∧ Q (S j) s').
  { intros j s Hn Hj Hjq [Hs Hlook].
    destruct (lookup_lt_is_Some_2 q_abstract j) as [q Hq]; [lia|].
    destruct (make_q_primitive_column q_abstract mapping n m j q s Hshape Hn Hj Hs Hq)
      as (s' & Hrun & Hs' & Hlook').
    exists s'. split; [done|]. split; [done|]. intros a Ha.
    rewrite Hlook', (Hlook a Ha). destruct (decide (a < n)%nat) as [Han|Han]; [|done].
    simpl. f_equal. destruct Hshape as [Hlen Hrows].
    destruct (lookup_lt_is_Some_2 mapping a) as [row Hrow]; [lia|].
    assert (length row = m) as Hrowlen.
    { eapply list.Forall_forall in Hrows; [exact Hrows|]. by eapply list_elem_of_lookup_2. }
    destruct (lookup_lt_is_Some_2 row j) as [x Hx]; [lia|].
    rewrite Hrow. simpl. rewrite (np_at2_lookup _ _ _ _ _ Hrow Hx).
    symmetry. apply np_sum_take_S. rewrite lookup_zip_with, Hq. simpl. by rewrite Hx. }
  split; [|split].
  - intros Hn Hm. unfold make_q_primitive.
    destruct (decide (n = 0)%nat) as [->|Hn0].
    + destruct Hshape as [Hlen _]. apply length_zero_iff_nil in Hlen as ->.
      simpl. exists (replicate 8 0). split; [done|]. split; [done|].
      split; [intros a row Hrow; done|].
      intros a Ha. apply lookup_replicate_2. lia.
    + rewrite (np_shape2_is mapping n m) by (done || lia).
      destruct (for_in_range Q (λ aa q_primitive,
        for_in (py_range 0 (Z.of_nat n)) (λ a q_primitive,
          let* old := py_getitem q_primitive a in
          let* q := py_getitem q_abstract aa in
          let* w := np_getitem2 mapping a aa in
          py_setitem q_primitive a (old + q * w)) q_primitive) m (replicate 8 0) HQ0)
        as (v & Hrun & Hv & Hlook).
      { intros j s Hj HQ. apply HQstep; [done|done|lia|done]. }
      exists v. split; [exact Hrun|]. split; [done|]. split.
      * intros a row Hrow. pose proof (lookup_lt_Some _ _ _ Hrow) as Ha.
        destruct Hshape as [Hlen Hrows]. rewrite Hlook by lia.
        rewrite decide_True by lia. rewrite Hrow. simpl.
        rewrite take_ge; [done|]. rewrite length_zip_with.
        assert (length row = m) as ->.
        { eapply list.Forall_forall in Hrows; [exact Hrows|]. by eapply list_elem_of_lookup_2. }
        lia.
      * intros a Ha. rewrite Hlook by lia. by rewrite decide_False by lia.
  - intros Hn Hm. unfold make_q_primitive.
    rewrite (np_shape2_is mapping n m) by (done || lia).
    apply (for_in_range_raise (λ _ s, length s = 8%nat) _ m 0); [done|done|intros; lia|].
    intros s Hs. apply (make_q_primitive_column_raise _ _ n m 0); [done|done|done|by left].
  - intros Hn Hm. unfold make_q_primitive.
    rewrite (np_shape2_is mapping n m) by (done || lia).
    destruct (decide (8 < n)%nat) as [Hbig|Hsmall].
    + apply (for_in_range_raise (λ _ s, length s = 8%nat) _ m 0); [lia|done|intros; lia|].
      intros s Hs. apply (make_q_primitive_column_raise _ _ n m 0); [done|lia|done|by left].
    + apply (for_in_range_raise Q _ m (length q_abstract)); [done|done| |].
      * intros j s Hj HQ. apply HQstep; [lia|lia|done|done].
      * intros s [Hs _].
        apply (make_q_primitive_column_raise _ _ n m (length q_abstract));
          [done|done|done|]. right. split; [done|lia].
Qed.

Lemma make_q_primitive_product_witness :
  ∃ v, make_q_primitive [2; 3] [[1; 0]; [1/2; 1/2]] = Ok v ∧
    v !! 1%nat = Some (np_sum (zip_with Rmult [2; 3] [1/2; 1/2])) ∧
    v !! 5%nat = Some 0.
Proof.
  destruct (make_q_primitive_product [2; 3] [[1; 0]; [1/2; 1/2]] 2 2) as [H _].
  { split; [done|]. repeat constructor. }
  destruct H as (v & Hv & _ & Hrow & Hzero); [lia|simpl; lia|].
  exists v. split; [exact Hv|]. split.
  - apply Hrow. reflexivity.
  - apply Hzero. lia.
Defined.

Local Close Scope R_scope.

(** ** Arrays of two and three dimensions *)

Lemma np_shape_is2_row (m : list (list R)) d0 d1 i row :
  np_shape_is2 m d0 d1 → m !! i = Some row → length row = d1.
Proof.
  intros [_ Hrows] Hrow. eapply list.Forall_forall in Hrows; [exact Hrows|].
  by eapply list_elem_of_lookup_2.
Qed.

Lemma np_shape_is3_plane (m : list (list (list R))) d0 d1 d2 i plane :
  np_shape_is3 m d0 d1 d2 → m !! i = Some plane → np_shape_is2 plane d1 d2.
Proof.
  intros [_ Hplanes] Hplane. eapply list.Forall_forall in Hplanes; [exact Hplanes|].
  by eapply list_elem_of_lookup_2.
Qed.

Lemma insert_alter_lookup {A} (f : A → A) (l : list A) i x :
  l !! i = Some x → <[i := f x]> l = alter f i l.
Proof.
  intros Hx. pose proof (lookup_lt_Some _ _ _ Hx) as Hlt.
  apply list_eq. intros k. destruct (decide (k = i)) as [->|Hne].
  - by rewrite list_lookup_insert_eq, list_lookup_alter_eq, Hx by done.
  - by rewrite list_lookup_insert_ne, list_lookup_alter_ne by done.
Qed.

Lemma np_getitem2_spec (m : list (list R)) d0 d1 i j :
  np_shape_is2 m d0 d1 →
  np_getitem2 m i j
  = let* ci := py_index d0 i in let* cj := py_index d1 j in Ok (np_at2 m ci cj).
Proof.
  intros Hshape. pose proof Hshape as [Hlen _].
  unfold np_getitem2, py_getitem. rewrite Hlen.
  destruct (py_index d0 i) as [ci|e] eqn:Hi; [|done]. cbn [bind].
  apply py_index_lt in Hi.
  destruct (lookup_lt_is_Some_2 m ci) as [row Hrow]; [lia|]. rewrite Hrow. cbn [bind].
  rewrite (np_shape_is2_row _ _ _ _ _ Hshape Hrow).
  destruct (py_index d1 j) as [cj|e] eqn:Hj; [|done]. cbn [bind].
  apply py_index_lt in Hj.
  destruct (lookup_lt_is_Some_2 row cj) as [x Hx].
  { by rewrite (np_shape_is2_row _ _ _ _ _ Hshape Hrow). }
  rewrite Hx. unfold np_at2. rewrite Hrow. simpl. by rewrite Hx.
Qed.

Lemma np_setitem2_spec (m : list (list R)) d0 d1 i j v :
  np_shape_is2 m d0 d1 →
  np_setitem2 m i j v
  = let* ci := py_index d0 i in let* cj := py_index d1 j in Ok (np_set2 m ci cj v).
Proof.
  intros Hshape. pose proof Hshape as [Hlen _].
  unfold np_setitem2, py_getitem, py_setitem. rewrite Hlen.
  destruct (py_index d0 i) as [ci|e] eqn:Hi; [|done]. cbn [bind].
  apply py_index_lt in Hi.
  destruct (lookup_lt_is_Some_2 m ci) as [row Hrow]; [lia|]. rewrite Hrow. cbn [bind].
  rewrite (np_shape_is2_row _ _ _ _ _ Hshape Hrow).
  destruct (py_index d1 j) as [cj|e] eqn:Hj; [|done]. cbn [bind].
  unfold np_set2. by rewrite (insert_alter_lookup (<[cj := v]>) m ci row).
Qed.

Lemma np_set2_shape (m : list (list R)) d0 d1 i j v :
  np_shape_is2 m d0 d1 → np_shape_is2 (np_set2 m i j v) d0 d1.
Proof.
  intros [Hlen Hrows]. unfold np_set2. split; [by rewrite length_alter|].
  apply Forall_alter; [done|]. intros row _ Hrow. by rewrite length_insert.
Qed.

Lemma np_at2_set2 (m : list (list R)) d0 d1 i j v x y :
  np_shape_is2 m d0 d1 → (i < d0)%nat → (j < d1)%nat →
  np_at2 (np_set2 m i j v) x y
  = if decide (x = i ∧ y = j) then v else np_at2 m x y.
Proof.
  intros Hshape Hi Hj. pose proof Hshape as [Hlen _]. unfold np_at2, np_set2.
  destruct (lookup_lt_is_Some_2 m i) as [row Hrow]; [lia|].
  pose proof (np_shape_is2_row _ _ _ _ _ Hshape Hrow) as Hrowlen.
  destruct (decide (x = i)) as [->|Hx].
  - rewrite list_lookup_alter_eq, Hrow. simpl.
    destruct (decide (y = j)) as [->|Hy].
    + rewrite decide_True by done. by rewrite list_lookup_insert_eq by lia.
    + rewrite decide_False by tauto. by rewrite list_lookup_insert_ne by done.
  - rewrite decide_False by tauto. by rewrite list_lookup_alter_ne by done.
Qed.

Lemma np_getitem3_spec (m : list (list (list R))) d0 d1 d2 i j k :
  np_shape_is3 m d0 d1 d2 →
  np_getitem3 m i j k
  = let* ci := py_index d0 i in let* cj := py_index d1 j in
    let* ck := py_index d2 k in Ok (np_at3 m ci cj ck).
Proof.
  intros Hshape. pose proof Hshape as [Hlen _].
  unfold np_getitem3, py_getitem. rewrite Hlen.
  destruct (py_index d0 i) as [ci|e] eqn:Hi; [|done]. cbn [bind].
  apply py_index_lt in Hi.
  destruct (lookup_lt_is_Some_2 m ci) as [plane Hplane]; [lia|].
  rewrite Hplane. cbn [bind].
  rewrite (np_getitem2_spec plane d1 d2) by (by eapply np_shape_is3_plane).
  destruct (py_index d1 j) as [cj|e]; [|done].
  destruct (py_index d2 k) as [ck|e]; [|done]. cbn [bind].
  unfold np_at3, np_at2. by rewrite Hplane.
Qed.

Lemma np_setitem3_spec (m : list (list (list R))) d0 d1 d2 i j k v :
  np_shape_is3 m d0 d1 d2 →
  np_setitem3 m i j k v
  = let* ci := py_index d0 i in let* cj := py_index d1 j in
    let* ck := py_index d2 k in Ok (np_set3 m ci cj ck v).
Proof.
  intros Hshape. pose proof Hshape as [Hlen _].
  unfold np_setitem3, py_getitem, py_setitem. rewrite Hlen.
  destruct (py_index d0 i) as [ci|e] eqn:Hi; [|done]. cbn [bind].
  apply py_index_lt in Hi.
  destruct (lookup_lt_is_Some_2 m ci) as [plane Hplane]; [lia|].
  rewrite Hplane. cbn [bind].
  rewrite (np_setitem2_spec plane d1 d2) by (by eapply np_shape_is3_plane).
  destruct (py_index d1 j) as [cj|e]; [|done].
  destruct (py_index d2 k) as [ck|e]; [|done]. cbn [bind].
  unfold np_set3. by rewrite (insert_alter_lookup (λ p, np_set2 p cj ck v) m ci plane).
Qed.

Lemma np_set3_shape (m : list (list (list R))) d0 d1 d2 i j k v :
  np_shape_is3 m d0 d1 d2 → np_shape_is3 (np_set3 m i j k v) d0 d1 d2.
Proof.
  intros [Hlen Hplanes]. unfold np_set3. split; [by rewrite length_alter|].
  apply Forall_alter; [done|]. intros plane _ Hplane. by apply np_set2_shape.
Qed.

Lemma np_at3_set3 (m : list (list (list R))) d0 d1 d2 i j k v x y z :
  np_shape_is3 m d0 d1 d2 → (i < d0)%nat → (j < d1)%nat → (k < d2)%nat →
  np_at3 (np_set3 m i j k v) x y z
  = if decide (x = i ∧ y = j ∧ z = k) then v else np_at3 m x y z.
Proof.
  intros Hshape Hi Hj Hk. pose proof Hshape as [Hlen _]. unfold np_at3, np_set3.
  destruct (lookup_lt_is_Some_2 m i) as [plane Hplane]; [lia|].
  pose proof (np_shape_is3_plane _ _ _ _ _ _ Hshape Hplane) as Hp.
  destruct (decide (x = i)) as [->|Hx].
  - rewrite list_lookup_alter_eq, Hplane. simpl.
    pose proof (np_at2_set2 plane d1 d2 j k v y z Hp Hj Hk) as Hat.
    unfold np_at2 in Hat. rewrite Hat.
    destruct (decide (y = j ∧ z = k)) as [[-> ->]|Hyz].
    + by rewrite decide_True.
    + by rewrite decide_False by tauto.
  - rewrite decide_False by tauto. by rewrite list_lookup_alter_ne by done.
Qed.

(** ** The mapping statistics of [ModelBasedAgent] *)

Local Open Scope R_scope.

Lemma sum_over_S n f : sum_over (S n) f = sum_over n f + f n.
Proof.
  unfold sum_over. rewrite seq_S, fmap_app, np_sum_app. f_equal.
  unfold np_sum. simpl. lra.
Qed.

Lemma sum_over_ext n f g : (∀ a, (a < n)%nat → f a = g a) → sum_over n f = sum_over n g.
Proof.
  intros Hext. induction n as [|n IH]; [done|].
  rewrite !sum_over_S, IH, Hext by (intros; (lia || (apply Hext; lia))). done.
Qed.

Lemma sum_over_const n v : sum_over n (λ _, v) = INR n * v.
Proof.
  induction n as [|n IH]; [unfold sum_over; simpl; change (np_sum []) with 0; lra|].
  rewrite sum_over_S, IH, S_INR. lra.
Qed.

Lemma sum_over_div n f k : sum_over n (λ a, f a / k) = sum_over n f / k.
Proof.
  induction n as [|n IH].
  - unfold sum_over. simpl. change (np_sum []) with 0. unfold Rdiv. by rewrite Rmult_0_l.
  - rewrite !sum_over_S, IH. unfold Rdiv. by rewrite Rmult_plus_distr_r.
Qed.

Lemma sum_over_bump n f g i d :
  (i < n)%nat → (∀ a, (a < n)%nat → g a = if decide (a = i) then f a + d else f a) →
  sum_over n g = sum_over n f + d.
Proof.
  revert i. induction n as [|n IH]; intros i Hi Hg; [lia|].
  rewrite !sum_over_S. destruct (decide (i = n)) as [->|Hne].
  - rewrite (sum_over_ext n g f).
    + rewrite (Hg n) by lia. rewrite decide_True by done. lra.
    + intros a Ha. rewrite Hg by lia. by rewrite decide_False by lia.
  - rewrite (IH i) by (lia || (intros; apply Hg; lia)).
    rewrite (Hg n) by lia. rewrite decide_False by lia. lra.
Qed.

Lemma sum_over_pos n f : (0 < n)%nat → (∀ a, (a < n)%nat → 0 < f a) → 0 < sum_over n f.
Proof.
  intros Hn Hf. induction n as [|n IH]; [lia|].
  rewrite sum_over_S. pose proof (Hf n ltac:(lia)).
  destruct n as [|n]; [unfold sum_over at 1; simpl; change (np_sum []) with 0; lra|].
  assert (0 < sum_over (S n) f) by (apply IH; [lia|intros; apply Hf; lia]). lra.
Qed.

(** The two loops of [updating_mapping] recompute the plane of context [c]
    and leave the other planes as they are. *)
Lemma ModelBasedAgent_updating_mapping_loops
    (history : list (list (list R))) (counts : list (list R))
    (mle : list (list (list R))) (d0 d1 d2 : nat) (c : Z) (ci : nat) :
  np_shape_is3 history d0 d1 (S d2) → np_shape_is2 counts d0 (S d2) →
  np_shape_is3 mle d0 d1 d2 → py_index d0 c = Ok ci →
  ∃ mle',
    for_in (py_range 0 (Z.of_nat d2)) (λ aa0 mapping_mle,
      for_in (py_range 0 (Z.of_nat d1)) (λ a0 mapping_mle,
        let* h := np_getitem3 history c a0 aa0 in
        let* n := np_getitem2 counts c aa0 in
        np_setitem3 mapping_mle c a0 aa0 (h / n)) mapping_mle) mle = Ok mle' ∧
    np_shape_is3 mle' d0 d1 d2 ∧
    (∀ x, x ≠ ci → mle' !! x = mle !! x) ∧
    (∀ y z, (y < d1)%nat → (z < d2)%nat →
       np_at3 mle' ci y z = np_at3 history ci y z / np_at2 counts ci z).
Proof.
  intros Hh Hc Hm Hci. pose proof (py_index_lt _ _ _ Hci) as Hlt.
  pose (val := λ y z, np_at3 history ci y z / np_at2 counts ci z).
  pose (Q := λ (k : nat) (s : list (list (list R))),
    np_shape_is3 s d0 d1 d2 ∧ (∀ x, x ≠ ci → s !! x = mle !! x) ∧
    ∀ y z, (y < d1)%nat → (z < d2)%nat →
      np_at3 s ci y z = if decide (z < k)%nat then val y z else np_at3 mle ci y z).
  destruct (for_in_range Q (λ aa0 mapping_mle,
      for_in (py_range 0 (Z.of_nat d1)) (λ a0 mapping_mle,
        let* h := np_getitem3 history c a0 aa0 in
        let* n := np_getitem2 counts c aa0 in
        np_setitem3 mapping_mle c a0 aa0 (h / n)) mapping_mle) d2 mle)
    as (mle' & Hrun & Hshape & Hother & Hat).
  - split; [done|]. split; [done|]. intros y z _ _. by rewrite decide_False by lia.
  - intros k s0 Hk (Hs0 & Hother0 & Hat0).
    pose (P := λ (i : nat) (s : list (list (list R))),
      np_shape_is3 s d0 d1 d2 ∧ (∀ x, x ≠ ci → s !! x = mle !! x) ∧
      ∀ y z, (y < d1)%nat → (z < d2)%nat →
        np_at3 s ci y z = if decide (z = k ∧ y < i)%nat then val y z
                          else np_at3 s0 ci y z).
    destruct (for_in_range P (λ a0 mapping_mle,
        let* h := np_getitem3 history c a0 (Z.of_nat k) in
        let* n := np_getitem2 counts c (Z.of_nat k) in
        np_setitem3 mapping_mle c a0 (Z.of_nat k) (h / n)) d1 s0)
      as (s1 & Hrun1 & Hs1 & Hother1 & Hat1).
    + split; [done|]. split; [done|]. intros y z _ _. by rewrite decide_False by lia.
    + intros i s Hi (Hs & Hothers & Hats). eexists. split.
      * rewrite (np_getitem3_spec history d0 d1 (S d2)) by done.
        rewrite Hci, !py_index_nat by lia. cbn [bind].
        rewrite (np_getitem2_spec counts d0 (S d2)) by done.
        rewrite Hci, !py_index_nat by lia. cbn [bind].
        rewrite (np_setitem3_spec s d0 d1 d2) by done.
        rewrite Hci, !py_index_nat by lia. cbn [bind]. reflexivity.
      * split; [by apply np_set3_shape|]. split.
        { intros x Hx. unfold np_set3. rewrite list_lookup_alter_ne by done.
          by apply Hothers. }
        intros y z Hy Hz. rewrite (np_at3_set3 s d0 d1 d2) by done.
        rewrite Hats by done.
        destruct (decide (ci = ci ∧ y = i ∧ z = k)) as [(_ & -> & ->)|Hne].
        { by rewrite decide_True by lia. }
        destruct (decide (z = k ∧ y < i)%nat), (decide (z = k ∧ y < S i)%nat);
          try done; lia.
    + exists s1. split; [exact Hrun1|]. split; [done|]. split; [done|].
      intros y z Hy Hz. rewrite Hat1, Hat0 by done.
      destruct (decide (z = k ∧ y < d1)%nat), (decide (z < k)%nat),
        (decide (z < S k)%nat); try done; lia.
  - exists mle'. split; [exact Hrun|]. split; [done|]. split; [done|].
    intros y z Hy Hz. rewrite Hat by done. by rewrite decide_True by lia.
Qed.

Lemma py_index_Raise len i e : py_index len i = Raise e → e = IndexError.
Proof. unfold py_index. repeat case_decide; by intros [= <-]. Qed.

(** What [updating_mapping] returns on arrays of the constructor's shapes. *)
Lemma ModelBasedAgent_updating_mapping_Ok (self : ModelBasedAgent) (d0 d1 d2 : nat)
    (c a aa : Z) (ci ai ki : nat) :
  mb_mapping_shapes self d0 d1 d2 →
  py_index d0 c = Ok ci → py_index d1 a = Ok ai → py_index (S d2) aa = Ok ki →
  ∃ self', ModelBasedAgent_updating_mapping c a aa self = Ok self' ∧
    mb_mapping_shapes self' d0 d1 d2 ∧
    mb_mapping_history self'
    = np_set3 (mb_mapping_history self) ci ai ki
        (np_at3 (mb_mapping_history self) ci ai ki + 1) ∧
    mb_abstract_action_counts self'
    = np_set2 (mb_abstract_action_counts self) ci ki
        (np_at2 (mb_abstract_action_counts self) ci ki + 1) ∧
    (∀ x, x ≠ ci → mb_mapping_mle self' !! x = mb_mapping_mle self !! x) ∧
    (∀ y z, (y < d1)%nat → (z < d2)%nat →
       np_at3 (mb_mapping_mle self') ci y z
       = np_at3 (mb_mapping_history self') ci y z
         / np_at2 (mb_abstract_action_counts self') ci z) ∧
    mb_n_states self' = mb_n_states self ∧
    mb_reward_visits self' = mb_reward_visits self ∧
    mb_reward_received self' = mb_reward_received self ∧
    mb_reward_function self' = mb_reward_function self.
Proof.
  intros (Hn1 & Hn2 & Hh & Hc & Hm) Hci Hai Hki.
  unfold ModelBasedAgent_updating_mapping.
  rewrite (np_getitem3_spec _ d0 d1 (S d2)) by done. rewrite Hci, Hai, Hki. cbn [bind].
  rewrite (np_setitem3_spec _ d0 d1 (S d2)) by done. rewrite Hci, Hai, Hki. cbn [bind].
  rewrite (np_getitem2_spec _ d0 (S d2)) by done. rewrite Hci, Hki. cbn [bind].
  rewrite (np_setitem2_spec _ d0 (S d2)) by done. rewrite Hci, Hki. cbn [bind].
  rewrite Hn1, Hn2.
  set (history' := np_set3 _ _ _ _ _). set (counts' := np_set2 _ _ _ _).
  destruct (ModelBasedAgent_updating_mapping_loops history' counts'
              (mb_mapping_mle self) d0 d1 d2 c ci)
    as (mle' & Hrun & Hshape & Hother & Hat);
    [by apply np_set3_shape|by apply np_set2_shape|done|done|].
  rewrite Hrun. cbn [bind]. eexists. split; [reflexivity|]. simpl.
  split; [|split; [reflexivity|split; [reflexivity|split; [exact Hother|
    split; [exact Hat|done]]]]].
  split; [done|]. split; [done|]. split; [by apply np_set3_shape|].
  split; [by apply np_set2_shape|done].
Qed.

Lemma ModelBasedAgent_updating_mapping_Raise (self : ModelBasedAgent) (d0 d1 d2 : nat)
    (c a aa : Z) :
  mb_mapping_shapes self d0 d1 d2 →
  py_index d0 c = Raise IndexError ∨ py_index d1 a = Raise IndexError ∨
  py_index (S d2) aa = Raise IndexError →
  ModelBasedAgent_updating_mapping c a aa self = Raise IndexError.
Proof.
  intros (Hn1 & Hn2 & Hh & Hc & Hm) Hcase.
  unfold ModelBasedAgent_updating_mapping.
  rewrite (np_getitem3_spec _ d0 d1 (S d2)) by done.
  destruct (py_index d0 c) as [ci|e] eqn:Hci;
    [|by rewrite (py_index_Raise _ _ _ Hci)].
  destruct (py_index d1 a) as [ai|e] eqn:Hai;
    [|by rewrite (py_index_Raise _ _ _ Hai)].
  destruct (py_index (S d2) aa) as [ki|e] eqn:Hki;
    [|by rewrite (py_index_Raise _ _ _ Hki)].
  destruct Hcase as [?|[?|?]]; discriminate.
Qed.

Lemma np_at3_replicate (d0 d1 d2 : nat) (v : R) c a k :
  (c < d0)%nat → (a < d1)%nat → (k < d2)%nat →
  np_at3 (replicate d0 (replicate d1 (replicate d2 v))) c a k = v.
Proof.
  intros Hc Ha Hk. unfold np_at3. rewrite lookup_replicate_2 by done. simpl.
  rewrite lookup_replicate_2 by done. simpl. by rewrite lookup_replicate_2 by done.
Qed.

Lemma np_at2_replicate (d0 d1 : nat) (v : R) c k :
  (c < d0)%nat → (k < d1)%nat → np_at2 (replicate d0 (replicate d1 v)) c k = v.
Proof.
  intros Hc Hk. unfold np_at2. rewrite lookup_replicate_2 by done. simpl.
  by rewrite lookup_replicate_2 by done.
Qed.

Lemma np_shape_is2_replicate (d0 d1 : nat) (v : R) :
  np_shape_is2 (replicate d0 (replicate d1 v)) d0 d1.
Proof.
  split; [by rewrite length_replicate|]. apply Forall_replicate.
  by rewrite length_replicate.
Qed.

Lemma np_shape_is3_replicate (d0 d1 d2 : nat) (v : R) :
  np_shape_is3 (replicate d0 (replicate d1 (replicate d2 v))) d0 d1 d2.
Proof.
  split; [by rewrite length_replicate|]. apply Forall_replicate.
  apply np_shape_is2_replicate.
Qed.

Section ModelBasedMapping.
Context {T : Type} `{Task T}.

(** The constructor returns when no size is negative and there is a
    primitive action, and its arrays are consistent when the prior is
    positive. *)
Lemma ModelBasedAgent_init_inr (task : T) (n_states n_prim n_abs : Z) (prior : R)
    (agent : ModelBasedAgent) :
  ModelBasedAgent_init task n_states n_prim n_abs prior = inr agent →
  (0 ≤ n_ctx task)%Z ∧ (0 < n_prim)%Z ∧ (0 ≤ n_abs)%Z ∧ (0 ≤ n_states)%Z ∧
  agent = {|
    mb_n_states := n_states;
    mb_n_primitive_actions := n_prim;
    mb_n_abstract_actions := n_abs;
    mb_mapping_history :=
      replicate (Z.to_nat (n_ctx task))
        (replicate (Z.to_nat n_prim) (replicate (Z.to_nat (n_abs + 1)) (1 * prior)));
    mb_abstract_action_counts :=
      replicate (Z.to_nat (n_ctx task))
        (replicate (Z.to_nat (n_abs + 1)) (1 * (prior * IZR n_prim)));
    mb_mapping_mle :=
      replicate (Z.to_nat (n_ctx task))
        (replicate (Z.to_nat n_prim)
           (replicate (Z.to_nat n_abs) (1 * 1 * (1 / IZR n_prim))));
    mb_reward_visits :=
      replicate (Z.to_nat (n_ctx task)) (replicate (Z.to_nat n_states) (1 * (1 / 10000)));
    mb_reward_received :=
      replicate (Z.to_nat (n_ctx task)) (replicate (Z.to_nat n_states) (1 * (1 / 1000)));
    mb_reward_function :=
      replicate (Z.to_nat (n_ctx task))
        (replicate (Z.to_nat n_states) (1 * (1 / 1000 / (101 / 10000))));
  |}.
Proof.
  unfold ModelBasedAgent_init, np_ones3, np_ones2, init_bind.
  repeat case_decide; try discriminate. intros [= <-].
  rewrite !fmap_replicate. split; [lia|]. split; [lia|]. split; [lia|]. split; [lia|done].
Qed.

Lemma ModelBasedAgent_init_consistent (task : T) (n_states n_prim n_abs : Z) (prior : R)
    (agent : ModelBasedAgent) :
  0 < prior →
  ModelBasedAgent_init task n_states n_prim n_abs prior = inr agent →
  mb_mapping_consistent agent (Z.to_nat (n_ctx task)) (Z.to_nat n_prim) (Z.to_nat n_abs).
Proof.
  intros Hprior Hinit.
  apply ModelBasedAgent_init_inr in Hinit as (Hctx & Hprim & Habs & Hst & ->).
  assert (Z.to_nat (n_abs + 1) = S (Z.to_nat n_abs)) as -> by lia.
  assert (IZR n_prim = INR (Z.to_nat n_prim)) as Hn.
  { rewrite INR_IZR_INZ. f_equal. lia. }
  assert (0 < INR (Z.to_nat n_prim)) as Hpos by (apply lt_0_INR; lia).
  split; [|split; [lia|split; [|split]]];
    cbn [mb_n_primitive_actions mb_n_abstract_actions mb_mapping_history
         mb_abstract_action_counts mb_mapping_mle].
  - unfold mb_mapping_shapes.
    cbn [mb_n_primitive_actions mb_n_abstract_actions mb_mapping_history
         mb_abstract_action_counts mb_mapping_mle].
    split; [lia|]. split; [lia|].
    split; [apply np_shape_is3_replicate|].
    split; [apply np_shape_is2_replicate|apply np_shape_is3_replicate].
  - intros c a k Hc Ha Hk. rewrite np_at3_replicate by done. lra.
  - intros c k Hc Hk. rewrite np_at2_replicate by done.
    rewrite (sum_over_ext _ _ (λ _, 1 * prior)).
    + rewrite sum_over_const, Hn. lra.
    + intros a Ha. by rewrite np_at3_replicate.
  - intros c k Hc Hk. split.
    + intros a Ha. rewrite np_at3_replicate by done. rewrite Hn.
      apply Rmult_lt_0_compat; [lra|]. apply Rdiv_lt_0_compat; lra.
    + rewrite (sum_over_ext _ _ (λ _, 1 * 1 * (1 / IZR n_prim))).
      * rewrite sum_over_const, Hn. field. lra.
      * intros a Ha. by rewrite np_at3_replicate.
Qed.

Lemma ModelBasedAgent_updating_mapping_consistent (self self' : ModelBasedAgent)
    (d0 d1 d2 : nat) (c a aa : Z) :
  mb_mapping_consistent self d0 d1 d2 →
  ModelBasedAgent_updating_mapping c a aa self = Ok self' →
  mb_mapping_consistent self' d0 d1 d2.
Proof.
  intros (Hshapes & Hd1 & Hpos & Hcounts & Hmle) Hrun.
  destruct (py_index d0 c) as [ci|e] eqn:Hci.
  2:{ rewrite (ModelBasedAgent_updating_mapping_Raise self d0 d1 d2) in Hrun;
        [done|done|]. left. by rewrite (py_index_Raise _ _ _ Hci) in Hci. }
  destruct (py_index d1 a) as [ai|e] eqn:Hai.
  2:{ rewrite (ModelBasedAgent_updating_mapping_Raise self d0 d1 d2) in Hrun;
        [done|done|]. right. left. by rewrite (py_index_Raise _ _ _ Hai) in Hai. }
  destruct (py_index (S d2) aa) as [ki|e] eqn:Hki.
  2:{ rewrite (ModelBasedAgent_updating_mapping_Raise self d0 d1 d2) in Hrun;
        [done|done|]. right. right. by rewrite (py_index_Raise _ _ _ Hki) in Hki. }
  destruct (ModelBasedAgent_updating_mapping_Ok self d0 d1 d2 c a aa ci ai ki
              Hshapes Hci Hai Hki)
    as (self1 & Hrun1 & Hshapes1 & Hh1 & Hc1 & Hother & Hat & _).
  rewrite Hrun1 in Hrun. injection Hrun as <-.
  pose proof (py_index_lt _ _ _ Hci) as Hci'.
  pose proof (py_index_lt _ _ _ Hai) as Hai'.
  pose proof (py_index_lt _ _ _ Hki) as Hki'.
  destruct Hshapes as (Hn1 & Hn2 & Hsh & Hsc & Hsm).
  assert (Hpos1 : ∀ x y z, (x < d0)%nat → (y < d1)%nat → (z < S d2)%nat →
            0 < np_at3 (mb_mapping_history self1) x y z).
  { intros x y z Hx Hy Hz. rewrite Hh1, (np_at3_set3 _ d0 d1 (S d2)) by done.
    case_decide as Heq.
    - pose proof (Hpos ci ai ki Hci' Hai' Hki'). lra.
    - by apply Hpos. }
  assert (Hcounts1 : ∀ x z, (x < d0)%nat → (z < S d2)%nat →
            np_at2 (mb_abstract_action_counts self1) x z
            = sum_over d1 (λ y, np_at3 (mb_mapping_history self1) x y z)).
  { intros x z Hx Hz. rewrite Hc1, (np_at2_set2 _ d0 (S d2)) by done.
    case_decide as Heq.
    - destruct Heq as [-> ->]. rewrite Hcounts by done.
      symmetry. apply (sum_over_bump _ _ _ ai); [done|].
      intros y Hy. rewrite Hh1, (np_at3_set3 _ d0 d1 (S d2)) by done.
      destruct (decide (y = ai)) as [->|Hne].
      + by rewrite decide_True.
      + by rewrite decide_False by tauto.
    - rewrite Hcounts by done. apply sum_over_ext. intros y Hy.
      rewrite Hh1, (np_at3_set3 _ d0 d1 (S d2)) by done.
      by rewrite decide_False by tauto. }
  split; [done|]. split; [done|]. split; [done|]. split; [done|].
  intros x z Hx Hz. destruct (decide (x = ci)) as [->|Hne].
  - assert (0 < np_at2 (mb_abstract_action_counts self1) ci z) as Hcpos.
    { rewrite Hcounts1 by lia. apply sum_over_pos; [done|].
      intros y Hy. apply Hpos1; (done || lia). }
    split.
    + intros y Hy. rewrite Hat by done. apply Rdiv_lt_0_compat; [|done].
      apply Hpos1; (done || lia).
    + rewrite (sum_over_ext _ _ (λ y, np_at3 (mb_mapping_history self1) ci y z
                                      / np_at2 (mb_abstract_action_counts self1) ci z)).
      * rewrite sum_over_div, <- Hcounts1 by lia. field. lra.
      * intros y Hy. by apply Hat.
  - assert (∀ y, np_at3 (mb_mapping_mle self1) x y z = np_at3 (mb_mapping_mle self) x y z)
      as Hsame.
    { intros y. unfold np_at3. by rewrite Hother. }
    destruct (Hmle x z Hx Hz) as [Hp Hs]. split.
    + intros y Hy. rewrite Hsame. by apply Hp.
    + rewrite <- Hs. apply sum_over_ext. intros y _. apply Hsame.
Qed.

Lemma ModelBasedAgent_update_rewards_mapping (self self' : ModelBasedAgent)
    (c sp : Z) (r : R) :
  ModelBasedAgent_update_rewards c sp r self = Ok self' →
  mb_n_primitive_actions self' = mb_n_primitive_actions self ∧
  mb_n_abstract_actions self' = mb_n_abstract_actions self ∧
  mb_mapping_history self' = mb_mapping_history self ∧
  mb_abstract_action_counts self' = mb_abstract_action_counts self ∧
  mb_mapping_mle self' = mb_mapping_mle self.
Proof.
  unfold ModelBasedAgent_update_rewards. intros Hrun.
  repeat match type of Hrun with
  | bind ?r _ = Ok _ => destruct r; [cbn [bind] in Hrun|discriminate]
  end.
  by injection Hrun as <-.
Qed.

Lemma ModelBasedAgent_update_consistent (task : T) (e : experience_tuple)
    (self self' : ModelBasedAgent) (d0 d1 d2 : nat) :
  mb_mapping_consistent self d0 d1 d2 →
  ModelBasedAgent_update task e self = Ok self' →
  mb_mapping_consistent self' d0 d1 d2.
Proof.
  intros Hcons. destruct e as [[[[s a] aa] r] [loc_prime c]].
  unfold ModelBasedAgent_update.
  destruct (ModelBasedAgent_updating_mapping c a aa self) as [self1|] eqn:Hmap;
    [|discriminate]. cbn [bind].
  destruct (dict_getitem _ _) as [sp|]; [|discriminate]. cbn [bind]. intros Hrew.
  pose proof (ModelBasedAgent_updating_mapping_consistent _ _ _ _ _ _ _ _ Hcons Hmap)
    as Hcons1.
  apply ModelBasedAgent_update_rewards_mapping in Hrew as (E1 & E2 & E3 & E4 & E5).
  unfold mb_mapping_consistent, mb_mapping_shapes in *.
  by rewrite E1, E2, E3, E4, E5.
Qed.

Lemma np_column_at3 (m : list (list (list R))) (d0 d1 d2 c k : nat) :
  np_shape_is3 m d0 d1 d2 → (c < d0)%nat →
  np_column m c k = (λ a, np_at3 m c a k) <$> seq 0 d1.
Proof.
  intros Hshape Hc. pose proof Hshape as [Hlen _].
  destruct (lookup_lt_is_Some_2 m c) as [plane Hplane]; [lia|].
  pose proof (np_shape_is3_plane _ _ _ _ _ _ Hshape Hplane) as [Hplen _].
  unfold np_column. rewrite Hplane. simpl. apply list_eq. intros i.
  rewrite !list_lookup_fmap. destruct (decide (i < d1)%nat) as [Hi|Hi].
  - destruct (lookup_lt_is_Some_2 plane i) as [row Hrow]; [lia|].
    rewrite Hrow, lookup_seq_lt by done. simpl.
    unfold np_at3. rewrite Hplane. simpl. by rewrite Hrow.
  - rewrite lookup_ge_None_2 by lia. by rewrite lookup_seq_ge by lia.
Qed.

(** X26. In a [ModelBasedAgent] built with a positive [mapping_prior],
    after any sequence of updates that all return, [mapping_mle[c, :, aa]]
    is a distribution over the primitive actions for every context [c] and
    abstract action [aa]: its entries are positive and sum to 1. *)
Theorem ModelBasedAgent_mapping_mle_distribution (task : T)
    (n_states n_primitive_actions n_abstract_actions : Z) (mapping_prior : R)
    (experiences : list experience_tuple) (agent0 agent : ModelBasedAgent) :
  0 < mapping_prior →
  ModelBasedAgent_init task n_states n_primitive_actions n_abstract_actions mapping_prior
  = inr agent0 →
  for_in experiences (ModelBasedAgent_update task) agent0 = Ok agent →
  ∀ c aa : nat, (Z.of_nat c < n_ctx task)%Z → (Z.of_nat aa < n_abstract_actions)%Z →
    length (np_column (mb_mapping_mle agent) c aa) = Z.to_nat n_primitive_actions ∧
    Forall (λ x, 0 < x) (np_column (mb_mapping_mle agent) c aa) ∧
    np_sum (np_column (mb_mapping_mle agent) c aa) = 1.
Proof.
  intros Hprior Hinit Hrun c aa Hc Haa.
  pose proof (ModelBasedAgent_init_consistent _ _ _ _ _ _ Hprior Hinit) as Hcons.
  set (d0 := Z.to_nat (n_ctx task)) in *.
  set (d1 := Z.to_nat n_primitive_actions) in *.
  set (d2 := Z.to_nat n_abstract_actions) in *.
  assert (mb_mapping_consistent agent d0 d1 d2) as Hfinal.
  { clear Hinit. revert agent0 Hcons Hrun.
    induction experiences as [|e es IH]; intros agent0 Hcons Hrun.
    - simpl in Hrun. by injection Hrun as <-.
    - simpl in Hrun.
      destruct (ModelBasedAgent_update task e agent0) as [agent1|] eqn:Hupd;
        [|discriminate]. cbn [bind] in Hrun.
      apply (IH agent1); [|done]. by eapply ModelBasedAgent_update_consistent. }
  destruct Hfinal as ((_ & _ & _ & _ & Hshape) & _ & _ & _ & Hmle).
  destruct (Hmle c aa) as [Hpos Hsum]; [lia|lia|].
  rewrite (np_column_at3 _ d0 d1 d2) by (done || lia).
  split; [by rewrite length_fmap, length_seq|]. split; [|exact Hsum].
  apply list.Forall_forall. intros x Hx.
  apply list_elem_of_fmap in Hx as (a & -> & Ha).
  apply elem_of_seq in Ha. apply Hpos. lia.
Qed.

End ModelBasedMapping.

Lemma ModelBasedAgent_mapping_mle_distribution_witness :
  ∃ agent0 agent,
    ModelBasedAgent_init single_state_task 1 2 4 (1 / 100) = inr agent0 ∧
    for_in [ (0%Z, 0%Z, 0%Z, 1%Z, (-1)%Z, 1, (0%Z, 0%Z, 0%Z)) ]
      (ModelBasedAgent_update single_state_task) agent0 = Ok agent ∧
    np_sum (np_column (mb_mapping_mle agent) 0 1) = 1.
Proof.
  eexists _, _. split; [reflexivity|]. split; [reflexivity|].
  refine (proj2 (proj2 (ModelBasedAgent_mapping_mle_distribution
    single_state_task 1 2 4 (1 / 100)
    [ (0%Z, 0%Z, 0%Z, 1%Z, (-1)%Z, 1, (0%Z, 0%Z, 0%Z)) ] _ _ _ _ _ 0%nat 1%nat _ _))).
  - lra.
  - reflexivity.
  - reflexivity.
  - simpl. lia.
  - lia.
Defined.

(** ** The reward statistics of [ModelBasedAgent] *)

Lemma py_index_mod (len : nat) (i : Z) :
  (- Z.of_nat len ≤ i < Z.of_nat len)%Z →
  py_index len i = Ok (Z.to_nat (i mod Z.of_nat len)).
Proof.
  intros Hi. unfold py_index. destruct (decide (0 ≤ i < Z.of_nat len)%Z) as [Hnn|Hneg].
  - by rewrite Z.mod_small.
  - rewrite decide_True by lia. do 2 f_equal.
    rewrite <- (Z_mod_plus_full i 1 (Z.of_nat len)).
    rewrite Z.mod_small by lia. lia.
Qed.

Lemma py_index_out (len : nat) (i : Z) :
  ¬ (- Z.of_nat len ≤ i < Z.of_nat len)%Z → py_index len i = Raise IndexError.
Proof.
  intros Hi. unfold py_index. rewrite decide_False by lia. by rewrite decide_False by lia.
Qed.

(** X27. On arrays of the constructor's shapes, [updating_mapping] returns
    exactly when each index lies within its dimension, counted from the
    front or, negative, from the back; otherwise it raises [IndexError].
    The abstract action may be any of [-(n_abstract_actions + 1) ..
    n_abstract_actions]: [-1], the action of no move, is counted in the
    extra last column. When it returns, one entry of [mapping_history] and
    one of [abstract_action_counts] have grown by 1 and no other entry of
    the two arrays has changed. *)
Theorem ModelBasedAgent_updating_mapping_indices (self : ModelBasedAgent)
    (d0 d1 d2 : nat) (c a aa : Z) :
  mb_mapping_shapes self d0 d1 d2 →
  ((- Z.of_nat d0 ≤ c < Z.of_nat d0)%Z ∧ (- Z.of_nat d1 ≤ a < Z.of_nat d1)%Z ∧
   (- Z.of_nat (S d2) ≤ aa ≤ Z.of_nat d2)%Z →
   ∃ self', ModelBasedAgent_updating_mapping c a aa self = Ok self' ∧
     ∀ x y z, (x < d0)%nat → (y < d1)%nat → (z < S d2)%nat →
       np_at3 (mb_mapping_history self') x y z
       = (if decide (x = Z.to_nat (c mod Z.of_nat d0) ∧
                     y = Z.to_nat (a mod Z.of_nat d1) ∧
                     z = Z.to_nat (aa mod Z.of_nat (S d2)))
          then np_at3 (mb_mapping_history self) x y z + 1
          else np_at3 (mb_mapping_history self) x y z) ∧
       np_at2 (mb_abstract_action_counts self') x z
       = (if decide (x = Z.to_nat (c mod Z.of_nat d0) ∧
                     z = Z.to_nat (aa mod Z.of_nat (S d2)))
          then np_at2 (mb_abstract_action_counts self) x z + 1
          else np_at2 (mb_abstract_action_counts self) x z)) ∧
  (¬ ((- Z.of_nat d0 ≤ c < Z.of_nat d0)%Z ∧ (- Z.of_nat d1 ≤ a < Z.of_nat d1)%Z ∧
      (- Z.of_nat (S d2) ≤ aa ≤ Z.of_nat d2)%Z) →
   ModelBasedAgent_updating_mapping c a aa self = Raise IndexError).
Proof.
  intros Hshapes. split.
  - intros (Hc & Ha & Haa).
    pose proof (py_index_mod d0 c Hc) as Hci.
    pose proof (py_index_mod d1 a Ha) as Hai.
    pose proof (py_index_mod (S d2) aa ltac:(lia)) as Hki.
    destruct (ModelBasedAgent_updating_mapping_Ok self d0 d1 d2 c a aa _ _ _
                Hshapes Hci Hai Hki) as (self' & Hrun & _ & Hh & Hcnt & _).
    exists self'. split; [exact Hrun|]. intros x y z Hx Hy Hz.
    destruct Hshapes as (_ & _ & Hsh & Hsc & _).
    apply py_index_lt in Hci, Hai, Hki.
    rewrite Hh, Hcnt, (np_at3_set3 _ d0 d1 (S d2)), (np_at2_set2 _ d0 (S d2)) by done.
    split.
    + case_decide as Heq; [|done]. by destruct Heq as (-> & -> & ->).
    + case_decide as Heq; [|done]. by destruct Heq as (-> & ->).
  - intros Hout. apply (ModelBasedAgent_updating_mapping_Raise self d0 d1 d2); [done|].
    destruct (decide (- Z.of_nat d0 ≤ c < Z.of_nat d0)%Z) as [Hc|Hc];
      [|left; by apply py_index_out].
    destruct (decide (- Z.of_nat d1 ≤ a < Z.of_nat d1)%Z) as [Ha|Ha];
      [|right; left; by apply py_index_out].
    right. right. apply py_index_out. lia.
Qed.

Lemma ModelBasedAgent_updating_mapping_indices_witness :
  ∃ self', ModelBasedAgent_updating_mapping 0 (-1) (-1) small_agent = Ok self' ∧
    np_at3 (mb_mapping_history self') 0 1 2
    = np_at3 (mb_mapping_history small_agent) 0 1 2 + 1.
Proof.
  destruct (ModelBasedAgent_updating_mapping_indices small_agent 1 2 2 0 (-1) (-1))
    as [H _].
  { split; [reflexivity|]. split; [reflexivity|].
    split; [apply (np_shape_is3_replicate 1 2 3)|].
    split; [apply (np_shape_is2_replicate 1 3)|apply (np_shape_is3_replicate 1 2 2)]. }
  destruct H as (self' & Hrun & Hat); [simpl; lia|].
  exists self'. split; [exact Hrun|].
  destruct (Hat 0 1 2)%nat as [Hh _]; [lia|lia|lia|].
  rewrite Hh. rewrite decide_True; [reflexivity|].
  split; [reflexivity|]. split; reflexivity.
Defined.

Lemma ModelBasedAgent_updating_mapping_rewards (self self' : ModelBasedAgent)
    (c a aa : Z) :
  ModelBasedAgent_updating_mapping c a aa self = Ok self' →
  mb_reward_visits self' = mb_reward_visits self ∧
  mb_reward_received self' = mb_reward_received self ∧
  mb_reward_function self' = mb_reward_function self.
Proof.
  unfold ModelBasedAgent_updating_mapping. intros Hrun.
  repeat match type of Hrun with
  | bind ?r _ = Ok _ => destruct r; [cbn [bind] in Hrun|discriminate]
  end.
  by injection Hrun as <-.
Qed.

Lemma ModelBasedAgent_update_rewards_inv (self self' : ModelBasedAgent)
    (d0 ds : nat) (c sp : Z) (r : R) :
  mb_reward_shapes self d0 ds →
  ModelBasedAgent_update_rewards c sp r self = Ok self' →
  ∃ ci si, py_index d0 c = Ok ci ∧ py_index ds sp = Ok si ∧
    mb_reward_visits self'
    = np_set2 (mb_reward_visits self) ci si (np_at2 (mb_reward_visits self) ci si + 1) ∧
    mb_reward_received self'
    = np_set2 (mb_reward_received self) ci si
        (np_at2 (mb_reward_received self) ci si + r) ∧
    mb_reward_function self'
    = np_set2 (mb_reward_function self) ci si
        ((np_at2 (mb_reward_received self) ci si + r)
         / (np_at2 (mb_reward_visits self) ci si + 1)).
Proof.
  intros (Hv & Hr & Hf). unfold ModelBasedAgent_update_rewards.
  rewrite (np_getitem2_spec _ d0 ds) by done.
  destruct (py_index d0 c) as [ci|e] eqn:Hci; [|discriminate].
  destruct (py_index ds sp) as [si|e] eqn:Hsi; [|discriminate]. cbn [bind].
  pose proof (py_index_lt _ _ _ Hci) as Hci'.
  pose proof (py_index_lt _ _ _ Hsi) as Hsi'.
  rewrite (np_setitem2_spec _ d0 ds) by done. rewrite Hci, Hsi. cbn [bind].
  rewrite (np_getitem2_spec _ d0 ds) by done. rewrite Hci, Hsi. cbn [bind].
  rewrite (np_setitem2_spec _ d0 ds) by done. rewrite Hci, Hsi. cbn [bind].
  rewrite (np_getitem2_spec _ d0 ds) by (by apply np_set2_shape).
  rewrite Hci, Hsi. cbn [bind].
  rewrite (np_getitem2_spec _ d0 ds) by (by apply np_set2_shape).
  rewrite Hci, Hsi. cbn [bind].
  rewrite (np_setitem2_spec _ d0 ds) by done. rewrite Hci, Hsi. cbn [bind].
  intros [= <-]. exists ci, si. simpl.
  rewrite !(np_at2_set2 _ d0 ds) by done. rewrite !decide_True by done. done.
Qed.

Lemma index_of_Ok len i j : index_of len i = Some j ↔ py_index len i = Ok j.
Proof.
  unfold index_of. destruct (py_index len i); split; intros Heq; by simplify_eq.
Qed.

Section ModelBasedRewards.
Context {T : Type} `{Task T}.

Lemma ModelBasedAgent_update_reward_step (task : T) (e : experience_tuple)
    (self self' : ModelBasedAgent) (d0 ds : nat) :
  mb_reward_shapes self d0 ds →
  ModelBasedAgent_update task e self = Ok self' →
  mb_reward_shapes self' d0 ds ∧
  ∀ ci si, (ci < d0)%nat → (si < ds)%nat →
    (ends_at task d0 ds ci si e →
     np_at2 (mb_reward_visits self') ci si
     = np_at2 (mb_reward_visits self) ci si + 1 ∧
     np_at2 (mb_reward_received self') ci si
     = np_at2 (mb_reward_received self) ci si + reward_of e ∧
     np_at2 (mb_reward_function self') ci si
     = np_at2 (mb_reward_received self') ci si
       / np_at2 (mb_reward_visits self') ci si) ∧
    (¬ ends_at task d0 ds ci si e →
     np_at2 (mb_reward_visits self') ci si = np_at2 (mb_reward_visits self) ci si ∧
     np_at2 (mb_reward_received self') ci si
     = np_at2 (mb_reward_received self) ci si ∧
     np_at2 (mb_reward_function self') ci si
     = np_at2 (mb_reward_function self) ci si).
Proof.
  intros Hshapes. destruct e as [[[[s a] aa] r] [loc_prime c]].
  unfold ModelBasedAgent_update.
  destruct (ModelBasedAgent_updating_mapping c a aa self) as [self1|] eqn:Hmap;
    [|discriminate]. cbn [bind].
  apply ModelBasedAgent_updating_mapping_rewards in Hmap as (E1 & E2 & E3).
  unfold dict_getitem.
  destruct (state_location_key task !! loc_prime) as [sp|] eqn:Hkey; [|discriminate].
  cbn [bind]. intros Hrew.
  assert (mb_reward_shapes self1 d0 ds) as Hshapes1.
  { unfold mb_reward_shapes. by rewrite E1, E2, E3. }
  destruct (ModelBasedAgent_update_rewards_inv _ _ d0 ds _ _ _ Hshapes1 Hrew)
    as (ci' & si' & Hci & Hsi & Hv & Hr & Hf).
  pose proof Hshapes1 as (Sv & Sr & Sf).
  pose proof (py_index_lt _ _ _ Hci) as Hci'.
  pose proof (py_index_lt _ _ _ Hsi) as Hsi'.
  split.
  { unfold mb_reward_shapes. rewrite Hv, Hr, Hf.
    split; [|split]; by apply np_set2_shape. }
  intros ci si Hcilt Hsilt. rewrite Hv, Hr, Hf.
  rewrite !(np_at2_set2 _ d0 ds) by done. rewrite E1, E2, E3.
  unfold ends_at, reward_of. cbn [fst snd]. rewrite Hkey. cbn [mbind option_bind].
  rewrite !index_of_Ok, Hci, Hsi. split.
  - intros [[= ->] [= ->]]. by rewrite !decide_True by done.
  - intros Hmiss. assert (¬ (ci = ci' ∧ si = si')) as Hne.
    { intros [-> ->]. by apply Hmiss. }
    by rewrite !decide_False by done.
Qed.

Lemma ModelBasedAgent_run_rewards (task : T) (experiences : list experience_tuple)
    (self self' : ModelBasedAgent) (d0 ds : nat) :
  mb_reward_shapes self d0 ds →
  for_in experiences (ModelBasedAgent_update task) self = Ok self' →
  ∀ ci si, (ci < d0)%nat → (si < ds)%nat →
    let hits := filter (ends_at task d0 ds ci si) experiences in
    np_at2 (mb_reward_visits self') ci si
    = np_at2 (mb_reward_visits self) ci si + INR (length hits) ∧
    np_at2 (mb_reward_received self') ci si
    = np_at2 (mb_reward_received self) ci si + np_sum (reward_of <$> hits) ∧
    np_at2 (mb_reward_function self') ci si
    = if decide (hits = []) then np_at2 (mb_reward_function self) ci si
      else np_at2 (mb_reward_received self') ci si
           / np_at2 (mb_reward_visits self') ci si.
Proof.
  revert self. induction experiences as [|e es IH]; intros self Hshapes Hrun ci si Hci Hsi.
  - simpl in Hrun. injection Hrun as <-. simpl. change (np_sum []) with 0.
    split; [lra|]. split; [lra|done].
  - simpl in Hrun.
    destruct (ModelBasedAgent_update task e self) as [self1|] eqn:Hupd; [|discriminate].
    cbn [bind] in Hrun.
    destruct (ModelBasedAgent_update_reward_step task e self self1 d0 ds Hshapes Hupd)
      as [Hshapes1 Hstep].
    destruct (Hstep ci si Hci Hsi) as [Hyes Hno].
    destruct (IH self1 Hshapes1 Hrun ci si Hci Hsi) as (Hv & Hr & Hf).
    cbn zeta in *. rewrite list.filter_cons.
    match goal with
    | |- context [@decide (ends_at ?a ?b ?c ?d ?f ?g) ?inst] =>
        destruct (@decide (ends_at a b c d f g) inst) as [Hhit|Hmiss]
    end.
    + destruct (Hyes Hhit) as (Hv1 & Hr1 & Hf1).
      rewrite fmap_cons, np_sum_cons. cbn [length]. rewrite S_INR.
      split; [lra|]. split; [lra|]. rewrite decide_False by done.
      rewrite Hf. case_decide as Hnil; [|done].
      rewrite Hf1, Hv, Hr, Hnil. simpl. change (np_sum []) with 0.
      f_equal; lra.
    + destruct (Hno Hmiss) as (Hv1 & Hr1 & Hf1).
      split; [lra|]. split; [lra|]. rewrite Hf. case_decide; [done|done].
Qed.

(** X28. After any sequence of updates that all return, the reward arrays
    of a fresh [ModelBasedAgent] hold, for context [c] and state [s]:
    [reward_visits] is 0.0001 plus the number of the experiences that ended
    there, [reward_received] is 0.001 plus the rewards of these
    experiences, and [reward_function] is their ratio, or the initial
    0.001/0.0101 when no experience ended there. *)
Theorem ModelBasedAgent_reward_function_mean (task : T)
    (n_states n_primitive_actions n_abstract_actions : Z) (mapping_prior : R)
    (experiences : list experience_tuple) (agent0 agent : ModelBasedAgent) :
  ModelBasedAgent_init task n_states n_primitive_actions n_abstract_actions mapping_prior
  = inr agent0 →
  for_in experiences (ModelBasedAgent_update task) agent0 = Ok agent →
  ∀ c s : nat, (Z.of_nat c < n_ctx task)%Z → (Z.of_nat s < n_states)%Z →
    let hits := filter (ends_at task (Z.to_nat (n_ctx task)) (Z.to_nat n_states) c s)
                  experiences in
    let visits := 1 / 10000 + INR (length hits) in
    let received := 1 / 1000 + np_sum (reward_of <$> hits) in
    np_at2 (mb_reward_visits agent) c s = visits ∧
    np_at2 (mb_reward_received agent) c s = received ∧
    np_at2 (mb_reward_function agent) c s
    = if decide (hits = []) then 1 / 1000 / (101 / 10000) else received / visits.
Proof.
  intros Hinit Hrun c s Hc Hs.
  apply ModelBasedAgent_init_inr in Hinit as (Hctx & Hprim & Habs & Hst & ->).
  set (d0 := Z.to_nat (n_ctx task)). set (ds := Z.to_nat n_states).
  eassert (mb_reward_shapes _ d0 ds) as Hshapes; [|
    destruct (ModelBasedAgent_run_rewards task experiences _ agent d0 ds Hshapes Hrun
                c s ltac:(lia) ltac:(lia)) as (Hv & Hr & Hf)].
  { split; [|split]; apply np_shape_is2_replicate. }
  cbn [mb_reward_visits mb_reward_received mb_reward_function] in Hv, Hr, Hf.
  rewrite !np_at2_replicate in Hv, Hr, Hf by lia.
  cbn zeta in *. rewrite Hv, Hr, Hf.
  split; [lra|]. split; [lra|]. case_decide; [lra|]. f_equal; lra.
Qed.

End ModelBasedRewards.

Lemma ModelBasedAgent_reward_function_mean_witness :
  ∃ agent0 agent,
    ModelBasedAgent_init single_state_task 1 2 4 (1 / 100) = inr agent0 ∧
    for_in [ (0%Z, 0%Z, 0%Z, 1%Z, (-1)%Z, 1, (0%Z, 0%Z, 0%Z)) ]
      (ModelBasedAgent_update single_state_task) agent0 = Ok agent ∧
    np_at2 (mb_reward_visits agent) 0 0
    = 1 / 10000
      + INR (length (filter (ends_at single_state_task 1 1 0 0)
                       [ (0%Z, 0%Z, 0%Z, 1%Z, (-1)%Z, 1, (0%Z, 0%Z, 0%Z)) ])).
Proof.
  eexists _, _. split; [reflexivity|]. split; [reflexivity|].
  refine (proj1 (ModelBasedAgent_reward_function_mean
    single_state_task 1 2 4 (1 / 100)
    [ (0%Z, 0%Z, 0%Z, 1%Z, (-1)%Z, 1, (0%Z, 0%Z, 0%Z)) ] _ _ _ _ 0%nat 0%nat _ _)).
  - reflexivity.
  - reflexivity.
  - simpl. lia.
  - lia.
Defined.

(** ** The reward prior of [ModelBasedAgent] *)

Lemma np_add_column_spec (m : list (list R)) (d0 d1 : nat) (j : Z) (ji : nat) (v : R) :
  np_shape_is2 m d0 d1 → py_index d1 j = Ok ji →
  ∃ m', np_add_column m d1 j v = Ok m' ∧ np_shape_is2 m' d0 d1 ∧
    ∀ c s, (c < d0)%nat → (s < d1)%nat →
      np_at2 m' c s = if decide (s = ji) then np_at2 m c s + v else np_at2 m c s.
Proof.
  intros Hshape Hj. pose proof Hshape as [Hlen Hrows].
  unfold np_add_column. rewrite Hj. cbn [bind]. eexists. split; [reflexivity|]. split.
  - split; [by rewrite length_fmap|]. apply Forall_fmap.
    eapply list.Forall_impl; [exact Hrows|]. intros row Hrow. simpl.
    by rewrite length_alter.
  - intros c s Hc Hs. unfold np_at2. rewrite list_lookup_fmap.
    destruct (lookup_lt_is_Some_2 m c) as [row Hrow]; [lia|]. rewrite Hrow. simpl.
    pose proof (np_shape_is2_row _ _ _ _ _ Hshape Hrow) as Hrowlen.
    destruct (lookup_lt_is_Some_2 row s) as [x Hx]; [lia|].
    destruct (decide (s = ji)) as [->|Hne].
    + by rewrite list_lookup_alter_eq, Hx.
    + by rewrite list_lookup_alter_ne by done.
Qed.

Section ModelBasedPrior.
Context {T : Type} `{Task T}.

(** The locations of the list have a state, within the states of the task. *)
Lemma ModelBasedAgent_set_reward_prior_locations (task : T) (ds d0 : nat)
    (locs : list location) (received visits : list (list R)) :
  np_shape_is2 received d0 ds → np_shape_is2 visits d0 ds →
  Forall (λ loc, ∃ sp, state_location_key task !! loc = Some sp ∧
                       (- Z.of_nat ds ≤ sp < Z.of_nat ds)%Z) locs →
  ∃ received' visits',
    for_in locs (λ loc (arrays : list (list R) * list (list R)),
      let* s := dict_getitem (state_location_key task) loc in
      let* reward_received := np_add_column arrays.1 ds s (1 / 1000) in
      let* reward_visits := np_add_column arrays.2 ds s (1 / 1000) in
      Ok (reward_received, reward_visits)) (received, visits)
    = Ok (received', visits') ∧
    np_shape_is2 received' d0 ds ∧ np_shape_is2 visits' d0 ds ∧
    ∀ c s, (c < d0)%nat → (s < ds)%nat →
      np_at2 received' c s
      = np_at2 received c s + INR (length (filter (listed_for task ds s) locs)) / 1000 ∧
      np_at2 visits' c s
      = np_at2 visits c s + INR (length (filter (listed_for task ds s) locs)) / 1000.
Proof.
  revert received visits. induction locs as [|loc locs IH];
    intros received visits Hr Hv Hlocs.
  - exists received, visits. split; [done|]. split; [done|]. split; [done|].
    intros c s _ _. simpl. lra.
  - apply list.Forall_cons in Hlocs as [(sp & Hkey & Hsp) Hlocs].
    pose proof (py_index_mod ds sp Hsp) as Hsi.
    destruct (np_add_column_spec received d0 ds sp _ (1 / 1000) Hr Hsi)
      as (received1 & Hrun1 & Hr1 & Hat1).
    destruct (np_add_column_spec visits d0 ds sp _ (1 / 1000) Hv Hsi)
      as (visits1 & Hrun2 & Hv1 & Hat2).
    destruct (IH received1 visits1 Hr1 Hv1 Hlocs)
      as (received' & visits' & Hrun & Hr' & Hv' & Hat).
    exists received', visits'. split.
    { cbn [for_in]. unfold dict_getitem. rewrite Hkey. cbn [bind fst snd].
      rewrite Hrun1. cbn [bind]. rewrite Hrun2. cbn [bind]. exact Hrun. }
    split; [done|]. split; [done|]. intros c s Hc Hs.
    destruct (Hat c s Hc Hs) as [Ha Hb]. rewrite Ha, Hb, Hat1, Hat2 by done.
    rewrite list.filter_cons.
    match goal with
    | |- context [@decide (listed_for ?a ?b ?c ?d) ?inst] =>
        destruct (@decide (listed_for a b c d) inst) as [Hhit|Hmiss]
    end.
    + unfold listed_for in Hhit. rewrite Hkey in Hhit. cbn [mbind option_bind] in Hhit.
      apply index_of_Ok in Hhit. rewrite Hsi in Hhit. injection Hhit as <-.
      rewrite !decide_True by done. cbn [length]. rewrite S_INR. lra.
    + assert (s ≠ Z.to_nat (sp mod Z.of_nat ds)) as Hne.
      { intros ->. apply Hmiss. unfold listed_for. rewrite Hkey.
        cbn [mbind option_bind]. by apply index_of_Ok. }
      rewrite !decide_False by done. lra.
Qed.

(** The two loops at the end of [set_reward_prior] store the ratio in every
    entry of [reward_function]. *)
Lemma ModelBasedAgent_set_reward_prior_loops (received visits f : list (list R))
    (d0 ds : nat) :
  np_shape_is2 received d0 ds → np_shape_is2 visits d0 ds → np_shape_is2 f d0 ds →
  ∃ f',
    for_in (py_range 0 (Z.of_nat ds)) (λ s reward_function,
      for_in (py_range 0 (Z.of_nat d0)) (λ c reward_function,
        let* x := np_getitem2 received c s in
        let* v := np_getitem2 visits c s in
        np_setitem2 reward_function c s (x / v)) reward_function) f = Ok f' ∧
    np_shape_is2 f' d0 ds ∧
    ∀ c s, (c < d0)%nat → (s < ds)%nat →
      np_at2 f' c s = np_at2 received c s / np_at2 visits c s.
Proof.
  intros Hr Hv Hf.
  pose (val := λ c s, np_at2 received c s / np_at2 visits c s).
  pose (Q := λ (j : nat) (g : list (list R)),
    np_shape_is2 g d0 ds ∧
    ∀ c s, (c < d0)%nat → (s < ds)%nat →
      np_at2 g c s = if decide (s < j)%nat then val c s else np_at2 f c s).
  destruct (for_in_range Q (λ s reward_function,
      for_in (py_range 0 (Z.of_nat d0)) (λ c reward_function,
        let* x := np_getitem2 received c s in
        let* v := np_getitem2 visits c s in
        np_setitem2 reward_function c s (x / v)) reward_function) ds f)
    as (f' & Hrun & Hshape & Hat).
  - split; [done|]. intros c s _ _. by rewrite decide_False by lia.
  - intros j g0 Hj (Hg0 & Hat0).
    pose (P := λ (i : nat) (g : list (list R)),
      np_shape_is2 g d0 ds ∧
      ∀ c s, (c < d0)%nat → (s < ds)%nat →
        np_at2 g c s = if decide (s = j ∧ c < i)%nat then val c s else np_at2 g0 c s).
    destruct (for_in_range P (λ c reward_function,
        let* x := np_getitem2 received c (Z.of_nat j) in
        let* v := np_getitem2 visits c (Z.of_nat j) in
        np_setitem2 reward_function c (Z.of_nat j) (x / v)) d0 g0)
      as (g1 & Hrun1 & Hg1 & Hat1).
    + split; [done|]. intros c s _ _. by rewrite decide_False by lia.
    + intros i g Hi (Hg & Hatg). eexists. split.
      * rewrite (np_getitem2_spec received d0 ds) by done.
        rewrite !py_index_nat by lia. cbn [bind].
        rewrite (np_getitem2_spec visits d0 ds) by done.
        rewrite !py_index_nat by lia. cbn [bind].
        rewrite (np_setitem2_spec g d0 ds) by done.
        rewrite !py_index_nat by lia. cbn [bind]. reflexivity.
      * split; [by apply np_set2_shape|].
        intros c s Hc Hs. rewrite (np_at2_set2 g d0 ds) by done.
        rewrite Hatg by done.
        destruct (decide (c = i ∧ s = j)) as [[-> ->]|Hne].
        { by rewrite decide_True by lia. }
        destruct (decide (s = j ∧ c < i)%nat), (decide (s = j ∧ c < S i)%nat);
          try done; lia.
    + exists g1. split; [exact Hrun1|]. split; [done|].
      intros c s Hc Hs. rewrite Hat1, Hat0 by done.
      destruct (decide (s = j ∧ c < d0)%nat), (decide (s < j)%nat),
        (decide (s < S j)%nat); try done; lia.
  - exists f'. split; [exact Hrun|]. split; [done|].
    intros c s Hc Hs. rewrite Hat by done. by rewrite decide_True by lia.
Qed.

(** X29. [set_reward_prior] gives every state that is not among the listed
    locations the reward estimate 0.1 in every context, and every listed
    state an estimate above 0.9 and below 1; a state listed [k] times gets
    (0.00001 + 0.001 k) / (0.0001 + 0.001 k). The call raises [KeyError] at
    the first listed location that is not in [state_location_key]. *)
Theorem ModelBasedAgent_set_reward_prior_values (task : T) (list_locations : list location)
    (self : ModelBasedAgent) (d0 ds : nat) :
  n_ctx task = Z.of_nat d0 → mb_n_states self = Z.of_nat ds →
  np_shape_is2 (mb_reward_function self) d0 ds →
  (Forall (λ loc, ∃ sp, state_location_key task !! loc = Some sp ∧
                        (- Z.of_nat ds ≤ sp < Z.of_nat ds)%Z) list_locations →
   ∃ self', ModelBasedAgent_set_reward_prior task list_locations self = Ok self' ∧
     ∀ c s, (c < d0)%nat → (s < ds)%nat →
       let listed := filter (listed_for task ds s) list_locations in
       let k := INR (length listed) in
       np_at2 (mb_reward_function self') c s
       = (1 / 100000 + k / 1000) / (1 / 10000 + k / 1000) ∧
       (listed = [] → np_at2 (mb_reward_function self') c s = 1 / 10) ∧
       (listed ≠ [] → 9 / 10 < np_at2 (mb_reward_function self') c s < 1)) ∧
  (∀ good bad rest, list_locations = good ++ bad :: rest →
     Forall (λ loc, ∃ sp, state_location_key task !! loc = Some sp ∧
                          (- Z.of_nat ds ≤ sp < Z.of_nat ds)%Z) good →
     state_location_key task !! bad = None →
     ModelBasedAgent_set_reward_prior task list_locations self = Raise KeyError).
Proof.
  intros Hctx Hstates Hf.
  assert (Hones : ∀ v, np_ones2 (n_ctx task) (mb_n_states self) v
                       = Ok (replicate d0 (replicate ds (1 * v)))).
  { intros v. unfold np_ones2. rewrite Hctx, Hstates, decide_False by lia.
    by rewrite !Nat2Z.id. }
  split.
  - intros Hlocs. unfold ModelBasedAgent_set_reward_prior.
    rewrite !Hones. cbn [bind]. rewrite Hstates, Hctx, Nat2Z.id.
    destruct (ModelBasedAgent_set_reward_prior_locations task ds d0 list_locations
                (replicate d0 (replicate ds (1 * (1 / 100000))))
                (replicate d0 (replicate ds (1 * (1 / 10000)))))
      as (received & visits & Hrun & Hr & Hv & Hat);
      [apply np_shape_is2_replicate|apply np_shape_is2_replicate|done|].
    rewrite Hrun. cbn [bind].
    destruct (ModelBasedAgent_set_reward_prior_loops received visits
                (mb_reward_function self) d0 ds Hr Hv Hf) as (f' & Hrun' & _ & Hat').
    rewrite Hrun'. cbn [bind]. eexists. split; [reflexivity|].
    intros c s Hc Hs. cbn [mb_reward_function]. cbn zeta.
    rewrite Hat' by done. destruct (Hat c s Hc Hs) as [-> ->].
    rewrite !np_at2_replicate by done.
    set (k := INR (length (filter (listed_for task ds s) list_locations))).
    assert (0 <= k) as Hk by apply pos_INR.
    assert ((1 * (1 / 100000) + k / 1000) / (1 * (1 / 10000) + k / 1000)
            = (1 / 100000 + k / 1000) / (1 / 10000 + k / 1000)) as -> by (f_equal; lra).
    split; [done|]. split.
    + intros Hnil. unfold k. rewrite Hnil. simpl. lra.
    + intros Hne. assert (1 <= k) as Hk1.
      { unfold k. destruct (filter _ _) as [|x l]; [done|].
        cbn [length]. rewrite S_INR. pose proof (pos_INR (length l)). lra. }
      assert (0 < 1 / 10000 + k / 1000) as Hden by lra.
      split.
      * apply (Rmult_lt_reg_r (1 / 10000 + k / 1000)); [done|].
        replace ((1 / 100000 + k / 1000) / (1 / 10000 + k / 1000)
                 * (1 / 10000 + k / 1000))
          with (1 / 100000 + k / 1000) by (field; lra). lra.
      * apply (Rmult_lt_reg_r (1 / 10000 + k / 1000)); [done|].
        replace ((1 / 100000 + k / 1000) / (1 / 10000 + k / 1000)
                 * (1 / 10000 + k / 1000))
          with (1 / 100000 + k / 1000) by (field; lra). lra.
  - intros good bad rest -> Hgood Hbad. unfold ModelBasedAgent_set_reward_prior.
    rewrite !Hones. cbn [bind]. rewrite Hstates, Nat2Z.id.
    destruct (ModelBasedAgent_set_reward_prior_locations task ds d0 good
                (replicate d0 (replicate ds (1 * (1 / 100000))))
                (replicate d0 (replicate ds (1 * (1 / 10000)))))
      as (received & visits & Hrun & _);
      [apply np_shape_is2_replicate|apply np_shape_is2_replicate|done|].
    rewrite for_in_app, Hrun. cbn [bind for_in]. unfold dict_getitem.
    by rewrite Hbad.
Qed.

End ModelBasedPrior.

Lemma ModelBasedAgent_set_reward_prior_values_witness :
  ∃ self', ModelBasedAgent_set_reward_prior single_state_task [ (0, 0)%Z ] small_agent
           = Ok self' ∧
    9 / 10 < np_at2 (mb_reward_function self') 0 0 < 1.
Proof.
  destruct (ModelBasedAgent_set_reward_prior_values single_state_task [ (0, 0)%Z ]
              small_agent 1 1) as [H _].
  - reflexivity.
  - reflexivity.
  - apply (np_shape_is2_replicate 1 1).
  - destruct H as (self' & Hrun & Hat).
    + constructor; [|constructor]. exists 0%Z. split; [reflexivity|]. simpl. lia.
    + exists self'. split; [exact Hrun|].
      destruct (Hat 0 0)%nat as (_ & _ & Hlisted); [lia|lia|].
      apply Hlisted. rewrite list.filter_cons.
      match goal with
      | |- context [@decide (listed_for ?a ?b ?c ?d) ?inst] =>
          destruct (@decide (listed_for a b c d) inst) as [Hhit|Hmiss]
      end; [done|].
      exfalso. apply Hmiss. reflexivity.
Defined.

Local Close Scope R_scope.
